(** * RealmDB: the feed synchronisation engine of GoodDAPP

    A shallow embedding of [src/lib/realmdb/RealmDB.js] and the properties
    of its write path, reconciliation pass, feed paging, settings blob and
    change notification.

    The class is a thin orchestration layer over three collaborators: the
    local store ([this.db], a ThreadDB over Dexie), the remote document
    store ([this.database], Realm/MongoDB) and the key pair
    ([this.privateKey]).  Each method is embedded as a computation in a
    state-and-exception monad over a [World] that holds the instance fields
    together with the two stores, the log and the objects owned by callers.
    A promise the source does not await is kept as a [Task] and run as a
    later turn of the event loop. *)

From stdpp Require Import gmap strings list fin_maps sorting lexico.
From Stdlib Require Import ZArith Ascii.

Open Scope Z_scope.

(** ** JavaScript values *)

(** A thrown value: [new Error(message)]. *)
Inductive exn := Error (message : string).

(** How a call (or an awaited promise) ends. *)
Inductive outcome (A : Type) :=
| Ok (a : A)
| Throw (e : exn).
Arguments Ok {A} a.
Arguments Throw {A} e.

Definition bytes := list Byte.byte.

(** [new TextEncoder().encode] and [new TextDecoder().decode]: strings are
    kept as their UTF-8 bytes, so both are re-packagings. *)
Definition TextEncoder_encode (s : string) : bytes := String.list_byte_of_string s.
Definition TextDecoder_decode (b : bytes) : string := String.string_of_list_byte b.

(** [JSON.stringify] and [JSON.parse] at a given shape of object; [JSON.parse]
    throws on text that is not JSON of that shape. *)
Class Json (A : Type) := {
  JSON_stringify : A → string;
  JSON_parse : string → outcome A
}.

(** [Buffer.from(b).toString('base64')] and [Buffer.from(s, 'base64')]. *)
Class Base64 := {
  to_base64 : bytes → string;
  from_base64 : string → bytes
}.

(** The key pair of [@textile/crypto]: [privateKey.public.encrypt] and
    [privateKey.decrypt]; both return promises that may reject. *)
Record PrivateKey := {
  public_encrypt : bytes → outcome bytes;
  decrypt : bytes → outcome bytes
}.

(** Truthiness of a string-or-undefined value: [undefined] and [''] are
    falsy. *)
Definition truthy (v : option string) : bool :=
  match v with
  | Some s => bool_decide (s ≠ "")
  | None => false
  end.

(** Template-literal interpolation [`${v}`]. *)
Definition interpolate (v : option string) : string :=
  match v with
  | Some s => s
  | None => "undefined"
  end.

(** [hay.includes(needle)] on strings. *)
Fixpoint String_includes (needle hay : string) : bool :=
  String.prefix needle hay ||
  match hay with
  | EmptyString => false
  | String _ rest => String_includes needle rest
  end.

(** [arr.includes(v)] for an array of strings and a string-or-undefined [v]. *)
Definition Array_includes (arr : list string) (v : option string) : bool :=
  match v with
  | Some s => bool_decide (s ∈ arr)
  | None => false
  end.

(** ** Data model *)

(** A feed item.  [date] is its timestamp in milliseconds since the epoch;
    [data] stands for the fields the engine never looks at. *)
Module FeedItem.
Record t := mk {
  id : option string;
  _id : option string;
  date : Z;
  status : option string;
  otplStatus : option string;
  sync : option bool;
  data : string
}.

Definition set__id (v : option string) (i : t) : t :=
  mk (id i) v (date i) (status i) (otplStatus i) (sync i) (data i).

Definition set_sync (v : option bool) (i : t) : t :=
  mk (id i) (_id i) (date i) (status i) (otplStatus i) v (data i).

#[global] Instance eq_dec : EqDecision t.
Proof. solve_decision. Defined.
End FeedItem.

(** A document of the remote [encrypted_feed] collection: the mirror of a
    feed item, or the settings blob (which has no [txHash] and no [date]). *)
Module EncryptedRecord.
Record t := mk {
  _id : string;
  user_id : string;
  txHash : option string;
  encrypted : option string;
  date : option Z
}.

#[global] Instance eq_dec : EqDecision t.
Proof. solve_decision. Defined.
End EncryptedRecord.

(** The settings blob: a flat structure; [{}] is the empty map. *)
Abbreviation Settings := (gmap string string).

(** The result of [updateOne]. *)
Record UpdateResult := {
  matchedCount : nat;
  upsertedId : option string
}.

(** What the store hooks hand to [_notifyChange]: the primary key and the
    row, for a row that is created or for one that is updated. *)
Inductive Change :=
| creating (id : string) (event : FeedItem.t)
| updating (id : string) (event : FeedItem.t).

(** A registered callback.  [lid] is the identity of the function object
    (what [!==] compares); [cb] is what it does with the data: return or
    throw. *)
Record Listener := {
  lid : nat;
  cb : Change → outcome unit
}.

(** Calls made on the remote [encrypted_feed] collection. *)
Inductive RemoteCall :=
| call_find (user_id : string) (date_gt : Z)
| call_findOne (_id : string)
| call_updateOne (_id user_id : string) (doc : EncryptedRecord.t).

Inductive level := debug | info | warn | error.

(** A reference to an object owned by a caller. *)
Abbreviation loc := nat.

(** A promise that was started and not awaited: the push that [write]
    starts for the caller's object (lines 222-226), and the retry that a
    pass starts for a row flagged [sync = false] (lines 148-152).  Its body
    runs as a later turn of the event loop.  What a push does before its
    first [await] (it serialises the item and starts the encryption) has no
    effect on the world, and is run with the rest. *)
Inductive Task :=
| push_from_write (feedItem : loc)
| push_from_sync (item : FeedItem.t).

(** ** The world *)

Record World := mkWorld {
  (* fields of the instance *)
  privateKey : PrivateKey;
  user : string;                                  (* this.user.id *)
  listeners : list Listener;
  (* this.db: the rows of the Feed table by primary key, and whether the
     local store answers *)
  FeedTable : gmap string FeedItem.t;
  db_ok : bool;
  (* this.database: the encrypted_feed collection by _id, and whether the
     remote store answers *)
  encrypted_feed : gmap string EncryptedRecord.t;
  remote_ok : bool;
  (* outside the instance *)
  heap : gmap loc FeedItem.t;
  logs : list (level * string);
  delivered : list (nat * Change);
  remote_calls : list RemoteCall;
  pending : list Task
}.

Definition set_privateKey (v : PrivateKey) (w : World) : World :=
  mkWorld v (user w) (listeners w) (FeedTable w) (db_ok w)
          (encrypted_feed w) (remote_ok w) (heap w) (logs w) (delivered w)
          (remote_calls w) (pending w).

Definition set_listeners (v : list Listener) (w : World) : World :=
  mkWorld (privateKey w) (user w) v (FeedTable w) (db_ok w)
          (encrypted_feed w) (remote_ok w) (heap w) (logs w) (delivered w)
          (remote_calls w) (pending w).

Definition set_FeedTable (v : gmap string FeedItem.t) (w : World) : World :=
  mkWorld (privateKey w) (user w) (listeners w) v (db_ok w)
          (encrypted_feed w) (remote_ok w) (heap w) (logs w) (delivered w)
          (remote_calls w) (pending w).

Definition set_encrypted_feed (v : gmap string EncryptedRecord.t) (w : World) : World :=
  mkWorld (privateKey w) (user w) (listeners w) (FeedTable w) (db_ok w)
          v (remote_ok w) (heap w) (logs w) (delivered w)
          (remote_calls w) (pending w).

Definition set_remote_ok (v : bool) (w : World) : World :=
  mkWorld (privateKey w) (user w) (listeners w) (FeedTable w) (db_ok w)
          (encrypted_feed w) v (heap w) (logs w) (delivered w)
          (remote_calls w) (pending w).

Definition set_heap (v : gmap loc FeedItem.t) (w : World) : World :=
  mkWorld (privateKey w) (user w) (listeners w) (FeedTable w) (db_ok w)
          (encrypted_feed w) (remote_ok w) v (logs w) (delivered w)
          (remote_calls w) (pending w).

Definition set_logs (v : list (level * string)) (w : World) : World :=
  mkWorld (privateKey w) (user w) (listeners w) (FeedTable w) (db_ok w)
          (encrypted_feed w) (remote_ok w) (heap w) v (delivered w)
          (remote_calls w) (pending w).

Definition set_delivered (v : list (nat * Change)) (w : World) : World :=
  mkWorld (privateKey w) (user w) (listeners w) (FeedTable w) (db_ok w)
          (encrypted_feed w) (remote_ok w) (heap w) (logs w) v
          (remote_calls w) (pending w).

Definition set_remote_calls (v : list RemoteCall) (w : World) : World :=
  mkWorld (privateKey w) (user w) (listeners w) (FeedTable w) (db_ok w)
          (encrypted_feed w) (remote_ok w) (heap w) (logs w) (delivered w)
          v (pending w).

Definition set_pending (v : list Task) (w : World) : World :=
  mkWorld (privateKey w) (user w) (listeners w) (FeedTable w) (db_ok w)
          (encrypted_feed w) (remote_ok w) (heap w) (logs w) (delivered w)
          (remote_calls w) v.

(** ** The monad of method bodies *)

(** A computation runs in a world and ends by returning or by throwing; what
    it did to the world before throwing stays done. *)
Definition M (A : Type) : Type := World → outcome A * World.

#[global] Instance M_ret : MRet M := λ A a w, (Ok a, w).

#[global] Instance M_bind : MBind M := λ A B f m w,
  match m w with
  | (Ok a, w') => f a w'
  | (Throw e, w') => (Throw e, w')
  end.

Definition throw {A} (e : exn) : M A := λ w, (Throw e, w).

(** [try { body } catch (e) { handler e }], and equally
    [promise.catch(handler)]. *)
Definition try_catch {A} (body : M A) (handler : exn → M A) : M A := λ w,
  match body w with
  | (Ok a, w') => (Ok a, w')
  | (Throw e, w') => handler e w'
  end.

(** Settle an [outcome] computed outside the world. *)
Definition settle {A} (o : outcome A) : M A := λ w, (o, w).

Definition gets {A} (f : World → A) : M A := λ w, (Ok (f w), w).
Definition modify (f : World → World) : M unit := λ w, (Ok tt, f w).

(** A call whose promise is dropped: it runs, and a rejection goes
    nowhere. *)
Definition unawaited {A} (m : M A) : M unit := λ w, (Ok tt, (m w).2).

Definition log (l : level) (msg : string) : M unit :=
  modify (λ w, set_logs (logs w ++ [(l, msg)]) w).

Definition spawn (t : Task) : M unit :=
  modify (λ w, set_pending (pending w ++ [t]) w).

(** ** Change notification (RealmDB.js, lines 186-206) *)

Definition on (f : Listener) : M unit :=
  modify (λ w, set_listeners (listeners w ++ [f]) w).

Definition off (f : Listener) : M unit :=
  modify (λ w, set_listeners (filter (λ l, lid l ≠ lid f) (listeners w)) w).

(** One call [cb(data)]: the call is delivered, and it returns or throws. *)
Definition invoke (data : Change) (l : Listener) : M unit := λ w,
  (cb l data, set_delivered (delivered w ++ [(lid l, data)]) w).

(** [arr.map(f)]: the calls in index order, their results collected; a
    throw ends the traversal. *)
Fixpoint Array_map {A B} (f : A → M B) (arr : list A) : M (list B) :=
  match arr with
  | [] => mret []
  | x :: rest => y ← f x; ys ← Array_map f rest; mret (y :: ys)
  end.

Definition _notifyChange (data : Change) : M unit :=
  log debug "notifyChange";;
  ls ← gets listeners;
  Array_map (invoke data) ls;;
  mret tt.

(** ** The local store *)

(** Modelled from the spec: the Local Store Adapter.  [../textile/ThreadDB]
    is not among the sources; sections 2, 4.8, 5 and 6 of the specification
    give its contract.  The table holds one row per primary key [_id].  A
    mutation first hands every row it is about to write to the hooks that
    [init] installs (lines 44-45), which call [_notifyChange]; these
    callbacks catch nothing, so that what a listener throws ends the
    mutation: it fails with nothing written.  Every operation fails when
    the store does not answer. *)
Module Local.

Definition unavailable : exn := Error "local store unavailable".

(** The [creating] and [updating] hooks (lines 44-45). *)
Definition hook (data : Change) : M unit := _notifyChange data.

(** What the hooks are told of a row: [creating] when the table holds no
    row of that key, [updating] otherwise. *)
Definition change (table : gmap string FeedItem.t) (row : string * FeedItem.t) :
    Change :=
  match table !! row.1 with
  | Some _ => updating row.1 row.2
  | None => creating row.1 row.2
  end.

(** The rows are announced in order, then written in order. *)
Definition bulkPut (rows : list (string * FeedItem.t)) : M unit :=
  table ← gets FeedTable;
  Array_map (λ row, hook (change table row)) rows;;
  modify (set_FeedTable (foldl (λ t row, <[row.1 := row.2]> t) table rows)).

Definition put (row : string * FeedItem.t) : M unit := bulkPut [row].

(** A row is stored under its [_id]; an object without one has no key. *)
Definition keyed (item : FeedItem.t) : option (string * FeedItem.t) :=
  k ← FeedItem._id item; Some (k, item).

(** [Feed.save(...items)]: all the rows, or none when one has no key. *)
Definition save (items : list FeedItem.t) : M unit := λ w,
  if db_ok w then
    match mapM keyed items with
    | Some rows => bulkPut rows w
    | None => (Throw (Error "missing primary key"), w)
    end
  else (Throw unavailable, w).

(** [Feed.findById(id)]. *)
Definition findById (id : string) : M (option FeedItem.t) := λ w,
  if db_ok w then (Ok (FeedTable w !! id), w) else (Throw unavailable, w).

(** [Feed.find({ sync: false }).toArray()]. *)
Definition find_sync_false : M (list FeedItem.t) := λ w,
  if db_ok w then
    (Ok (filter (λ i, FeedItem.sync i = Some false)
                (map_to_list (FeedTable w)).*2), w)
  else (Throw unavailable, w).

(** [FeedTable.update({ _id: key }, { $set: { sync: v } })]: the row with
    that key, if there is one. *)
Definition update_set_sync (key : option string) (v : bool) : M unit := λ w,
  if db_ok w then
    match key with
    | Some k =>
        match FeedTable w !! k with
        | Some row => put (k, FeedItem.set_sync (Some v) row) w
        | None => (Ok tt, w)
        end
    | None => (Ok tt, w)
    end
  else (Throw unavailable, w).

(** *** The query builder

    The source builds its pages on the Dexie table itself (comments of
    lines 120 and 343), and Dexie's collections are not among the sources
    either.  [FeedTable.orderBy('date')] walks the index on [date]:
    ascending by date, rows of one date by primary key.  The calls of the
    chain do not work on a list one after the other.  They build up a
    query, which [toArray] runs with one cursor over the walk: at each row
    the filter of [filter] is asked first, and for a row that passes it the
    steps that [offset] and [limit] left, in the order of their calls, the
    first refusal ending the questions for that row. *)

Definition code_units (s : string) : list N :=
  Ascii.N_of_ascii <$> String.list_ascii_of_string s.

Definition index_key (row : string * FeedItem.t) : Z * list N :=
  (FeedItem.date row.2, code_units row.1).

Definition index_le (r1 r2 : string * FeedItem.t) : Prop :=
  index_key r1 = index_key r2 ∨ lexico (index_key r1) (index_key r2).

#[global] Instance index_le_dec : RelDecision index_le.
Proof.
  intros r1 r2. unfold index_le.
  destruct (trichotomyT lexico (index_key r1) (index_key r2)) as [[Hlt|Heq]|Hgt].
  - left. by right.
  - left. by left.
  - right. intros [Heq|Hlt].
    + rewrite Heq in Hgt. by apply (irreflexivity lexico) in Hgt.
    + apply (irreflexivity lexico (index_key r1)). by etrans.
Defined.

(** The rows in the order of the index on [date]. *)
Definition by_date (table : gmap string FeedItem.t) : list FeedItem.t :=
  (merge_sort index_le (map_to_list table)).*2.

(** A step that is replayed at every row that reaches it, with what it
    still has to count. *)
Inductive Replay :=
  (** [offset] on a bare walk: the cursor jumps *)
  | skip_rows (left : nat)
  (** [offset] on a query that filters already: the rows are counted *)
  | skip_passing (left : nat)
  (** [limit] *)
  | stop_after (left : Z).

(** What a step tells the cursor to do after the row. *)
Inductive Advance :=
  | jump (count : nat)
  | resolve.

Record Collection := mkCollection {
  walk : gmap string FeedItem.t → list FeedItem.t;
  passes : FeedItem.t → bool;
  bare : bool;
  replay : list Replay
}.

Definition orderBy_date : Collection := mkCollection by_date (λ _, true) true [].

Definition reverse (c : Collection) : Collection :=
  mkCollection (λ table, rev (walk c table)) (passes c) (bare c) (replay c).

(** [offset(n)] does nothing for [n <= 0]. *)
Definition offset (n : Z) (c : Collection) : Collection :=
  if bool_decide (n ≤ 0) then c
  else
    mkCollection (walk c) (passes c) false
      (replay c ++ [if bare c then skip_rows (Z.to_nat n)
                    else skip_passing (Z.to_nat n)]).

Definition filter (p : FeedItem.t → bool) (c : Collection) : Collection :=
  mkCollection (walk c) (λ i, passes c i && p i) false (replay c).

Definition limit (n : Z) (c : Collection) : Collection :=
  mkCollection (walk c) (passes c) false (replay c ++ [stop_after n]).

(** One step at a row: whether the row goes on, what the step has left to
    count, and what it tells the cursor.  A jump of [n] rows is told at the
    first row and counts that row; a limit lets nothing through for
    [n <= 0]. *)
Definition replay_one (r : Replay) : bool * Replay * option Advance :=
  match r with
  | skip_rows O => (true, skip_rows 0, None)
  | skip_rows (S O) => (false, skip_rows 0, None)
  | skip_rows n => (false, skip_rows 0, Some (jump n))
  | skip_passing O => (true, skip_passing 0, None)
  | skip_passing (S n) => (false, skip_passing n, None)
  | stop_after n =>
      (bool_decide (0 ≤ n - 1), stop_after (n - 1),
       if bool_decide (n - 1 ≤ 0) then Some resolve else None)
  end.

(** The steps at a row, in the order of their calls; what the last one to
    speak tells the cursor stands. *)
Fixpoint replay_all (rs : list Replay) : bool * list Replay * option Advance :=
  match rs with
  | [] => (true, [], None)
  | r :: rest =>
      match replay_one r with
      | (true, r', adv) =>
          match replay_all rest with
          | (ok, rest', adv') =>
              (ok, r' :: rest', if adv' is Some a then Some a else adv)
          end
      | (false, r', adv) => (false, r' :: rest, adv)
      end
  end.

(** The cursor over the rows of the walk; [skipped] rows are still to be
    jumped over. *)
Fixpoint iter (keep : FeedItem.t → bool) (rs : list Replay) (skipped : nat)
    (rows : list FeedItem.t) : list FeedItem.t :=
  match rows with
  | [] => []
  | i :: rest =>
      match skipped with
      | S n => iter keep rs n rest
      | O =>
          if keep i then
            match replay_all rs with
            | (ok, rs', adv) =>
                (if ok then [i] else []) ++
                match adv with
                | Some resolve => []
                | Some (jump n) => iter keep rs' (pred n) rest
                | None => iter keep rs' 0 rest
                end
            end
          else iter keep rs 0 rest
      end
  end.

Definition toArray (c : Collection) : M (list FeedItem.t) := λ w,
  if db_ok w then (Ok (iter (passes c) (replay c) 0 (walk c (FeedTable w))), w)
  else (Throw unavailable, w).

End Local.

(** ** The remote store *)

(** Modelled from the spec: the Remote Document Client on the
    [encrypted_feed] collection (Realm is an external service; sections 2
    and 6 of the specification give its contract).  Documents are unique by
    [_id]; every call is recorded, and fails when the store does not
    answer. *)
Module Remote.

Definition unavailable : exn := Error "remote store unavailable".

Definition called (c : RemoteCall) : M unit :=
  modify (λ w, set_remote_calls (remote_calls w ++ [c]) w).

Definition answers : M unit := λ w,
  if remote_ok w then (Ok tt, w) else (Throw unavailable, w).

(** The query [{ user_id, date: { $gt: d } }]. *)
Definition matches (user_id : string) (date_gt : Z) (r : EncryptedRecord.t) : bool :=
  bool_decide (EncryptedRecord.user_id r = user_id) &&
  match EncryptedRecord.date r with
  | Some d => bool_decide (date_gt < d)
  | None => false
  end.

(** [encryptedFeed.find({ user_id, date: { $gt: new Date(d) } })]. *)
Definition find (user_id : string) (date_gt : Z) : M (list EncryptedRecord.t) :=
  called (call_find user_id date_gt);;
  answers;;
  docs ← gets encrypted_feed;
  mret (base.filter (λ r, matches user_id date_gt r = true) (map_to_list docs).*2).

(** [encryptedFeed.findOne({ _id })]. *)
Definition findOne (_id : string) : M (option EncryptedRecord.t) :=
  called (call_findOne _id);;
  answers;;
  docs ← gets encrypted_feed;
  mret (docs !! _id).

(** [encryptedFeed.updateOne({ _id, user_id }, doc, { upsert: true })]: the
    document matching the query is replaced; without a match [doc] is
    inserted, which fails if its [_id] is taken (by a document of another
    user). *)
Definition updateOne (_id user_id : string) (doc : EncryptedRecord.t) : M UpdateResult :=
  called (call_updateOne _id user_id doc);;
  answers;;
  docs ← gets encrypted_feed;
  match docs !! _id with
  | Some old =>
      if bool_decide (EncryptedRecord.user_id old = user_id) then
        modify (λ w, set_encrypted_feed (<[_id := doc]> docs) w);;
        mret {| matchedCount := 1; upsertedId := None |}
      else throw (Error "duplicate key")
  | None =>
      modify (λ w, set_encrypted_feed (<[_id := doc]> docs) w);;
      mret {| matchedCount := 0; upsertedId := Some _id |}
  end.

End Remote.

(** ** The methods of the class *)

Section RealmDB.
Context `{!Json FeedItem.t} `{!Json Settings} `{!Base64}.

(** Reading a property of an object passed by reference; on [undefined]
    it is a [TypeError]. *)
Definition deref (l : loc) : M FeedItem.t := λ w,
  match heap w !! l with
  | Some o => (Ok o, w)
  | None => (Throw (Error "TypeError: cannot read properties of undefined"), w)
  end.

Definition assign (l : loc) (o : FeedItem.t) : M unit :=
  modify (λ w, set_heap (<[l := o]> (heap w)) w).

(** [Buffer.from(s, 'base64')]; a [TypeError] when [s] is [undefined]. *)
Definition Buffer_from_base64 (s : option string) : M bytes :=
  match s with
  | Some s => mret (from_base64 s)
  | None => throw (Error "TypeError: the first argument must be a string")
  end.

(** Lines 296-317. *)
Definition _encrypt (feedItem : FeedItem.t) : M (option UpdateResult) :=
  try_catch
    (let msg := TextEncoder_encode (JSON_stringify feedItem) in
     key ← gets privateKey;
     encrypted ← (c ← settle (public_encrypt key msg); mret (to_base64 c));
     let txHash := FeedItem.id feedItem in
     user_id ← gets user;
     let _id := interpolate txHash +:+ "_" +:+ user_id in
     res ← Remote.updateOne _id user_id
             (EncryptedRecord.mk _id user_id txHash (Some encrypted)
                                 (Some (FeedItem.date feedItem)));
     log debug "_encrypt result:";;
     mret (Some res))
    (λ e, log error "error _encrypt feedItem:";; mret None).

(** Lines 324-332. *)
Definition _decrypt (item : EncryptedRecord.t) : M (option FeedItem.t) :=
  try_catch
    (key ← gets privateKey;
     ciphertext ← Buffer_from_base64 (EncryptedRecord.encrypted item);
     decrypted ← settle (decrypt key ciphertext);
     parsed ← settle (JSON_parse (TextDecoder_decode decrypted));
     mret (Some parsed))
    (λ e, log warn "failed _decrypt";; mret None).

(** Line 131: the candidates that are mirrors of feed items. *)
Definition is_feed_mirror (r : EncryptedRecord.t) : bool :=
  negb (String_includes "settings" (EncryptedRecord._id r)) &&
  truthy (EncryptedRecord.txHash r).

(** Lines 148-152, the callback of [failedSync.forEach]. *)
Definition retry_push (item : FeedItem.t) : M unit :=
  _encrypt item;;
  unawaited (Local.update_set_sync (FeedItem.id item) true).

(** Lines 118-156.  The callbacks of [forEach] are [async] and nothing
    awaits them: each is left pending. *)
Definition _syncFromRemote : M unit :=
  lastSync ← (r ← Local.toArray (Local.limit 1 (Local.reverse Local.orderBy_date));
              mret (match r with i :: _ => FeedItem.date i | [] => 0 end));
  user_id ← gets user;
  newItems ← Remote.find user_id lastSync;
  let filtered := filter (λ r, is_feed_mirror r = true) newItems in
  log debug "_syncFromRemote";;
  (if bool_decide (length filtered ≠ 0%nat) then
     decrypted ← (rs ← Array_map _decrypt filtered; mret (omap id rs));
     log debug "_syncFromRemote";;
     Local.save decrypted
   else mret tt);;
  failedSync ← Local.find_sync_false;
  (if bool_decide (length failedSync ≠ 0%nat) then
     log debug "_syncFromRemote: saving failed items";;
     Array_map (λ item, spawn (push_from_sync item)) failedSync;;
     mret tt
   else mret tt);;
  log info "_syncfromremote done".

(** Lines 222-226: [this._encrypt(feedItem).catch(e => ...)]. *)
Definition background_push (feedItem : loc) : M unit :=
  item ← deref feedItem;
  try_catch
    (_encrypt item;; mret tt)
    (λ e, log error "failed saving feedItem to remote";;
          item ← deref feedItem;
          unawaited (Local.update_set_sync (FeedItem.id item) false)).

(** Lines 212-229.  [feedItem] is the caller's object. *)
Definition write (feedItem : loc) : M unit :=
  item ← deref feedItem;
  if negb (truthy (FeedItem.id item)) then
    log warn "Feed item missing _id";;
    throw (Error "feed item missing id")
  else
    assign feedItem (FeedItem.set__id (FeedItem.id item) item);;
    item ← deref feedItem;
    Local.save [item];;
    spawn (push_from_write feedItem).

(** Lines 237-239. *)
Definition read (id : string) : M (option FeedItem.t) := Local.findById id.

(** Lines 256-268. *)
Definition encryptSettings (settings : Settings) : M UpdateResult :=
  let msg := TextEncoder_encode (JSON_stringify settings) in
  key ← gets privateKey;
  encrypted ← (c ← settle (public_encrypt key msg); mret (to_base64 c));
  user_id ← gets user;
  let _id := user_id +:+ "_settings" in
  log debug "encryptSettings:";;
  Remote.updateOne _id user_id
    (EncryptedRecord.mk _id user_id None (Some encrypted) None).

(** Lines 274-289. *)
Definition decryptSettings : M Settings :=
  user_id ← gets user;
  let _id := user_id +:+ "_settings" in
  encryptedSettings ← Remote.findOne _id;
  let encrypted := r ← encryptedSettings; EncryptedRecord.encrypted r in
  if truthy encrypted then
    key ← gets privateKey;
    ciphertext ← Buffer_from_base64 encrypted;
    decrypted ← settle (decrypt key ciphertext);
    settings ← settle (JSON_parse (TextDecoder_decode decrypted));
    log debug "decryptSettings:";;
    mret settings
  else mret ∅.

(** Line 347-349: the rows a feed page shows. *)
Definition shown (i : FeedItem.t) : bool :=
  bool_decide (Array_includes ["deleted"; "cancelled"; "canceled"]
                 (FeedItem.status i) = false) &&
  bool_decide (Array_includes ["deleted"; "cancelled"; "canceled"]
                 (FeedItem.otplStatus i) = false).

(** Lines 341-360. *)
Definition getFeedPage (numResults offset : Z) : M (list FeedItem.t) :=
  try_catch
    (res ← Local.toArray
             (Local.limit numResults
               (Local.filter shown
                 (Local.offset offset
                   (Local.reverse Local.orderBy_date))));
     log debug "getFeedPage result:";;
     mret res)
    (λ e, log warn "getFeedPage failed:";; mret []).

(** ** The event loop *)

Definition run (t : Task) : M unit :=
  match t with
  | push_from_write feedItem => background_push feedItem
  | push_from_sync item => retry_push item
  end.

(** One turn: the oldest pending promise runs to its end; a rejection that
    nothing handles is dropped. *)
Definition turn (w : World) : World :=
  match pending w with
  | [] => w
  | t :: rest => (run t (set_pending rest w)).2
  end.

Fixpoint turns (n : nat) (w : World) : World :=
  match n with
  | O => w
  | S n' => turns n' (turn w)
  end.

(** Run until nothing is pending (no task leaves another pending). *)
Definition drain (w : World) : World := turns (length (pending w)) w.

End RealmDB.

(** ** Frames *)

(** [m] leaves the component [f] of the world as it found it. *)
Definition preserves {X A} (f : World → X) (m : M A) : Prop :=
  ∀ w, f (m w).2 = f w.

(** Components of the world that a part of it does not bear on: the log;
    the log and the record of deliveries; these and the Feed table; the
    remote collection and the record of calls on it. *)
Definition ignores_logs {X} (f : World → X) : Prop :=
  ∀ v w, f (set_logs v w) = f w.

Definition ignores_noise {X} (f : World → X) : Prop :=
  ignores_logs f ∧ (∀ v w, f (set_delivered v w) = f w).

Definition ignores_table {X} (f : World → X) : Prop :=
  ignores_noise f ∧ ∀ v w, f (set_FeedTable v w) = f w.

Definition ignores_remote {X} (f : World → X) : Prop :=
  (∀ v w, f (set_remote_calls v w) = f w) ∧
  (∀ v w, f (set_encrypted_feed v w) = f w).

(** ** What the claims speak of *)

(** The listeners a notification reaches: those registered, in order, up to
    and including the first one that throws. *)
Fixpoint reached (data : Change) (ls : list Listener) : list Listener :=
  match ls with
  | [] => []
  | l :: rest =>
      match cb l data with
      | Ok _ => l :: reached data rest
      | Throw _ => [l]
      end
  end.

(** How a notification ends: with what the first throwing listener threw. *)
Fixpoint notified (data : Change) (ls : list Listener) : outcome unit :=
  match ls with
  | [] => Ok tt
  | l :: rest =>
      match cb l data with
      | Ok _ => notified data rest
      | Throw e => Throw e
      end
  end.

(** Listeners that return whatever they are told. *)
Definition quiet (ls : list Listener) : Prop :=
  Forall (λ l, ∀ data, cb l data = Ok tt) ls.

(** How the announcement of the rows of a mutation ends: with what the
    first listener to throw threw. *)
Fixpoint announced (table : gmap string FeedItem.t) (ls : list Listener)
    (rows : list (string * FeedItem.t)) : outcome unit :=
  match rows with
  | [] => Ok tt
  | row :: rest =>
      match notified (Local.change table row) ls with
      | Ok _ => announced table ls rest
      | Throw e => Throw e
      end
  end.

(** What [update] on a key leaves in the table, when it goes through. *)
Definition flagged (key : option string) (v : bool)
    (table : gmap string FeedItem.t) : gmap string FeedItem.t :=
  match key with
  | Some k =>
      match table !! k with
      | Some row => <[k := FeedItem.set_sync (Some v) row]> table
      | None => table
      end
  | None => table
  end.

(** The statuses a feed page leaves out. *)
Definition excluded : list string := ["deleted"; "cancelled"; "canceled"].

(** The rows from the first one that satisfies [p] on. *)
Fixpoint from_first {A} (p : A → bool) (l : list A) : list A :=
  match l with
  | [] => []
  | x :: rest => if p x then l else from_first p rest
  end.

(** The page as the code computes it: the rows by date, newest first, from
    the first row that is not excluded on; of these skip [offset] rows,
    excluded or not; leave out the excluded ones; keep the first
    [numResults]. *)
Definition page (numResults offset : Z) (table : gmap string FeedItem.t) :
    list FeedItem.t :=
  take (Z.to_nat numResults)
    (filter (λ i, shown i = true)
      (drop (Z.to_nat offset) (from_first shown (rev (Local.by_date table))))).

(** The page as C7 words it: leave out the excluded rows first, then skip
    [offset], then keep [numResults]. *)
Definition page_excluding_first (numResults offset : Z)
    (table : gmap string FeedItem.t) : list FeedItem.t :=
  take (Z.to_nat numResults)
    (drop (Z.to_nat offset)
      (filter (λ i, shown i = true) (rev (Local.by_date table)))).

(** What [updateOne] answers and what it leaves in the collection. *)
Definition upsert (_id user_id : string) (doc : EncryptedRecord.t)
    (up : bool) (docs : gmap string EncryptedRecord.t) :
    outcome UpdateResult * gmap string EncryptedRecord.t :=
  if up then
    match docs !! _id with
    | Some old =>
        if bool_decide (EncryptedRecord.user_id old = user_id)
        then (Ok {| matchedCount := 1; upsertedId := None |}, <[_id := doc]> docs)
        else (Throw (Error "duplicate key"), docs)
    | None => (Ok {| matchedCount := 0; upsertedId := Some _id |}, <[_id := doc]> docs)
    end
  else (Throw Remote.unavailable, docs).

(** What line 120-124 computes: the date of the first row of the feed taken
    newest first, and 0 when there is none. *)
Definition lastSync_of (table : gmap string FeedItem.t) : Z :=
  match take 1 (rev (Local.by_date table)) with
  | i :: _ => FeedItem.date i
  | [] => 0
  end.

(** What a pass merges into the table: the rows in order, a later row of a
    key over an earlier one. *)
Definition merge_rows (table : gmap string FeedItem.t)
    (rows : list (string * FeedItem.t)) : gmap string FeedItem.t :=
  foldl (λ t row, <[row.1 := row.2]> t) table rows.

Section Candidates.
Context `{!Json FeedItem.t} `{!Base64}.

(** What decrypting a remote document gives, when it gives anything. *)
Definition plain (key : PrivateKey) (r : EncryptedRecord.t) : option FeedItem.t :=
  match EncryptedRecord.encrypted r with
  | Some s =>
      match decrypt key (from_base64 s) with
      | Ok b =>
          match JSON_parse (TextDecoder_decode b) with
          | Ok i => Some i
          | Throw _ => None
          end
      | Throw _ => None
      end
  | None => None
  end.

(** The candidates of a pass: what the query for the documents of the user
    above the watermark answers. *)
Definition newItems_of (w : World) : list EncryptedRecord.t :=
  filter (λ r, Remote.matches (user w) (lastSync_of (FeedTable w)) r = true)
         (map_to_list (encrypted_feed w)).*2.

(** The items of a pass: the candidates that are mirrors of feed items and
    that decrypt. *)
Definition merged_of (w : World) : list FeedItem.t :=
  omap (plain (privateKey w))
       (filter (λ r, is_feed_mirror r = true) (newItems_of w)).

End Candidates.

(** The key pair decrypts what it encrypted, and a ciphertext is never
    empty. *)
Definition key_round_trips (key : PrivateKey) : Prop :=
  ∀ m c, public_encrypt key m = Ok c → c ≠ [] ∧ decrypt key c = Ok m.

(** The text encoding of bytes decodes to the same bytes, and only no bytes
    encode to the empty text. *)
Definition base64_round_trips `{!Base64} : Prop :=
  ∀ b, from_base64 (to_base64 b) = b ∧ (to_base64 b = "" → b = []).

(** A value that parses back from its serialisation. *)
Definition serializable `{!Json A} (x : A) : Prop :=
  JSON_parse (JSON_stringify x) = Ok x.

(** ** A platform to run the methods on

    Stand-ins for the runtime: a serialisation that parses back what it
    prints, a text encoding of bytes, and two key pairs, one that works and
    one whose encryption always fails. *)
Module Sample.

#[global] Instance FeedItem_countable : Countable FeedItem.t.
Proof.
  refine (inj_countable'
    (λ i, (FeedItem.id i, FeedItem._id i, FeedItem.date i, FeedItem.status i,
           FeedItem.otplStatus i, FeedItem.sync i, FeedItem.data i))
    (λ '(a, b, c, d, e, f, g), FeedItem.mk a b c d e f g) _).
  by intros [].
Defined.

Fixpoint print (p : positive) : string :=
  match p with
  | xH => ""
  | xO q => String "0"%char (print q)
  | xI q => String "1"%char (print q)
  end.

Fixpoint scan (s : string) : option positive :=
  match s with
  | EmptyString => Some xH
  | String c rest =>
      q ← scan rest;
      if bool_decide (c = "0"%char) then Some (xO q)
      else if bool_decide (c = "1"%char) then Some (xI q)
      else None
  end.

Definition json (A : Type) `{Countable A} : Json A := {|
  JSON_stringify x := print (encode x);
  JSON_parse s :=
    match scan s ≫= decode with
    | Some x => Ok x
    | None => Throw (Error "SyntaxError")
    end
|}.

#[global] Instance FeedItem_json : Json FeedItem.t := json FeedItem.t.
#[global] Instance Settings_json : Json Settings := json Settings.

#[global] Instance base64 : Base64 := {|
  to_base64 b := String.string_of_list_byte b;
  from_base64 s := String.list_byte_of_string s
|}.

Definition key : PrivateKey := {|
  public_encrypt m := Ok (Byte.x01 :: m);
  decrypt c :=
    match c with
    | Byte.x01 :: m => Ok m
    | _ => Throw (Error "decryption failed")
    end
|}.

Definition broken_key : PrivateKey := {|
  public_encrypt m := Throw (Error "encryption failed");
  decrypt c := Throw (Error "decryption failed")
|}.

(** A fresh instance of user [u1] after [init]. *)
Definition world : World := {|
  privateKey := key;
  user := "u1";
  listeners := [];
  FeedTable := ∅;
  db_ok := true;
  encrypted_feed := ∅;
  remote_ok := true;
  heap := ∅;
  logs := [];
  delivered := [];
  remote_calls := [];
  pending := []
|}.

Definition item (id : string) (date : Z) : FeedItem.t :=
  FeedItem.mk (Some id) None date None None None "".

(** An object without an [id]. *)
Definition nameless : FeedItem.t :=
  FeedItem.mk None None 5 None None None "".

(** The fresh instance, and a caller that holds the object [o] at
    reference [0]. *)
Definition holding (o : FeedItem.t) : World :=
  set_heap {[ 0%nat := o ]} world.

(** A row whose push failed earlier: flagged [sync = false]. *)
Definition unsynced_a : FeedItem.t :=
  FeedItem.mk (Some "a") (Some "a") 5 None None (Some false) "".
Definition with_unsynced : World :=
  set_FeedTable (<["a" := unsynced_a]> ∅) world.

(** What a first device leaves in the remote store after writing three
    items, one of them with [settings] in its id, and its settings; next to
    it a document that does not decrypt and a document without [txHash];
    and a second device of the same user, its local store still empty, in
    front of that remote store. *)
Definition first_device : World :=
  drain
    (encryptSettings {["theme" := "dark"]}
       (write 2%nat (write 1%nat (write 0%nat
          (set_heap {[ 0%nat := item "a" 5; 1%nat := item "b" 6;
                       2%nat := item "my_settings" 9 ]} world)).2).2).2).2.
Definition corrupt : EncryptedRecord.t :=
  EncryptedRecord.mk "x_u1" "u1" (Some "x") (Some "garbage") (Some 7).
Definition without_txHash : EncryptedRecord.t :=
  EncryptedRecord.mk "y_u1" "u1" None (Some "garbage") (Some 8).
Definition second_device : World :=
  set_encrypted_feed
    (<["x_u1" := corrupt]>
       (<["y_u1" := without_txHash]> (encrypted_feed first_device)))
    world.

(** A feed of two rows: the newer one deleted, the older one live. *)
Definition deleted_a : FeedItem.t :=
  FeedItem.mk (Some "a") (Some "a") 2 (Some "deleted") None None "".
Definition live_b : FeedItem.t :=
  FeedItem.mk (Some "b") (Some "b") 1 None None None "".
Definition with_feed : World :=
  set_FeedTable (<["a" := deleted_a]> (<["b" := live_b]> ∅)) world.

(** A feed of three rows, the one in the middle deleted. *)
Definition live_c : FeedItem.t :=
  FeedItem.mk (Some "c") (Some "c") 3 None None None "".
Definition with_gap : World :=
  set_FeedTable (<["c" := live_c]> (<["a" := deleted_a]> (<["b" := live_b]> ∅)))
                world.

(** Two callbacks: one returns, one throws. *)
Definition quiet (n : nat) : Listener :=
  {| lid := n; cb := λ _, Ok tt |}.
Definition faulty (n : nat) : Listener :=
  {| lid := n; cb := λ _, Throw (Error "listener failed") |}.

(** A faulty listener registered first, a quiet one second. *)
Definition watched : World := (on (quiet 1) (on (faulty 0) world).2).2.

End Sample.

(** * More of the class *)

(** ** Account deletion (lines 421-423) *)

(** Modelled from the spec: [this.db.delete()] of the Local Store Adapter,
    which drops the whole local scope ([../textile/ThreadDB] is not among
    the sources). *)
Definition Local_delete : M unit := λ w,
  if db_ok w then (Ok tt, set_FeedTable ∅ w) else (Throw Local.unavailable, w).

(** Modelled from the spec: [encryptedFeed.deleteMany({ user_id })] of the
    Remote Document Client; it answers how many documents it deleted.
    (The record of calls has no entry for it.) *)
Definition Remote_deleteMany (user_id : string) : M nat :=
  Remote.answers;;
  docs ← gets encrypted_feed;
  modify (λ w, set_encrypted_feed
                 (filter (λ kr, EncryptedRecord.user_id kr.2 ≠ user_id) docs) w);;
  mret (size (filter (λ kr, EncryptedRecord.user_id kr.2 = user_id) docs)).

(** [Promise.all([p, q])] over two calls that were both made: both run, and
    it rejects when one of them does (with what [p] threw when both do; in
    JavaScript with what was thrown first). *)
Definition Promise_all2 {A B} (p : M A) (q : M B) : M (A * B) := λ w,
  match p w with
  | (a, w1) =>
      match q w1 with
      | (b, w2) =>
          (match a, b with
           | Ok x, Ok y => Ok (x, y)
           | Throw e, _ => Throw e
           | Ok _, Throw e => Throw e
           end, w2)
      end
  end.

(** Lines 421-423. *)
Definition deleteAccount : M (unit * nat) :=
  Promise_all2 Local_delete (user_id ← gets user; Remote_deleteMany user_id).

(** Every row of the Feed table is stored under its own [_id]. *)
Definition well_keyed (table : gmap string FeedItem.t) : Prop :=
  ∀ k i, table !! k = Some i → FeedItem._id i = Some k.

(** The mirror of a feed item as [_encrypt] builds it from the item, the
    user and the ciphertext (lines 300-307). *)
Definition mirror_key (feedItem : FeedItem.t) (user_id : string) : string :=
  interpolate (FeedItem.id feedItem) +:+ "_" +:+ user_id.

Definition mirror (feedItem : FeedItem.t) (user_id : string) (c : bytes)
    `{!Base64} : EncryptedRecord.t :=
  EncryptedRecord.mk (mirror_key feedItem user_id) user_id
    (FeedItem.id feedItem) (Some (to_base64 c)) (Some (FeedItem.date feedItem)).


(** [m] keeps the property [P] of the world. *)
Definition keeps {A} (P : World → Prop) (m : M A) : Prop :=
  ∀ w, P w → P (m w).2.

(** What [_encrypt] hands to the key pair: the serialised item as bytes. *)
Definition message `{!Json FeedItem.t} (feedItem : FeedItem.t) : bytes :=
  TextEncoder_encode (JSON_stringify feedItem).

(** Every row flagged [sync = false] has a retry pending for its key. *)
Definition awaits_retry (tasks : list Task) (table : gmap string FeedItem.t) : Prop :=
  ∀ k i, table !! k = Some i → FeedItem.sync i = Some false →
         ∃ item, push_from_sync item ∈ tasks ∧ FeedItem.id item = Some k.

(** ** Initialisation (lines 27-94) *)

(** The instance as the constructor and [init] see it, before the stores
    are there; and what [init] finds around it. *)
Module Init.

(** The promise [ready] of the constructor (lines 28-31). *)
Inductive Gate :=
  | pending
  | resolved
  | rejected (e : exn).

(** The calls [init] makes on what surrounds it. *)
Inductive Call :=
  | ThreadDB_open
  | AsyncStorage_getItem (key : string)
  | app_logIn (jwt : option string).

Record t := mk {
  privateKey : option PrivateKey;
  db : option (gmap string FeedItem.t);
  hooks : list string;
  user : option string;
  database : option string;
  ready : Gate;
  isReady : bool;
  logs : list (level * string);
  calls : list Call;
  (** the calls of [_syncFromRemote] that were made and not awaited *)
  passes : nat
}.

(** What [init] finds: whether the local store opens, and on which table;
    the token under the key [JWT]; whether the remote store takes it, and
    for which user ([new Realm.App] and [app.logIn]); the environment of
    the build. *)
Record Environment := {
  open : PrivateKey → outcome (gmap string FeedItem.t);
  getItem_JWT : outcome (option string);
  logIn : option string → outcome string;
  Config_env : string
}.

(** Lines 27-32 and the field initialisers 19-25. *)
Definition constructor : t :=
  mk None None [] None None pending false [] [] 0.

Definition with_privateKey (v : option PrivateKey) (s : t) : t :=
  mk v (db s) (hooks s) (user s) (database s) (ready s) (isReady s) (logs s)
     (calls s) (passes s).
Definition with_db (v : option (gmap string FeedItem.t)) (s : t) : t :=
  mk (privateKey s) v (hooks s) (user s) (database s) (ready s) (isReady s) (logs s)
     (calls s) (passes s).
Definition with_hooks (v : list string) (s : t) : t :=
  mk (privateKey s) (db s) v (user s) (database s) (ready s) (isReady s) (logs s)
     (calls s) (passes s).
Definition with_user (v : option string) (s : t) : t :=
  mk (privateKey s) (db s) (hooks s) v (database s) (ready s) (isReady s) (logs s)
     (calls s) (passes s).
Definition with_database (v : option string) (s : t) : t :=
  mk (privateKey s) (db s) (hooks s) (user s) v (ready s) (isReady s) (logs s)
     (calls s) (passes s).
Definition with_ready (v : Gate) (s : t) : t :=
  mk (privateKey s) (db s) (hooks s) (user s) (database s) v (isReady s) (logs s)
     (calls s) (passes s).
Definition with_isReady (v : bool) (s : t) : t :=
  mk (privateKey s) (db s) (hooks s) (user s) (database s) (ready s) v (logs s)
     (calls s) (passes s).
Definition with_logs (v : list (level * string)) (s : t) : t :=
  mk (privateKey s) (db s) (hooks s) (user s) (database s) (ready s) (isReady s) v
     (calls s) (passes s).
Definition with_calls (v : list Call) (s : t) : t :=
  mk (privateKey s) (db s) (hooks s) (user s) (database s) (ready s) (isReady s)
     (logs s) v (passes s).
Definition with_passes (v : nat) (s : t) : t :=
  mk (privateKey s) (db s) (hooks s) (user s) (database s) (ready s) (isReady s)
     (logs s) (calls s) v.

Definition I (A : Type) : Type := t → outcome A * t.

#[global] Instance I_ret : MRet I := λ A x s, (Ok x, s).

#[global] Instance I_bind : MBind I := λ A B k m s,
  match m s with
  | (Ok x, s') => k x s'
  | (Throw e, s') => (Throw e, s')
  end.

Definition throw {A} (e : exn) : I A := λ s, (Throw e, s).

Definition try_catch {A} (body : I A) (handler : exn → I A) : I A := λ s,
  match body s with
  | (Ok x, s') => (Ok x, s')
  | (Throw e, s') => handler e s'
  end.

Definition modify (f : t → t) : I unit := λ s, (Ok tt, f s).

Definition log (l : level) (msg : string) : I unit :=
  modify (λ s, with_logs (logs s ++ [(l, msg)]) s).

(** A call on the surroundings: recorded, then settled. *)
Definition call {A} (c : Call) (r : outcome A) : I A := λ s,
  (r, with_calls (calls s ++ [c]) s).

(** [this.resolve()] and [this.reject(e)]: a promise settles once. *)
Definition resolve : I unit :=
  modify (λ s, with_ready (match ready s with pending => resolved | g => g end) s).

Definition reject (e : exn) : I unit :=
  modify (λ s, with_ready (match ready s with pending => rejected e | g => g end) s).

(** Lines 56-66. *)
Definition _databaseName (env : string) : string :=
  if bool_decide (env = "production") then "wallet_prod"
  else if bool_decide (env = "staging") then "wallet_qa"
  else "wallet".

(** Lines 72-94.  [Realm.Credentials.jwt] only wraps the token.  Line 88
    calls [_syncFromRemote] and awaits nothing. *)
Definition _initRealmDB (E : Environment) : I string :=
  jwt ← call (AsyncStorage_getItem "JWT") (getItem_JWT E);
  log debug "initRealmDB";;
  try_catch
    (u ← call (app_logIn jwt) (logIn E jwt);
     modify (with_user (Some u));;
     modify (with_database (Some (_databaseName (Config_env E))));;
     log debug "realm logged in";;
     modify (λ s, with_passes (S (passes s)) s);;
     mret u)
    (λ err, log error "Failed to log in";; throw err).

(** Lines 39-54. *)
Definition init (E : Environment) (key : PrivateKey) : I unit :=
  try_catch
    (modify (with_privateKey (Some key));;
     table ← call ThreadDB_open (open E key);
     modify (with_db (Some table));;
     modify (λ s, with_hooks (hooks s ++ ["updating"; "creating"]) s);;
     _initRealmDB E;;
     resolve;;
     modify (with_isReady true))
    (λ e, log error "failed initializing";; reject e).

End Init.

(** ** The profile of the user (lines 363-432) *)

Module Profiles.

(** A profile document: its fields, [user_id] among them. *)
Abbreviation Profile := (gmap string string).

(** The remote side as the profile methods see it: the user that logged
    in, and the [user_profiles] collection in insertion order. *)
Record Store := mk {
  user : string;
  user_profiles : list Profile;
  remote_ok : bool
}.

Definition P (A : Type) : Type := Store → outcome A * Store.

(** An equality query: every field of the query has its value in the
    document. *)
Definition satisfies (query doc : Profile) : bool := bool_decide (query ⊆ doc).

Inductive Update :=
  | set (fields : Profile)
  | unset (field : string).

Definition apply (u : Update) (doc : Profile) : Profile :=
  match u with
  | set fields => fields ∪ doc
  | unset field => delete field doc
  end.

Fixpoint first (query : Profile) (docs : list Profile) : option Profile :=
  match docs with
  | [] => None
  | d :: rest => if satisfies query d then Some d else first query rest
  end.

Fixpoint update_first (query : Profile) (f : Profile → Profile)
    (docs : list Profile) : option (list Profile) :=
  match docs with
  | [] => None
  | d :: rest =>
      if satisfies query d then Some (f d :: rest)
      else (d ::.) <$> update_first query f rest
  end.

Fixpoint delete_first (query : Profile) (docs : list Profile) :
    option (list Profile) :=
  match docs with
  | [] => None
  | d :: rest =>
      if satisfies query d then Some rest
      else (d ::.) <$> delete_first query rest
  end.

Record UpdateResult := { matchedCount : Z; upserted : bool }.

(** Modelled from the spec: the Remote Document Client on the
    [user_profiles] collection, for equality queries.  [findOne] answers
    the first document that satisfies the query, [updateOne] changes that
    one, and with [upsert] and no such document inserts the query's fields
    with the change applied; [deleteOne] removes that one.  Every call
    fails when the store does not answer. *)
Definition answering {A} (f : list Profile → A * list Profile) : P A := λ s,
  if remote_ok s then
    let '(a, docs) := f (user_profiles s) in (Ok a, mk (user s) docs (remote_ok s))
  else (Throw Remote.unavailable, s).

Definition findOne (query : Profile) : P (option Profile) :=
  answering (λ docs, (first query docs, docs)).

Definition find (query : Profile) : P (list Profile) :=
  answering (λ docs, (filter (λ d, satisfies query d = true) docs, docs)).

Definition updateOne (query : Profile) (u : Update) (upsert : bool) : P UpdateResult :=
  answering (λ docs,
    match update_first query (apply u) docs with
    | Some docs' => ({| matchedCount := 1; upserted := false |}, docs')
    | None =>
        if upsert
        then ({| matchedCount := 0; upserted := true |}, docs ++ [apply u query])
        else ({| matchedCount := 0; upserted := false |}, docs)
    end).

Definition deleteOne (query : Profile) : P Z :=
  answering (λ docs,
    match delete_first query docs with
    | Some docs' => (1, docs')
    | None => (0, docs)
    end).

(** Lines 363-369.  In [{ user_id: this.user.id, ...profile }] a [user_id]
    of [profile] comes last and stays. *)
Definition setProfile (profile : Profile) : P UpdateResult := λ s,
  updateOne {["user_id" := user s]}
            (set (profile ∪ {["user_id" := user s]})) true s.

(** Lines 376-378. *)
Definition getProfile : P (option Profile) := λ s,
  findOne {["user_id" := user s]} s.

(** Lines 387-389. *)
Definition getProfileBy (query : Profile) : P (option Profile) := findOne query.

(** Lines 392-394. *)
Definition getProfilesBy (query : Profile) : P (list Profile) := find query.

(** Lines 402-404. *)
Definition setProfileFields (fields : Profile) : P UpdateResult := setProfile fields.

(** Lines 412-414. *)
Definition removeField (field : string) : P UpdateResult := λ s,
  updateOne {["user_id" := user s]} (unset field) false s.

(** Lines 430-432. *)
Definition deleteProfile : P Z := λ s,
  deleteOne {["user_id" := user s]} s.

(** The documents of a user, in the order of the collection. *)
Definition owned (u : string) (docs : list Profile) : list Profile :=
  filter (λ d, d !! "user_id" = Some u) docs.

End Profiles.

(** ** More samples *)
Module Sample2.

(** A feed of two rows, both live. *)
Definition live_feed : World :=
  set_FeedTable (<["b" := Sample.live_b]>
                   (<["c" := FeedItem.mk (Some "c") (Some "c") 3 None None None ""]> ∅))
                Sample.world.


(** A device that wrote [a] and pushed it, and another device of the same
    user before the remote collection the first one left. *)
Definition writer : World :=
  drain (write 0%nat (Sample.holding (Sample.item "a" 5))).2.
Definition reader : World :=
  set_encrypted_feed (encrypted_feed writer) Sample.world.

(** The profiles of two users, seen by the second one. *)
Definition profiles : Profiles.Store :=
  Profiles.mk "u1"
    [ {["user_id" := "u2"; "name" := "bob"]};
      {["user_id" := "u1"; "name" := "ann"; "email" := "ann@example.org"]} ]
    true.
End Sample2.

(** * Properties *)

(** ** Running a computation *)

Lemma bind_run {A B} (m : M A) (k : A → M B) w :
  (m ≫= k) w =
  match m w with
  | (Ok a, w') => k a w'
  | (Throw e, w') => (Throw e, w')
  end.
Proof. reflexivity. Qed.

(** Unfolds the plumbing of the monad. *)
Ltac exec :=
  cbv [mbind M_bind mret M_ret settle throw gets modify try_catch unawaited
       log spawn];
  simpl.

(** ** Frame rules *)

Section Preserves.
Context {X : Type} (f : World → X).

Lemma preserves_ret {A} (a : A) : preserves f (mret a).
Proof. by intros w. Qed.

Lemma preserves_throw {A} e : preserves f (@throw A e).
Proof. by intros w. Qed.

Lemma preserves_settle {A} (o : outcome A) : preserves f (settle o).
Proof. by intros w. Qed.

Lemma preserves_gets {A} (g : World → A) : preserves f (gets g).
Proof. by intros w. Qed.

Lemma preserves_modify g : (∀ w, f (g w) = f w) → preserves f (modify g).
Proof. intros Hg w. apply Hg. Qed.

Lemma preserves_bind {A B} (m : M A) (k : A → M B) :
  preserves f m → (∀ a, preserves f (k a)) → preserves f (m ≫= k).
Proof.
  intros Hm Hk w. rewrite bind_run. specialize (Hm w).
  destruct (m w) as [[a|e] w']; simpl in *; [|done].
  by rewrite Hk.
Qed.

Lemma preserves_try_catch {A} (body : M A) handler :
  preserves f body → (∀ e, preserves f (handler e)) →
  preserves f (try_catch body handler).
Proof.
  intros Hb Hh w. unfold try_catch. specialize (Hb w).
  destruct (body w) as [[a|e] w']; simpl in *; [done|].
  by rewrite Hh.
Qed.

Lemma preserves_unawaited {A} (m : M A) :
  preserves f m → preserves f (unawaited m).
Proof. intros Hm w. apply Hm. Qed.

Lemma preserves_Array_map {A B} (g : A → M B) arr :
  (∀ x, preserves f (g x)) → preserves f (Array_map g arr).
Proof.
  intros Hg. induction arr as [|x arr IH]; simpl.
  - apply preserves_ret.
  - apply preserves_bind; [apply Hg|]. intros y.
    apply preserves_bind; [apply IH|]. intros ys. apply preserves_ret.
Qed.
End Preserves.

(** Splits a frame goal along the structure of the computation; what is
    left are calls of named operations. *)
Ltac frame_step :=
  match goal with
  | |- preserves _ (mret _) => apply preserves_ret
  | |- preserves _ (throw _) => apply preserves_throw
  | |- preserves _ (settle _) => apply preserves_settle
  | |- preserves _ (gets _) => apply preserves_gets
  | |- preserves _ (log _ _) => apply preserves_modify; reflexivity
  | |- preserves _ (spawn _) => apply preserves_modify; reflexivity
  | |- preserves _ (modify _) => apply preserves_modify; reflexivity
  | |- preserves _ (mbind _ _) => apply preserves_bind; [|intros ?]
  | |- preserves _ (try_catch _ _) => apply preserves_try_catch; [|intros ?]
  | |- preserves _ (unawaited _) => apply preserves_unawaited
  | |- preserves _ (Array_map _ _) => apply preserves_Array_map; intros ?
  | |- preserves _ (if ?b then _ else _) => destruct b
  | |- preserves _ (match ?x with _ => _ end) => destruct x
  end.

Ltac frame := repeat frame_step; eauto with frame.

Create HintDb frame.

(** ** Change notification *)

Lemma invoke_all data ls w :
  Array_map (invoke data) ls w =
  (match notified data ls with
   | Ok _ => Ok (replicate (length ls) tt)
   | Throw e => Throw e
   end,
   set_delivered (delivered w ++ ((λ l, (lid l, data)) <$> reached data ls)) w).
Proof.
  revert w. induction ls as [|l ls IH]; intros w; simpl.
  - rewrite app_nil_r. by destruct w.
  - rewrite bind_run. unfold invoke at 1.
    destruct (cb l data) as [[]|e] eqn:Hl; [|done].
    rewrite bind_run, IH. simpl. rewrite <- app_assoc. simpl.
    by destruct (notified data ls).
Qed.

Lemma _notifyChange_run data w :
  _notifyChange data w =
  (notified data (listeners w),
   set_delivered
     (delivered w ++ ((λ l, (lid l, data)) <$> reached data (listeners w)))
     (set_logs (logs w ++ [(debug, "notifyChange")]) w)).
Proof.
  unfold _notifyChange. rewrite bind_run. simpl.
  rewrite bind_run. simpl. rewrite bind_run, invoke_all. simpl.
  by destruct (notified data (listeners w)) as [[]|].
Qed.

Lemma reached_all data ls :
  Forall (λ l, cb l data = Ok tt) ls →
  reached data ls = ls ∧ notified data ls = Ok tt.
Proof.
  induction 1 as [|l ls Hl _ [IH1 IH2]]; simpl; [done|].
  by rewrite Hl, IH1, IH2.
Qed.

Lemma reached_first_throw data pre l e rest :
  Forall (λ l, cb l data = Ok tt) pre → cb l data = Throw e →
  reached data (pre ++ l :: rest) = pre ++ [l] ∧
  notified data (pre ++ l :: rest) = Throw e.
Proof.
  intros Hpre Hl. induction Hpre as [|p pre Hp _ [IH1 IH2]]; simpl.
  - by rewrite Hl.
  - by rewrite Hp, IH1, IH2.
Qed.

(** C8, as the code has it.  [on] appends a listener and [off] removes every
    registration of it.  A mutation event is handed to the registered
    listeners in registration order, each with the mutation data, up to and
    including the first one that throws: what it throws ends
    [_notifyChange], and the listeners registered after it are not called.
    When no listener throws, all of them are called. *)
Theorem notifyChange_reaches_until_first_throw data f w :
  listeners (on f w).2 = listeners w ++ [f] ∧
  listeners (off f w).2 = filter (λ l, lid l ≠ lid f) (listeners w) ∧
  (_notifyChange data w).1 = notified data (listeners w) ∧
  delivered (_notifyChange data w).2 =
    delivered w ++ ((λ l, (lid l, data)) <$> reached data (listeners w)) ∧
  (Forall (λ l, cb l data = Ok tt) (listeners w) →
     reached data (listeners w) = listeners w ∧
     notified data (listeners w) = Ok tt) ∧
  (∀ pre l e rest,
     listeners w = pre ++ l :: rest →
     Forall (λ l, cb l data = Ok tt) pre → cb l data = Throw e →
     reached data (listeners w) = pre ++ [l] ∧
     notified data (listeners w) = Throw e).
Proof.
  split; [done|]. split; [done|].
  split; [by rewrite _notifyChange_run|].
  split; [by rewrite _notifyChange_run|].
  split; [apply reached_all|].
  intros pre l e rest -> Hpre Hl. by apply reached_first_throw.
Qed.

(** C8 as stated fails: with a throwing listener registered before a quiet
    one, the quiet one is registered, was never removed, and is not
    called. *)
Lemma notifyChange_stops_at_throwing_listener :
  let data := creating "a" (Sample.item "a" 5) in
  Sample.quiet 1 ∈ listeners Sample.watched ∧
  (lid (Sample.quiet 1), data) ∉ delivered (_notifyChange data Sample.watched).2.
Proof.
  split.
  - vm_compute. apply list_elem_of_further, list_elem_of_here.
  - rewrite _notifyChange_run. vm_compute.
    intros Hin. apply list_elem_of_singleton in Hin. discriminate.
Qed.

(** ** The local store *)

Ltac ignores := repeat split; intros; reflexivity.

#[global] Hint Extern 1 (ignores_logs _) => ignores : frame.
#[global] Hint Extern 1 (ignores_noise _) => ignores : frame.
#[global] Hint Extern 1 (ignores_table _) => ignores : frame.

Lemma bind_frame {X A B} (f : World → X) (m : M A) (k : A → M B) w :
  (∀ a, preserves f (k a)) → f ((m ≫= k) w).2 = f (m w).2.
Proof.
  intros Hk. rewrite bind_run. destruct (m w) as [[a|e] w']; [|done].
  apply Hk.
Qed.

Lemma quiet_notified data ls : quiet ls → notified data ls = Ok tt.
Proof.
  intros Hq. apply reached_all. eapply Forall_impl; [exact Hq|]. by intros l Hl.
Qed.

Lemma quiet_announced table ls rows : quiet ls → announced table ls rows = Ok tt.
Proof.
  intros Hq. induction rows as [|row rows IH]; simpl; [done|].
  by rewrite (quiet_notified _ _ Hq).
Qed.

Lemma hook_run data w :
  ∃ lg dl, Local.hook data w =
    (notified data (listeners w), set_delivered dl (set_logs lg w)).
Proof. unfold Local.hook. rewrite _notifyChange_run. by eexists _, _. Qed.

(** The announcement of the rows of a mutation: its end, and the calls
    made. *)
Lemma announce_all table rows w :
  ∃ lg dl r,
    Array_map (λ row, Local.hook (Local.change table row)) rows w =
      (r, set_delivered dl (set_logs lg w)) ∧
    match announced table (listeners w) rows with
    | Ok _ => ∃ l, r = Ok l
    | Throw e => r = Throw e
    end.
Proof.
  revert w. induction rows as [|row rows IH]; intros w; simpl.
  - exists (logs w), (delivered w), (Ok []). split; [by destruct w|by eexists].
  - rewrite bind_run.
    destruct (hook_run (Local.change table row) w) as (lg & dl & ->).
    destruct (notified (Local.change table row) (listeners w)) as [[]|e].
    + rewrite bind_run.
      destruct (IH (set_delivered dl (set_logs lg w))) as (lg' & dl' & r & -> & Hr).
      simpl in Hr.
      destruct (announced table (listeners w) rows) as [[]|e].
      * destruct Hr as [l ->]. simpl. eexists _, _, _. split; [done|by eexists].
      * subst r. by eexists _, _, _.
    + by eexists _, _, _.
Qed.

(** A mutation, whatever the listeners do: the rows are written when the
    announcement has ended well, and none of them otherwise. *)
Lemma bulkPut_shape rows w :
  ∃ lg dl, Local.bulkPut rows w =
    (announced (FeedTable w) (listeners w) rows,
     set_delivered dl (set_logs lg
       (set_FeedTable
          (match announced (FeedTable w) (listeners w) rows with
           | Ok _ => merge_rows (FeedTable w) rows
           | Throw _ => FeedTable w
           end) w))).
Proof.
  unfold Local.bulkPut. rewrite bind_run. simpl. rewrite bind_run.
  destruct (announce_all (FeedTable w) rows w) as (lg & dl & r & -> & Hr).
  destruct (announced (FeedTable w) (listeners w) rows) as [[]|e].
  - destruct Hr as [l ->]. simpl. by exists lg, dl.
  - subst r. exists lg, dl. by destruct w.
Qed.

Lemma put_shape row w :
  ∃ lg dl, Local.put row w =
    (notified (Local.change (FeedTable w) row) (listeners w),
     set_delivered dl (set_logs lg
       (set_FeedTable
          (match notified (Local.change (FeedTable w) row) (listeners w) with
           | Ok _ => <[row.1 := row.2]> (FeedTable w)
           | Throw _ => FeedTable w
           end) w))).
Proof.
  unfold Local.put. destruct (bulkPut_shape [row] w) as (lg & dl & ->).
  exists lg, dl. simpl.
  by destruct (notified (Local.change (FeedTable w) row) (listeners w)) as [[]|e].
Qed.

Lemma put_run row w :
  quiet (listeners w) →
  ∃ lg dl, Local.put row w =
    (Ok tt, set_delivered dl (set_logs lg
              (set_FeedTable (<[row.1 := row.2]> (FeedTable w)) w))).
Proof.
  intros Hq. destruct (put_shape row w) as (lg & dl & ->).
  rewrite (quiet_notified _ _ Hq). by exists lg, dl.
Qed.

Lemma bulkPut_run rows w :
  quiet (listeners w) →
  ∃ lg dl, Local.bulkPut rows w =
    (Ok tt, set_delivered dl (set_logs lg
              (set_FeedTable (merge_rows (FeedTable w) rows) w))).
Proof.
  intros Hq. destruct (bulkPut_shape rows w) as (lg & dl & ->).
  rewrite (quiet_announced _ _ _ Hq). by exists lg, dl.
Qed.

Lemma save_run items rows w :
  quiet (listeners w) →
  db_ok w = true → mapM Local.keyed items = Some rows →
  ∃ lg dl, Local.save items w =
    (Ok tt, set_delivered dl (set_logs lg
              (set_FeedTable (merge_rows (FeedTable w) rows) w))).
Proof.
  intros Hq Hdb Hrows. unfold Local.save. rewrite Hdb, Hrows. by apply bulkPut_run.
Qed.

Lemma save_shape items rows w :
  db_ok w = true → mapM Local.keyed items = Some rows →
  ∃ lg dl, Local.save items w =
    (announced (FeedTable w) (listeners w) rows,
     set_delivered dl (set_logs lg
       (set_FeedTable
          (match announced (FeedTable w) (listeners w) rows with
           | Ok _ => merge_rows (FeedTable w) rows
           | Throw _ => FeedTable w
           end) w))).
Proof.
  intros Hdb Hrows. unfold Local.save. rewrite Hdb, Hrows. apply bulkPut_shape.
Qed.

Lemma update_set_sync_shape key v w :
  ∃ lg dl r t, Local.update_set_sync key v w =
                 (r, set_delivered dl (set_logs lg (set_FeedTable t w))) ∧
               (t = FeedTable w ∨ t = flagged key v (FeedTable w)).
Proof.
  unfold Local.update_set_sync.
  destruct (db_ok w), key as [k|];
    try (exists (logs w), (delivered w); eexists _, (FeedTable w);
         split; [by destruct w|by left]).
  destruct (FeedTable w !! k) as [row|] eqn:Hrow;
    [|exists (logs w), (delivered w); eexists _, (FeedTable w);
      split; [by destruct w|by left]].
  destruct (put_shape (k, FeedItem.set_sync (Some v) row) w) as (lg & dl & ->).
  eexists lg, dl, _, _. split; [done|].
  destruct (notified _ _); [right|by left].
  unfold flagged. by rewrite Hrow.
Qed.

Lemma update_set_sync_run key v w :
  quiet (listeners w) →
  ∃ lg dl, Local.update_set_sync key v w =
    (if db_ok w then Ok tt else Throw Local.unavailable,
     set_delivered dl (set_logs lg
       (set_FeedTable
          (match key with
           | Some k =>
               if db_ok w then
                 match FeedTable w !! k with
                 | Some row => <[k := FeedItem.set_sync (Some v) row]> (FeedTable w)
                 | None => FeedTable w
                 end
               else FeedTable w
           | None => FeedTable w
           end) w))).
Proof.
  intros Hq. unfold Local.update_set_sync.
  destruct (db_ok w), key as [k|];
    try (exists (logs w), (delivered w); by destruct w).
  destruct (FeedTable w !! k) as [row|];
    [|exists (logs w), (delivered w); by destruct w].
  by apply (put_run (k, FeedItem.set_sync (Some v) row)).
Qed.

Section LocalFrames.
Context {X : Type} (f : World → X).

Lemma hook_preserves data : ignores_noise f → preserves f (Local.hook data).
Proof.
  intros [Hl Hd] w. destruct (hook_run data w) as (lg & dl & ->).
  simpl. by rewrite Hd, Hl.
Qed.

Lemma notifyChange_preserves data : ignores_noise f → preserves f (_notifyChange data).
Proof. intros [Hl Hd] w. rewrite _notifyChange_run. simpl. by rewrite Hd, Hl. Qed.

Lemma save_preserves items : ignores_table f → preserves f (Local.save items).
Proof.
  intros [[Hl Hd] Ht] w. unfold Local.save.
  destruct (db_ok w); [|done].
  destruct (mapM Local.keyed items) as [rows|]; [|done].
  destruct (bulkPut_shape rows w) as (lg & dl & ->). simpl.
  by rewrite Hd, Hl, Ht.
Qed.

Lemma update_set_sync_preserves key v :
  ignores_table f → preserves f (Local.update_set_sync key v).
Proof.
  intros [[Hl Hd] Ht] w.
  destruct (update_set_sync_shape key v w) as (lg & dl & r & t & -> & _). simpl.
  by rewrite Hd, Hl, Ht.
Qed.

Lemma findById_preserves id : preserves f (Local.findById id).
Proof. intros w. unfold Local.findById. by destruct (db_ok w). Qed.

Lemma find_sync_false_preserves : preserves f Local.find_sync_false.
Proof. intros w. unfold Local.find_sync_false. by destruct (db_ok w). Qed.

Lemma toArray_preserves c : preserves f (Local.toArray c).
Proof. intros w. unfold Local.toArray. by destruct (db_ok w). Qed.
End LocalFrames.

#[global] Hint Resolve hook_preserves notifyChange_preserves save_preserves
  update_set_sync_preserves findById_preserves find_sync_false_preserves
  toArray_preserves : frame.

(** ** The remote store *)

#[global] Hint Extern 1 (ignores_remote _) => ignores : frame.

Lemma find_run user_id date_gt w :
  Remote.find user_id date_gt w =
  (if remote_ok w then
     Ok (filter (λ r, Remote.matches user_id date_gt r = true)
                (map_to_list (encrypted_feed w)).*2)
   else Throw Remote.unavailable,
   set_remote_calls (remote_calls w ++ [call_find user_id date_gt]) w).
Proof.
  unfold Remote.find. rewrite bind_run. simpl.
  rewrite bind_run. unfold Remote.answers. simpl.
  by destruct (remote_ok w).
Qed.

Lemma findOne_run _id w :
  Remote.findOne _id w =
  (if remote_ok w then Ok (encrypted_feed w !! _id) else Throw Remote.unavailable,
   set_remote_calls (remote_calls w ++ [call_findOne _id]) w).
Proof.
  unfold Remote.findOne. rewrite bind_run. simpl.
  rewrite bind_run. unfold Remote.answers. simpl.
  by destruct (remote_ok w).
Qed.

Lemma updateOne_run _id user_id doc w :
  Remote.updateOne _id user_id doc w =
  ((upsert _id user_id doc (remote_ok w) (encrypted_feed w)).1,
   set_encrypted_feed (upsert _id user_id doc (remote_ok w) (encrypted_feed w)).2
     (set_remote_calls (remote_calls w ++ [call_updateOne _id user_id doc]) w)).
Proof.
  unfold Remote.updateOne, upsert. rewrite bind_run. simpl.
  rewrite bind_run. unfold Remote.answers. simpl.
  destruct (remote_ok w); [|by destruct w].
  rewrite bind_run. simpl.
  destruct (encrypted_feed w !! _id) as [old|]; [|done].
  by case_bool_decide; [|destruct w].
Qed.

Section RemoteFrames.
Context {X : Type} (f : World → X).

Lemma find_preserves user_id date_gt :
  ignores_remote f → preserves f (Remote.find user_id date_gt).
Proof. intros [Hc Hd] w. rewrite find_run. apply Hc. Qed.

Lemma findOne_preserves _id :
  ignores_remote f → preserves f (Remote.findOne _id).
Proof. intros [Hc Hd] w. rewrite findOne_run. apply Hc. Qed.

Lemma updateOne_preserves _id user_id doc :
  ignores_remote f → preserves f (Remote.updateOne _id user_id doc).
Proof. intros [Hc Hd] w. rewrite updateOne_run. simpl. by rewrite Hd, Hc. Qed.
End RemoteFrames.

#[global] Hint Resolve find_preserves findOne_preserves updateOne_preserves : frame.

(** ** Encryption and decryption of feed items *)

Section Crypto.
Context `{!Json FeedItem.t} `{!Json Settings} `{!Base64}.

(** [_decrypt] never throws: it answers the item or [undefined], and at
    most writes to the log. *)
Lemma _decrypt_run r w :
  ∃ lg, _decrypt r w = (Ok (plain (privateKey w) r), set_logs lg w).
Proof.
  unfold _decrypt, plain, Buffer_from_base64.
  destruct (EncryptedRecord.encrypted r) as [s|]; exec;
    [|eexists; reflexivity].
  destruct (decrypt (privateKey w) (from_base64 s)) as [b|e]; exec;
    [|eexists; reflexivity].
  destruct (JSON_parse (TextDecoder_decode b)) as [i|e]; exec;
    [|eexists; reflexivity].
  exists (logs w). by destruct w.
Qed.

Lemma _decrypt_preserves {X} (f : World → X) r :
  ignores_logs f → preserves f (_decrypt r).
Proof.
  intros Hl w. destruct (_decrypt_run r w) as (lg & ->). apply Hl.
Qed.

(** [_encrypt] catches whatever its body throws. *)
Lemma _encrypt_never_throws feedItem w :
  ∃ res, (_encrypt feedItem w).1 = Ok res.
Proof.
  unfold _encrypt, try_catch.
  match goal with |- context [match ?b w with _ => _ end] =>
    destruct (b w) as [[res|e] w'] end; by eexists.
Qed.

Lemma _encrypt_preserves {X} (f : World → X) feedItem :
  ignores_logs f → ignores_remote f → preserves f (_encrypt feedItem).
Proof.
  intros Hl Hr. unfold _encrypt. frame.
  all: try (apply preserves_modify; intros; apply Hl).
Qed.

(** All that [_encrypt] does to the world is in the log, in the remote
    collection and in the record of calls on it. *)
Lemma _encrypt_run feedItem w :
  ∃ res lg docs calls, _encrypt feedItem w =
    (Ok res, set_remote_calls calls (set_encrypted_feed docs (set_logs lg w))).
Proof.
  destruct (_encrypt_never_throws feedItem w) as [res Hres].
  pose proof (_encrypt_preserves privateKey feedItem ltac:(ignores) ltac:(ignores) w).
  pose proof (_encrypt_preserves user feedItem ltac:(ignores) ltac:(ignores) w).
  pose proof (_encrypt_preserves listeners feedItem ltac:(ignores) ltac:(ignores) w).
  pose proof (_encrypt_preserves FeedTable feedItem ltac:(ignores) ltac:(ignores) w).
  pose proof (_encrypt_preserves db_ok feedItem ltac:(ignores) ltac:(ignores) w).
  pose proof (_encrypt_preserves remote_ok feedItem ltac:(ignores) ltac:(ignores) w).
  pose proof (_encrypt_preserves heap feedItem ltac:(ignores) ltac:(ignores) w).
  pose proof (_encrypt_preserves delivered feedItem ltac:(ignores) ltac:(ignores) w).
  pose proof (_encrypt_preserves pending feedItem ltac:(ignores) ltac:(ignores) w).
  destruct (_encrypt feedItem w) as [o w'] eqn:He. simpl in *. subst o.
  exists res, (logs w'), (encrypted_feed w'), (remote_calls w').
  destruct w, w'; simpl in *. by subst.
Qed.
End Crypto.

#[global] Hint Resolve _decrypt_preserves _encrypt_preserves : frame.

(** ** The write path *)

Section WritePath.
Context `{!Json FeedItem.t} `{!Json Settings} `{!Base64}.

Lemma truthy_Some k : truthy (Some k) = true ↔ k ≠ "".
Proof. simpl. by rewrite bool_decide_eq_true. Qed.

Lemma truthy_false v : truthy v = false ↔ v = None ∨ v = Some "".
Proof.
  destruct v as [s|]; simpl; [|naive_solver].
  rewrite bool_decide_eq_false. split.
  - intros Hs. right. f_equal. by destruct (decide (s = "")).
  - intros [|[= ->]]; [done|]. by intros [].
Qed.

(** Without an id: a warning in the log and the error, nothing else. *)
Lemma write_rejected feedItem item w :
  heap w !! feedItem = Some item → truthy (FeedItem.id item) = false →
  write feedItem w =
  (Throw (Error "feed item missing id"),
   set_logs (logs w ++ [(warn, "Feed item missing _id")]) w).
Proof.
  intros Hitem Hid. unfold write, deref. exec. by rewrite Hitem, Hid.
Qed.

(** With an id: the object gets its [_id] and the row is announced; when
    no listener throws it is saved and the push is left pending. *)
Lemma write_shape feedItem item w :
  heap w !! feedItem = Some item → truthy (FeedItem.id item) = true →
  let item' := FeedItem.set__id (FeedItem.id item) item in
  let k := interpolate (FeedItem.id item) in
  let w0 := set_heap (<[feedItem := item']> (heap w)) w in
  ∃ lg dl, write feedItem w =
    if db_ok w then
      match notified (Local.change (FeedTable w) (k, item')) (listeners w) with
      | Ok _ =>
          (Ok tt,
           set_pending (pending w ++ [push_from_write feedItem])
             (set_delivered dl (set_logs lg
               (set_FeedTable (<[k := item']> (FeedTable w)) w0))))
      | Throw e => (Throw e, set_delivered dl (set_logs lg w0))
      end
    else (Throw Local.unavailable, w0).
Proof.
  intros Hitem Hid. unfold write, deref. exec. rewrite Hitem, Hid. simpl.
  rewrite lookup_insert_eq.
  destruct (FeedItem.id item) as [k|] eqn:Hk; [|done]. simpl.
  destruct (db_ok w) eqn:Hdb.
  - edestruct (save_shape [FeedItem.set__id (Some k) item]
                 [(k, FeedItem.set__id (Some k) item)]
                 (set_heap (<[feedItem := FeedItem.set__id (Some k) item]> (heap w)) w))
      as (lg & dl & ->); [done|done|].
    simpl. exists lg, dl.
    destruct (notified _ (listeners w)) as [[]|e]; [done|].
    by destruct w.
  - exists [], []. unfold Local.save. simpl. by rewrite Hdb.
Qed.

Lemma write_accepted feedItem item w :
  quiet (listeners w) →
  heap w !! feedItem = Some item → truthy (FeedItem.id item) = true →
  let item' := FeedItem.set__id (FeedItem.id item) item in
  let k := interpolate (FeedItem.id item) in
  if db_ok w then
    ∃ lg dl, write feedItem w =
      (Ok tt,
       set_pending (pending w ++ [push_from_write feedItem])
         (set_delivered dl (set_logs lg
           (set_FeedTable (<[k := item']> (FeedTable w))
             (set_heap (<[feedItem := item']> (heap w)) w)))))
  else
    write feedItem w =
      (Throw Local.unavailable, set_heap (<[feedItem := item']> (heap w)) w).
Proof.
  intros Hq Hitem Hid. simpl.
  destruct (write_shape feedItem item w Hitem Hid) as (lg & dl & ->).
  rewrite (quiet_notified _ _ Hq).
  destruct (db_ok w); [by exists lg, dl|done].
Qed.

(** The push that [write] leaves pending never touches the local store:
    [_encrypt] has caught the error before [catch] could see it. *)
Lemma background_push_run feedItem w :
  ∃ lg docs calls, background_push feedItem w =
    (match heap w !! feedItem with
     | Some _ => Ok tt
     | None => Throw (Error "TypeError: cannot read properties of undefined")
     end,
     set_remote_calls calls (set_encrypted_feed docs (set_logs lg w))).
Proof.
  unfold background_push, deref. rewrite bind_run.
  destruct (heap w !! feedItem) as [item|] eqn:Hitem.
  - unfold try_catch. rewrite bind_run.
    destruct (_encrypt_run item w) as (res & lg & docs & calls & ->).
    by exists lg, docs, calls.
  - exists (logs w), (encrypted_feed w), (remote_calls w). by destruct w.
Qed.
End WritePath.

(** C6.  For a feed item whose [id] is missing or empty, [write] ends with
    the error [feed item missing id] before anything else happens: the
    world after the call is the world before it with one warning more in
    the log, so nothing was saved to the local store, the caller's object
    is as it was, no listener was called, the remote store was not called
    and no push is pending. *)
Theorem write_without_id_is_rejected feedItem item w :
  heap w !! feedItem = Some item →
  FeedItem.id item = None ∨ FeedItem.id item = Some "" →
  (write feedItem w).1 = Throw (Error "feed item missing id") ∧
  (write feedItem w).2 = set_logs (logs w ++ [(warn, "Feed item missing _id")]) w ∧
  FeedTable (write feedItem w).2 = FeedTable w ∧
  heap (write feedItem w).2 = heap w ∧
  delivered (write feedItem w).2 = delivered w ∧
  encrypted_feed (write feedItem w).2 = encrypted_feed w ∧
  remote_calls (write feedItem w).2 = remote_calls w ∧
  pending (write feedItem w).2 = pending w.
Proof.
  intros Hitem Hid. apply truthy_false in Hid.
  by rewrite (write_rejected feedItem item w Hitem Hid).
Qed.

(** An object without [id] at reference 0 of a fresh instance. *)
Lemma write_without_id_is_rejected_witness :
  (write 0%nat (Sample.holding Sample.nameless)).1 =
    Throw (Error "feed item missing id") ∧
  FeedTable (write 0%nat (Sample.holding Sample.nameless)).2 = ∅.
Proof.
  pose proof (write_without_id_is_rejected 0%nat Sample.nameless
                (Sample.holding Sample.nameless) eq_refl (or_introl eq_refl))
    as (Hthrow & _ & Htable & _).
  exact (conj Hthrow Htable).
Defined.



Section Durability.
Context `{!Json FeedItem.t} `{!Json Settings} `{!Base64}.

(** C5.  For a feed item with a non-empty [id], once [write] has
    returned, [read] of that id answers the item (the caller's object,
    which now carries its [_id]): the row was saved before the call
    returned, and the push was only left pending.  The answer is the same
    after the push has run, in whatever state it finds the remote store
    and the key, because the push does not touch the local store. *)
Theorem read_after_write_answers_the_item feedItem item k w :
  heap w !! feedItem = Some item →
  FeedItem.id item = Some k → k ≠ "" →
  (write feedItem w).1 = Ok tt →
  let item' := FeedItem.set__id (Some k) item in
  let w' := (write feedItem w).2 in
  (read k w').1 = Ok (Some item') ∧
  pending w' = pending w ++ [push_from_write feedItem] ∧
  ∀ w1, FeedTable w1 = FeedTable w' → db_ok w1 = db_ok w' →
        (read k (run (push_from_write feedItem) w1).2).1 = Ok (Some item').
Proof.
  intros Hitem Hk Hne Hok item' w'.
  assert (truthy (FeedItem.id item) = true) as Hid
    by (rewrite Hk; by apply truthy_Some).
  destruct (write_shape feedItem item w Hitem Hid) as (lg & dl & Hw).
  rewrite Hk in Hw. simpl in Hw. subst w'. rewrite Hw in Hok |- *.
  destruct (db_ok w) eqn:Hdb; [|done].
  destruct (notified _ (listeners w)) as [[]|e]; [|done]. simpl.
  unfold read, Local.findById. simpl. rewrite Hdb. simpl.
  rewrite lookup_insert_eq. repeat split.
  intros w1 Htable Hdb1. simpl.
  destruct (background_push_run feedItem w1) as (lg1 & docs & calls & ->).
  simpl. rewrite Hdb1. simpl. by rewrite Htable, lookup_insert_eq.
Qed.
End Durability.

(** The item [a] written on a fresh instance and read back. *)
Lemma read_after_write_answers_the_item_witness :
  (read "a" (write 0%nat (Sample.holding (Sample.item "a" 5))).2).1 =
    Ok (Some (FeedItem.set__id (Some "a") (Sample.item "a" 5))).
Proof.
  pose proof (read_after_write_answers_the_item 0%nat (Sample.item "a" 5) "a"
                (Sample.holding (Sample.item "a" 5))
                eq_refl eq_refl ltac:(discriminate) eq_refl)
    as (Hread & _).
  exact Hread.
Defined.

(** ** Feed pages *)

Lemma StronglySorted_sublist {A} (R : relation A) (l1 l2 : list A) :
  l1 `sublist_of` l2 → StronglySorted R l2 → StronglySorted R l1.
Proof.
  induction 1 as [|x l1 l2 Hsub IH|x l1 l2 Hsub IH]; intros Hs; [done|..].
  - apply StronglySorted_inv in Hs as [Hs Hall]. constructor; [by apply IH|].
    rewrite Forall_forall in Hall |- *. intros y Hy. apply Hall.
    by eapply elem_of_sublist.
  - apply StronglySorted_inv in Hs as [Hs _]. by apply IH.
Qed.

Lemma StronglySorted_rev {A} (R : relation A) (l : list A) :
  StronglySorted R l → StronglySorted (flip R) (rev l).
Proof.
  induction 1 as [|x l Hs IH Hall]; simpl; [constructor|].
  apply StronglySorted_app_2; [|done|by repeat constructor].
  intros y z Hy Hz. apply list_elem_of_singleton in Hz as ->.
  rewrite Forall_forall in Hall. apply Hall.
  by apply list_elem_of_In, in_rev, list_elem_of_In.
Qed.

#[global] Instance index_le_transitive : Transitive Local.index_le.
Proof.
  intros r1 r2 r3 [H12|H12] [H23|H23]; unfold Local.index_le.
  - left. congruence.
  - right. by rewrite H12.
  - right. by rewrite <- H23.
  - right. by etrans.
Qed.

#[global] Instance index_le_total : Total Local.index_le.
Proof.
  intros r1 r2. unfold Local.index_le.
  destruct (trichotomyT lexico (Local.index_key r1) (Local.index_key r2))
    as [[Hlt|Heq]|Hgt]; auto.
Qed.

Lemma index_le_date r1 r2 :
  Local.index_le r1 r2 → FeedItem.date r1.2 ≤ FeedItem.date r2.2.
Proof.
  intros [Heq|Hlt].
  - by injection Heq as -> _.
  - destruct Hlt as [Hlt|[Heq _]]; simpl in *; [|by rewrite Heq].
    unfold lexico, Z_lexico in Hlt. lia.
Qed.

(** The index on [date] is walked by ascending date. *)
Lemma orderBy_date_sorted table :
  StronglySorted (λ i j, FeedItem.date i ≤ FeedItem.date j)
                 (Local.by_date table).
Proof.
  unfold Local.by_date.
  apply StronglySorted_fmap with (R1 := Local.index_le);
    [apply index_le_date|].
  apply StronglySorted_merge_sort; apply _.
Qed.

(** ... and it holds the rows of the table, all of them. *)
Lemma orderBy_date_rows table i :
  i ∈ Local.by_date table ↔ ∃ k, table !! k = Some i.
Proof.
  unfold Local.by_date. rewrite list_elem_of_fmap. split.
  - intros ([k j] & -> & Hin). exists k.
    rewrite merge_sort_Permutation in Hin. by apply elem_of_map_to_list in Hin.
  - intros [k Hk]. exists (k, i). split; [done|].
    rewrite merge_sort_Permutation. by apply elem_of_map_to_list.
Qed.

(** *** The cursor *)

Lemma from_first_sublist {A} (p : A → bool) (l : list A) :
  from_first p l `sublist_of` l.
Proof.
  induction l as [|x l IH]; simpl; [done|].
  destruct (p x); [done|]. by apply sublist_cons.
Qed.

Lemma filter_from_first {A} (p : A → bool) (l : list A) :
  filter (λ x, p x = true) (from_first p l) = filter (λ x, p x = true) l.
Proof.
  induction l as [|x l IH]; simpl; [done|].
  destruct (p x) eqn:Hx; [done|].
  rewrite IH, filter_cons_False; [done|]. by rewrite Hx.
Qed.

(** The rows that [from_first] leaves out do not satisfy [p]. *)
Lemma from_first_split {A} (p : A → bool) (l : list A) :
  ∃ pre, l = pre ++ from_first p l ∧ Forall (λ x, p x = false) pre.
Proof.
  induction l as [|x l (pre & Hl & Hpre)]; simpl; [by exists []|].
  destruct (p x) eqn:Hx; [by exists []|].
  exists (x :: pre). split; [simpl; by rewrite <- Hl|by constructor].
Qed.

Lemma from_first_all {A} (p : A → bool) (l : list A) :
  Forall (λ x, p x = true) l → from_first p l = l.
Proof. intros Hl. destruct Hl as [|x l Hx Hl]; simpl; [done|by rewrite Hx]. Qed.

(** A limit alone, or behind an offset that is spent: the rows that pass
    the filter, up to the limit. *)
Lemma iter_stop_after keep n skipped rows :
  Local.iter keep [Local.stop_after n] skipped rows =
    take (Z.to_nat n) (filter (λ i, keep i = true) (drop skipped rows)) ∧
  Local.iter keep [Local.skip_rows 0; Local.stop_after n] skipped rows =
    take (Z.to_nat n) (filter (λ i, keep i = true) (drop skipped rows)).
Proof.
  revert n skipped. induction rows as [|i rows IH]; intros n skipped.
  { simpl. by rewrite drop_nil, filter_nil, take_nil. }
  destruct skipped as [|j]; simpl; [|apply IH].
  destruct (keep i) eqn:Hi.
  - rewrite filter_cons_True by done.
    destruct (decide (n ≤ 0)) as [Hn|Hn].
    { rewrite bool_decide_false, bool_decide_true by lia. simpl.
      by replace (Z.to_nat n) with 0%nat by lia. }
    replace (Z.to_nat n) with (S (Z.to_nat (n - 1))) by lia.
    rewrite bool_decide_true by lia. simpl.
    destruct (decide (n - 1 ≤ 0)) as [Hn'|Hn'].
    + rewrite bool_decide_true by lia.
      replace (Z.to_nat (n - 1)) with 0%nat by lia. by rewrite take_0.
    + rewrite bool_decide_false by lia.
      destruct (IH (n - 1) 0%nat) as [-> ->]. by rewrite drop_0.
  - rewrite filter_cons_False by (by rewrite Hi).
    destruct (IH n 0%nat) as [-> ->]. by rewrite drop_0.
Qed.

(** An offset on the bare walk, then a filter, then a limit: the offset is
    counted in rows of the walk, from the first row that passes the
    filter. *)
Lemma iter_skip_rows keep o n rows :
  Local.iter keep [Local.skip_rows (S o); Local.stop_after n] 0 rows =
    take (Z.to_nat n)
      (filter (λ i, keep i = true) (drop (S o) (from_first keep rows))).
Proof.
  induction rows as [|i rows IH]; simpl.
  { by rewrite filter_nil, take_nil. }
  destruct (keep i) eqn:Hi; [|done].
  destruct o as [|o]; simpl.
  - destruct (iter_stop_after keep n 0 rows) as [_ ->]. by rewrite drop_0.
  - by destruct (iter_stop_after keep n (S o) rows) as [_ ->].
Qed.

Lemma page_sublist numResults offset table :
  page numResults offset table `sublist_of` rev (Local.by_date table).
Proof.
  unfold page. etrans; [apply sublist_take|].
  etrans; [apply sublist_filter|]. etrans; [apply sublist_drop|].
  apply from_first_sublist.
Qed.

Lemma shown_spec i :
  shown i = true ↔
  (∀ s, FeedItem.status i = Some s → s ∉ excluded) ∧
  (∀ s, FeedItem.otplStatus i = Some s → s ∉ excluded).
Proof.
  unfold shown, Array_includes, excluded.
  rewrite andb_true_iff, !bool_decide_eq_true.
  destruct (FeedItem.status i) as [s|], (FeedItem.otplStatus i) as [t|];
    rewrite ?bool_decide_eq_false;
    (split;
     [ intros [Hs Ht]; split; intros ? [= <-]; done
     | intros [Hs Ht]; split; try done; eauto ]).
Qed.

Lemma getFeedPage_run numResults offset w :
  getFeedPage numResults offset w =
  if db_ok w then
    (Ok (page numResults offset (FeedTable w)),
     set_logs (logs w ++ [(debug, "getFeedPage result:")]) w)
  else (Ok [], set_logs (logs w ++ [(warn, "getFeedPage failed:")]) w).
Proof.
  set (c := Local.limit numResults (Local.filter shown (Local.offset offset
              (Local.reverse Local.orderBy_date)))).
  assert (Local.iter (Local.passes c) (Local.replay c) 0
            (Local.walk c (FeedTable w)) =
          page numResults offset (FeedTable w)) as Hpage.
  { unfold c, page, Local.limit, Local.filter, Local.offset.
    case_bool_decide; simpl.
    - etrans; [apply (proj1 (iter_stop_after _ _ _ _))|]. simpl.
      replace (Z.to_nat offset) with 0%nat by lia.
      by rewrite !drop_0, (filter_from_first shown).
    - destruct (Z.to_nat offset) as [|o] eqn:Ho; [lia|].
      apply (iter_skip_rows shown). }
  unfold getFeedPage. fold c.
  cbv [mbind M_bind mret M_ret try_catch log modify Local.toArray].
  rewrite Hpage. by destruct (db_ok w).
Qed.

(** C7, as the code has it.  For every [numResults] and [offset],
    [getFeedPage] answers rows of the Feed table ordered by date, newest
    first, none of them with a [status] or an [otplStatus] among deleted,
    cancelled and canceled.  The page is computed on the feed in that
    order, from its first row that is not excluded on: [offset] rows of it
    are skipped, excluded or not, then the excluded rows are left out, and
    at most [numResults] are kept.  For an [offset] of zero or less that is
    the rows that are not excluded, up to [numResults].  When the local
    store fails it answers the empty page; it never throws and only writes
    to the log. *)
Theorem getFeedPage_skips_from_the_first_shown_row numResults offset w :
  let rows := rev (Local.by_date (FeedTable w)) in
  (getFeedPage numResults offset w).1 =
    Ok (if db_ok w then page numResults offset (FeedTable w) else []) ∧
  page numResults offset (FeedTable w) =
    take (Z.to_nat numResults)
      (filter (λ i, shown i = true)
         (drop (Z.to_nat offset) (from_first shown rows))) ∧
  (∃ pre, rows = pre ++ from_first shown rows ∧
          Forall (λ i, shown i = false) pre) ∧
  StronglySorted (λ i j, FeedItem.date j ≤ FeedItem.date i) rows ∧
  (∀ i, i ∈ rows ↔ ∃ k, FeedTable w !! k = Some i) ∧
  (offset ≤ 0 →
     page numResults offset (FeedTable w) =
       take (Z.to_nat numResults) (filter (λ i, shown i = true) rows)) ∧
  StronglySorted (λ i j, FeedItem.date j ≤ FeedItem.date i)
    (page numResults offset (FeedTable w)) ∧
  (∀ i, i ∈ page numResults offset (FeedTable w) →
     (∃ k, FeedTable w !! k = Some i) ∧
     (∀ s, FeedItem.status i = Some s → s ∉ excluded) ∧
     (∀ s, FeedItem.otplStatus i = Some s → s ∉ excluded)) ∧
  (length (page numResults offset (FeedTable w)) ≤ Z.to_nat numResults)%nat ∧
  FeedTable (getFeedPage numResults offset w).2 = FeedTable w.
Proof.
  simpl. rewrite getFeedPage_run. split; [by destruct (db_ok w)|].
  split; [done|]. split; [apply from_first_split|].
  assert (∀ i, i ∈ rev (Local.by_date (FeedTable w)) ↔
               ∃ k, FeedTable w !! k = Some i) as Hrows.
  { intros i. rewrite <- orderBy_date_rows, !list_elem_of_In. symmetry.
    apply in_rev. }
  split; [apply (StronglySorted_rev _ _ (orderBy_date_sorted (FeedTable w)))|].
  split; [done|]. split.
  { intros Ho. unfold page. replace (Z.to_nat offset) with 0%nat by lia.
    by rewrite drop_0, (filter_from_first shown). }
  split.
  { eapply StronglySorted_sublist; [apply page_sublist|].
    apply (StronglySorted_rev _ _ (orderBy_date_sorted (FeedTable w))). }
  split.
  { intros i Hi. split.
    - apply Hrows. eapply elem_of_sublist; [exact Hi|apply page_sublist].
    - unfold page in Hi. apply elem_of_take in Hi as (n & Hn & _).
      apply list_elem_of_lookup_2, list_elem_of_filter in Hn as [Hs _].
      by apply shown_spec in Hs. }
  split.
  { unfold page. rewrite length_take. lia. }
  by destruct (db_ok w).
Qed.

(** C7 as stated fails.  The feed holds a live row dated 3, a deleted row
    dated 2 and a live row dated 1.  For the page of offset 2 the code
    skips the first two rows of the feed, the deleted one among them, and
    answers the row dated 1; excluding first and skipping afterwards would
    skip both live rows and answer nothing. *)
Lemma getFeedPage_offset_jumps_over_excluded_rows :
  (getFeedPage 10 2 Sample.with_gap).1 = Ok [Sample.live_b] ∧
  page_excluding_first 10 2 (FeedTable Sample.with_gap) = [] ∧
  (getFeedPage 10 2 Sample.with_gap).1 ≠
    Ok (page_excluding_first 10 2 (FeedTable Sample.with_gap)).
Proof. repeat split; by vm_compute. Qed.

(** The pages of the two sample feeds at the first offsets.  In the feed
    that begins with the deleted row, the offset is counted from the live
    row. *)
Lemma getFeedPage_sample_pages :
  (getFeedPage 10 0 Sample.with_gap).1 = Ok [Sample.live_c; Sample.live_b] ∧
  (getFeedPage 10 1 Sample.with_gap).1 = Ok [Sample.live_b] ∧
  (getFeedPage 10 2 Sample.with_gap).1 = Ok [Sample.live_b] ∧
  (getFeedPage 10 3 Sample.with_gap).1 = Ok [] ∧
  (getFeedPage 10 0 Sample.with_feed).1 = Ok [Sample.live_b] ∧
  (getFeedPage 10 1 Sample.with_feed).1 = Ok [].
Proof. repeat split; by vm_compute. Qed.

(** ** Reconciliation *)

Section Reconciliation.
Context `{!Json FeedItem.t} `{!Json Settings} `{!Base64}.

Lemma lastSync_of_empty : lastSync_of ∅ = 0.
Proof. reflexivity. Qed.

Lemma newest_first_rows table i :
  i ∈ rev (Local.by_date table) ↔ ∃ k, table !! k = Some i.
Proof.
  rewrite <- orderBy_date_rows, !list_elem_of_In. symmetry. apply in_rev.
Qed.

Lemma lastSync_of_upper table k i :
  table !! k = Some i → FeedItem.date i ≤ lastSync_of table.
Proof.
  intros Hk. unfold lastSync_of.
  assert (i ∈ rev (Local.by_date table)) as Hin
    by (apply newest_first_rows; eauto).
  pose proof (StronglySorted_rev _ _ (orderBy_date_sorted table)) as Hs.
  destruct (rev (Local.by_date table)) as [|j rest]; simpl.
  - by apply not_elem_of_nil in Hin.
  - apply StronglySorted_inv in Hs as [_ Hall].
    apply elem_of_cons in Hin as [->|Hin]; [done|].
    rewrite Forall_forall in Hall. by apply Hall.
Qed.

Lemma lastSync_of_attained table :
  table ≠ ∅ → ∃ k i, table !! k = Some i ∧ FeedItem.date i = lastSync_of table.
Proof.
  intros Hne. unfold lastSync_of.
  destruct (rev (Local.by_date table)) as [|j rest] eqn:Hrows; simpl.
  - destruct Hne. apply map_empty. intros k.
    destruct (table !! k) as [i|] eqn:Hk; [|done].
    assert (i ∈ rev (Local.by_date table)) as Hin
      by (apply newest_first_rows; eauto).
    rewrite Hrows in Hin. by apply not_elem_of_nil in Hin.
  - assert (j ∈ rev (Local.by_date table)) as Hin
      by (rewrite Hrows; apply list_elem_of_here).
    apply newest_first_rows in Hin as [k Hk]. eauto.
Qed.

Lemma filter_all {A} (l : list A) :
  filter (λ _, true = true) l = l.
Proof.
  induction l as [|x l IH]; [done|]. by rewrite filter_cons_True, IH.
Qed.

(** The query of lines 120-123 answers the newest row, if there is one. *)
Lemma toArray_newest w :
  Local.toArray (Local.limit 1 (Local.reverse Local.orderBy_date)) w =
  if db_ok w then (Ok (take 1 (rev (Local.by_date (FeedTable w)))), w)
  else (Throw Local.unavailable, w).
Proof.
  unfold Local.toArray. destruct (db_ok w); [|done]. do 2 f_equal. simpl.
  etrans; [apply (proj1 (iter_stop_after _ _ _ _))|].
  by rewrite drop_0, filter_all.
Qed.

(** The calls a pass makes on the remote store before it returns: the one
    query. *)
Lemma syncFromRemote_calls w :
  db_ok w = true →
  remote_calls (_syncFromRemote w).2 =
    remote_calls w ++ [call_find (user w) (lastSync_of (FeedTable w))].
Proof.
  intros Hdb. unfold _syncFromRemote.
  rewrite !bind_run, toArray_newest, Hdb. simpl.
  rewrite bind_run. simpl. rewrite bind_frame.
  - by rewrite find_run.
  - intros newItems. frame.
Qed.

Lemma matches_spec user_id date_gt r :
  Remote.matches user_id date_gt r = true ↔
  EncryptedRecord.user_id r = user_id ∧
  ∃ t, EncryptedRecord.date r = Some t ∧ date_gt < t.
Proof.
  unfold Remote.matches. rewrite andb_true_iff, bool_decide_eq_true.
  destruct (EncryptedRecord.date r) as [t|].
  - rewrite bool_decide_eq_true. split.
    + intros [Hu Hd]. split; [done|]. by exists t.
    + by intros [Hu (t' & [= <-] & Hd)].
  - split; [by intros [_ ?]|by intros [_ (t & ? & _)]].
Qed.

(** C4.  A reconciliation pass takes as watermark the greatest [date]
    among the local feed items, and 0 when there are none.  The only call
    it makes on the remote [encrypted_feed] collection before it returns
    is one query, for the documents of the current user whose [date] is
    strictly greater than the watermark; the answer, when the remote
    store answers, is those documents and no other. *)
Theorem syncFromRemote_queries_above_the_watermark w :
  db_ok w = true →
  ∃ lastSync,
    (FeedTable w = ∅ → lastSync = 0) ∧
    (∀ k i, FeedTable w !! k = Some i → FeedItem.date i ≤ lastSync) ∧
    (FeedTable w ≠ ∅ →
       ∃ k i, FeedTable w !! k = Some i ∧ FeedItem.date i = lastSync) ∧
    remote_calls (_syncFromRemote w).2 =
      remote_calls w ++ [call_find (user w) lastSync] ∧
    ∀ w0 newItems,
      (Remote.find (user w) lastSync w0).1 = Ok newItems →
      ∀ r, r ∈ newItems ↔
           (∃ k, encrypted_feed w0 !! k = Some r) ∧
           EncryptedRecord.user_id r = user w ∧
           ∃ t, EncryptedRecord.date r = Some t ∧ lastSync < t.
Proof.
  intros Hdb. exists (lastSync_of (FeedTable w)).
  split; [by intros ->|].
  split; [apply lastSync_of_upper|].
  split; [apply lastSync_of_attained|].
  split; [by apply syncFromRemote_calls|].
  intros w0 newItems. rewrite find_run. simpl.
  destruct (remote_ok w0); [|done]. intros [= <-] r.
  rewrite list_elem_of_filter, matches_spec, list_elem_of_fmap.
  split.
  - intros [Hm ([k r'] & -> & Hin)]. apply elem_of_map_to_list in Hin.
    split; [by exists k|done].
  - intros [[k Hk] Hm]. split; [done|]. exists (k, r).
    split; [done|]. by apply elem_of_map_to_list.
Qed.
End Reconciliation.

(** A pass on the sample feed of two rows. *)
Lemma syncFromRemote_queries_above_the_watermark_witness :
  ∃ lastSync,
    remote_calls (_syncFromRemote Sample.with_feed).2 = [call_find "u1" lastSync] ∧
    (∀ k i, FeedTable Sample.with_feed !! k = Some i → FeedItem.date i ≤ lastSync).
Proof.
  destruct (syncFromRemote_queries_above_the_watermark Sample.with_feed eq_refl)
    as (lastSync & _ & Hup & _ & Hcalls & _).
  exists lastSync. exact (conj Hcalls Hup).
Defined.

Section Merge.
Context `{!Json FeedItem.t} `{!Json Settings} `{!Base64}.

Lemma omap_id_fmap {A B} (f : A → option B) (l : list A) :
  omap id (f <$> l) = omap f l.
Proof.
  induction l as [|x l IH]; [done|].
  rewrite fmap_cons. cbn. rewrite <- IH. by destruct (f x).
Qed.

Lemma decrypt_all rs w :
  ∃ lg, Array_map _decrypt rs w =
        (Ok (plain (privateKey w) <$> rs), set_logs lg w).
Proof.
  revert w. induction rs as [|r rs IH]; intros w; simpl.
  - exists (logs w). by destruct w.
  - rewrite bind_run. destruct (_decrypt_run r w) as (lg & ->).
    rewrite bind_run. destruct (IH (set_logs lg w)) as (lg' & ->).
    simpl. by exists lg'.
Qed.

Lemma spawn_all items w :
  Array_map (λ item, spawn (push_from_sync item)) items w =
  (Ok (replicate (length items) tt),
   set_pending (pending w ++ (push_from_sync <$> items)) w).
Proof.
  revert w. induction items as [|i items IH]; intros w; simpl.
  - rewrite app_nil_r. by destruct w.
  - rewrite bind_run. simpl. rewrite bind_run, IH. simpl.
    by rewrite <- app_assoc.
Qed.

Lemma syncFromRemote_run w rows :
  quiet (listeners w) →
  db_ok w = true → remote_ok w = true →
  mapM Local.keyed (merged_of w) = Some rows →
  ∃ lg dl,
    _syncFromRemote w =
    (Ok tt,
     set_pending
       (pending w ++
        (push_from_sync <$>
           filter (λ i, FeedItem.sync i = Some false)
                  (map_to_list (merge_rows (FeedTable w) rows)).*2))
       (set_delivered dl (set_logs lg
         (set_FeedTable (merge_rows (FeedTable w) rows)
           (set_remote_calls
              (remote_calls w ++ [call_find (user w) (lastSync_of (FeedTable w))])
              w))))).
Proof.
  intros Hq Hdb Hremote Hrows. unfold _syncFromRemote.
  rewrite !bind_run, toArray_newest, Hdb. simpl.
  rewrite bind_run. simpl. rewrite bind_run, find_run, Hremote.
  fold (lastSync_of (FeedTable w)). fold (newItems_of w).
  rewrite bind_run. simpl.
  change (match take 1 (rev (Local.by_date (FeedTable w))) with
          | [] => 0 | i :: _ => FeedItem.date i end)
    with (lastSync_of (FeedTable w)).
  fold (newItems_of w).
  set (filtered := filter (λ r, is_feed_mirror r = true) (newItems_of w)) in *.
  set (w2 := set_logs _ _).
  assert (∃ lg dl,
    (if bool_decide (length filtered ≠ 0%nat)
     then (Array_map _decrypt filtered ≫= λ rs, mret (omap id rs))
          ≫= λ decrypted, log debug "_syncFromRemote" ≫= λ _, Local.save decrypted
     else mret ()) w2 =
    (Ok tt, set_delivered dl (set_logs lg
              (set_FeedTable (merge_rows (FeedTable w) rows) w2)))) as Hpull.
  { case_bool_decide as Hlen.
    - rewrite !bind_run. destruct (decrypt_all filtered w2) as (lg & ->).
      simpl. rewrite bind_run. simpl.
      replace (omap id (plain (privateKey w) <$> filtered))
        with (merged_of w)
        by (unfold merged_of; fold filtered; by rewrite omap_id_fmap).
      edestruct (save_run (merged_of w) rows) as (lg' & dl' & ->);
        [| |exact Hrows|]; [done|done|].
      by eexists _, _.
    - assert (filtered = []) as Hnil
        by (apply nil_length_inv; lia).
      unfold merged_of in Hrows. fold filtered in Hrows.
      rewrite Hnil in Hrows. injection Hrows as <-.
      exists (logs w2), (delivered w2). by destruct w. }
  rewrite bind_run. destruct Hpull as (lg & dl & ->).
  rewrite bind_run. unfold Local.find_sync_false at 1. simpl. rewrite Hdb.
  simpl.
  set (failed := filter _ _).
  case_bool_decide as Hlen.
  - rewrite !bind_run. simpl. rewrite bind_run, spawn_all. simpl.
    by eexists _, _.
  - assert (failed = []) as Hnil by (apply nil_length_inv; lia).
    rewrite Hnil, fmap_nil, app_nil_r.
    exists (lg ++ [(info, "_syncfromremote done")]), dl.
    subst w2. by destruct w.
Qed.

(** The table after a pass, whatever the listeners do: the rows are merged,
    or none is. *)
Lemma syncFromRemote_table w rows :
  db_ok w = true → remote_ok w = true →
  mapM Local.keyed (merged_of w) = Some rows →
  FeedTable (_syncFromRemote w).2 = FeedTable w ∨
  FeedTable (_syncFromRemote w).2 = merge_rows (FeedTable w) rows.
Proof.
  intros Hdb Hremote Hrows. unfold _syncFromRemote.
  rewrite !bind_run, toArray_newest, Hdb. simpl.
  rewrite bind_run. simpl. rewrite bind_run, find_run, Hremote.
  fold (lastSync_of (FeedTable w)). fold (newItems_of w).
  rewrite bind_run. simpl.
  change (match take 1 (rev (Local.by_date (FeedTable w))) with
          | [] => 0 | i :: _ => FeedItem.date i end)
    with (lastSync_of (FeedTable w)).
  fold (newItems_of w).
  set (filtered := filter (λ r, is_feed_mirror r = true) (newItems_of w)) in *.
  set (w2 := set_logs _ _).
  rewrite bind_frame by (intros ?; frame).
  case_bool_decide as Hlen; [|by left].
  rewrite !bind_run. destruct (decrypt_all filtered w2) as (lg & ->).
  simpl. rewrite bind_run. simpl.
  replace (omap id (plain (privateKey w) <$> filtered))
    with (merged_of w)
    by (unfold merged_of; fold filtered; by rewrite omap_id_fmap).
  edestruct (save_shape (merged_of w) rows) as (lg' & dl' & ->);
    [|exact Hrows|]; [done|].
  simpl. destruct (announced _ _ rows); [by right|by left].
Qed.
End Merge.

Lemma merge_rows_other table rows k :
  (∀ i, (k, i) ∉ rows) → merge_rows table rows !! k = table !! k.
Proof.
  revert table. induction rows as [|[k' j] rows IH]; intros table Hk; [done|].
  simpl. rewrite IH.
  - apply lookup_insert_ne. intros ->. apply (Hk j), list_elem_of_here.
  - intros i Hi. apply (Hk i). by apply list_elem_of_further.
Qed.

Lemma merge_rows_unique table rows k i :
  (k, i) ∈ rows → (∀ j, (k, j) ∈ rows → j = i) →
  merge_rows table rows !! k = Some i.
Proof.
  revert table. induction rows as [|[k' j] rows IH]; intros table Hin Huniq.
  - by apply not_elem_of_nil in Hin.
  - simpl. destruct (decide ((k, i) ∈ rows)) as [Hrest|Hrest].
    + apply IH; [done|]. intros j' Hj'. apply Huniq. by apply list_elem_of_further.
    + apply elem_of_cons in Hin as [[= <- <-]|Hin]; [|done].
      rewrite merge_rows_other; [apply lookup_insert_eq|].
      intros j' Hj'. assert (j' = i) as -> by (apply Huniq; by apply list_elem_of_further).
      done.
Qed.

Lemma keyed_rows batch rows :
  mapM Local.keyed batch = Some rows →
  ∀ k i, (k, i) ∈ rows ↔ i ∈ batch ∧ FeedItem._id i = Some k.
Proof.
  rewrite mapM_Some. induction 1 as [|x [k' j] batch rows Hx _ IH]; intros k i.
  - split; [by intros Hin%not_elem_of_nil|by intros [Hin%not_elem_of_nil _]].
  - unfold Local.keyed in Hx. destruct (FeedItem._id x) as [kx|] eqn:Hkx; [|done].
    simpl in Hx. injection Hx as <- <-.
    rewrite !elem_of_cons, IH. split.
    + intros [[= -> ->]|[Hin Hk]]; [by split; [left|]|by split; [right|]].
    + intros [[->|Hin] Hk]; [left; congruence|by right].
Qed.

(** [includes] is containment of a substring. *)
Lemma String_prefix_spec n h :
  String.prefix n h = true ↔ ∃ post, h = n +:+ post.
Proof.
  revert h. induction n as [|c n IH]; intros h; simpl.
  - split; [by exists h|by destruct h].
  - destruct h as [|d h]; [split; [done|by intros [? ?]]|].
    simpl. destruct (Ascii.ascii_dec c d) as [->|Hne].
    + rewrite IH. split; intros [post Hp]; exists post; [by rewrite Hp|].
      by injection Hp.
    + split; [done|]. intros [post Hp]. injection Hp as <- _. done.
Qed.

Lemma String_includes_unfold n h :
  String_includes n h =
  String.prefix n h ||
  match h with
  | EmptyString => false
  | String _ rest => String_includes n rest
  end.
Proof. by destruct h. Qed.

Lemma String_includes_spec n h :
  String_includes n h = true ↔ ∃ pre post, h = pre +:+ n +:+ post.
Proof.
  induction h as [|d h IH]; rewrite String_includes_unfold.
  - rewrite orb_false_r, String_prefix_spec. split.
    + intros [post Hp]. by exists "", post.
    + intros (pre & post & Hp). destruct pre; [by exists post|done].
  - rewrite orb_true_iff, String_prefix_spec, IH. split.
    + intros [[post Hp]|(pre & post & Hp)].
      * by exists "", post.
      * exists (String d pre), post. by rewrite Hp.
    + intros (pre & post & Hp). destruct pre as [|c pre].
      * left. by exists post.
      * right. injection Hp as _ Hp. by exists pre, post.
Qed.

Section Merging.
Context `{!Json FeedItem.t} `{!Json Settings} `{!Base64}.

Lemma is_feed_mirror_spec r :
  is_feed_mirror r = true ↔
  String_includes "settings" (EncryptedRecord._id r) = false ∧
  truthy (EncryptedRecord.txHash r) = true.
Proof.
  unfold is_feed_mirror. rewrite andb_true_iff, negb_true_iff. done.
Qed.

(** C3.  When both stores answer and every decrypted item carries its
    primary key, what a pass merges into the local store is exactly this:
    of the candidates the query answered, those whose [_id] does not
    contain [settings] and whose [txHash] is set, each decrypted on its
    own; a candidate that fails to decrypt is left out and the others are
    merged all the same.  When no listener throws at what it is told, the
    pass returns and a merged item ends up in the local store under its
    key (the last one, if several share a key); and whatever the listeners
    do, a row under any other key is as it was. *)
Theorem syncFromRemote_merges_the_feed_mirrors w :
  db_ok w = true → remote_ok w = true →
  Forall (λ i, is_Some (FeedItem._id i)) (merged_of w) →
  (quiet (listeners w) → (_syncFromRemote w).1 = Ok tt) ∧
  (∀ i, i ∈ merged_of w ↔
        ∃ r, r ∈ newItems_of w ∧
             String_includes "settings" (EncryptedRecord._id r) = false ∧
             truthy (EncryptedRecord.txHash r) = true ∧
             plain (privateKey w) r = Some i) ∧
  (∀ r, (_decrypt r w).1 = Ok (plain (privateKey w) r)) ∧
  (quiet (listeners w) →
   ∀ i k, i ∈ merged_of w → FeedItem._id i = Some k →
          (∀ j, j ∈ merged_of w → FeedItem._id j = Some k → j = i) →
          FeedTable (_syncFromRemote w).2 !! k = Some i) ∧
  (∀ k, (∀ i, i ∈ merged_of w → FeedItem._id i ≠ Some k) →
        FeedTable (_syncFromRemote w).2 !! k = FeedTable w !! k).
Proof.
  intros Hdb Hremote Hkeys.
  assert (is_Some (mapM Local.keyed (merged_of w))) as [rows Hrows].
  { apply mapM_is_Some. eapply Forall_impl; [exact Hkeys|].
    intros i [k Hk]. unfold compose, Local.keyed. rewrite Hk. by eexists. }
  split.
  { intros Hq. by destruct (syncFromRemote_run w rows Hq Hdb Hremote Hrows)
                 as (lg & dl & ->). }
  split.
  { intros i. unfold merged_of. rewrite list_elem_of_omap. split.
    - intros (r & Hr & Hp). apply list_elem_of_filter in Hr as [Hm Hr].
      apply is_feed_mirror_spec in Hm as [Hs Ht]. by exists r.
    - intros (r & Hr & Hs & Ht & Hp). exists r. split; [|done].
      apply list_elem_of_filter. split; [|done].
      by apply is_feed_mirror_spec. }
  split.
  { intros r. by destruct (_decrypt_run r w) as (lg' & ->). }
  split.
  - intros Hq i k Hi Hk Huniq.
    destruct (syncFromRemote_run w rows Hq Hdb Hremote Hrows) as (lg & dl & ->).
    simpl. apply merge_rows_unique.
    + by apply (keyed_rows _ _ Hrows).
    + intros j [Hj Hjk]%(keyed_rows _ _ Hrows). by apply Huniq.
  - intros k Hk.
    destruct (syncFromRemote_table w rows Hdb Hremote Hrows) as [->| ->]; [done|].
    apply merge_rows_other.
    intros i [Hi Hik]%(keyed_rows _ _ Hrows). by apply (Hk i).
Qed.
End Merging.

(** ** The settings blob *)

Section SettingsBlob.
Context `{!Json FeedItem.t} `{!Json Settings} `{!Base64}.

Lemma text_round_trip s : TextDecoder_decode (TextEncoder_encode s) = s.
Proof. apply String.string_of_list_byte_of_string. Qed.

Lemma encryptSettings_run settings w :
  encryptSettings settings w =
  match public_encrypt (privateKey w)
          (TextEncoder_encode (JSON_stringify settings)) with
  | Ok c =>
      let _id := user w +:+ "_settings" in
      let doc := EncryptedRecord.mk _id (user w) None (Some (to_base64 c)) None in
      let w1 := set_logs (logs w ++ [(debug, "encryptSettings:")]) w in
      ((upsert _id (user w) doc (remote_ok w) (encrypted_feed w)).1,
       set_encrypted_feed
         (upsert _id (user w) doc (remote_ok w) (encrypted_feed w)).2
         (set_remote_calls
            (remote_calls w ++ [call_updateOne _id (user w) doc]) w1))
  | Throw e => (Throw e, w)
  end.
Proof.
  unfold encryptSettings. exec.
  destruct (public_encrypt (privateKey w)
              (TextEncoder_encode (JSON_stringify settings))) as [c|e];
    [|done].
  by rewrite updateOne_run.
Qed.

Lemma decryptSettings_run w :
  decryptSettings w =
  let w1 := set_remote_calls
              (remote_calls w ++ [call_findOne (user w +:+ "_settings")]) w in
  if remote_ok w then
    match encrypted_feed w !! (user w +:+ "_settings") ≫= EncryptedRecord.encrypted with
    | Some s =>
        if bool_decide (s ≠ "") then
          match decrypt (privateKey w) (from_base64 s) with
          | Ok b =>
              match JSON_parse (TextDecoder_decode b) with
              | Ok settings =>
                  (Ok settings,
                   set_logs (logs w ++ [(debug, "decryptSettings:")]) w1)
              | Throw e => (Throw e, w1)
              end
          | Throw e => (Throw e, w1)
          end
        else (Ok ∅, w1)
    | None => (Ok ∅, w1)
    end
  else (Throw Remote.unavailable, w1).
Proof.
  unfold decryptSettings. rewrite !bind_run. simpl.
  rewrite bind_run, findOne_run.
  destruct (remote_ok w); [|done]. simpl.
  destruct (encrypted_feed w !! (user w +:+ "_settings")) as [r|]; [|done].
  simpl. destruct (EncryptedRecord.encrypted r) as [s|]; [|done]. simpl.
  case_bool_decide; [|done]. exec.
  destruct (decrypt (privateKey w) (from_base64 s)) as [b|e]; [|done].
  by destruct (JSON_parse (TextDecoder_decode b)).
Qed.

(** C9.  For a key pair that decrypts what it encrypts, a settings value
    that parses back from its serialisation is what [decryptSettings]
    answers after [encryptSettings] of that value has succeeded; and in
    front of a remote store that answers and holds no settings document
    of the user, [decryptSettings] answers the empty structure. *)
Theorem decryptSettings_after_encryptSettings settings res w :
  key_round_trips (privateKey w) →
  base64_round_trips →
  serializable settings →
  (encryptSettings settings w).1 = Ok res →
  (decryptSettings (encryptSettings settings w).2).1 = Ok settings ∧
  ∀ w0, remote_ok w0 = true →
        encrypted_feed w0 !! (user w0 +:+ "_settings") = None →
        (decryptSettings w0).1 = Ok ∅.
Proof.
  intros Hkey Hb64 Hjson Hok. split.
  - rewrite encryptSettings_run in *.
    destruct (public_encrypt (privateKey w)
                (TextEncoder_encode (JSON_stringify settings)))
      as [c|e] eqn:Hc; [|done].
    destruct (Hkey _ _ Hc) as [Hne Hdec].
    destruct (Hb64 c) as [Hfrom Hto].
    simpl in *. rewrite decryptSettings_run. simpl.
    unfold upsert in *.
    destruct (remote_ok w) eqn:Hup; [|done].
    assert (to_base64 c ≠ "") as Hc64 by (intros Hz; by apply Hne, Hto).
    destruct (encrypted_feed w !! (user w +:+ "_settings")) as [old|] eqn:Hold.
    + case_bool_decide; [|done]. simpl. rewrite lookup_insert_eq. simpl.
      rewrite bool_decide_eq_true_2 by done.
      by rewrite Hfrom, Hdec, text_round_trip, Hjson.
    + simpl. rewrite lookup_insert_eq. simpl.
      rewrite bool_decide_eq_true_2 by done.
      by rewrite Hfrom, Hdec, text_round_trip, Hjson.
  - intros w0 Hup Hnone. rewrite decryptSettings_run. simpl.
    by rewrite Hup, Hnone.
Qed.
End SettingsBlob.

(** ** The sample platform is lawful *)

Lemma Sample_key_round_trips : key_round_trips Sample.key.
Proof. intros m c [= <-]. by split. Qed.

Lemma Sample_base64_round_trips : @base64_round_trips Sample.base64.
Proof.
  intros b. split.
  - apply String.list_byte_of_string_of_list_byte.
  - by destruct b.
Qed.

Lemma Sample_scan_print p : Sample.scan (Sample.print p) = Some p.
Proof. induction p as [p IH|p IH|]; simpl; by rewrite ?IH. Qed.

Lemma Sample_serializable `{Countable A} (x : A) :
  @serializable A (Sample.json A) x.
Proof.
  unfold serializable. simpl. rewrite Sample_scan_print. simpl.
  by rewrite decode_encode.
Qed.

(** A settings value saved and read back on the sample platform. *)
Lemma decryptSettings_after_encryptSettings_witness :
  (decryptSettings
     (encryptSettings {["theme" := "dark"]} Sample.world).2).1 =
  Ok {["theme" := "dark"]}.
Proof.
  pose proof (decryptSettings_after_encryptSettings
                {["theme" := "dark"]}
                {| matchedCount := 0; upsertedId := Some "u1_settings" |}
                Sample.world
                Sample_key_round_trips Sample_base64_round_trips
                (Sample_serializable _) eq_refl) as [Hback _].
  exact Hback.
Defined.

(** The second device pulls the two mirrors that decrypt; the document
    that does not decrypt, the one without [txHash] and the one with
    [settings] in its key leave no row. *)
Lemma syncFromRemote_merges_the_feed_mirrors_witness :
  (_syncFromRemote Sample.second_device).1 = Ok tt ∧
  FeedTable (_syncFromRemote Sample.second_device).2 !! "a" =
    Some (FeedItem.set__id (Some "a") (Sample.item "a" 5)) ∧
  FeedTable (_syncFromRemote Sample.second_device).2 !! "b" =
    Some (FeedItem.set__id (Some "b") (Sample.item "b" 6)) ∧
  FeedTable (_syncFromRemote Sample.second_device).2 !! "x" = None ∧
  FeedTable (_syncFromRemote Sample.second_device).2 !! "my_settings" = None.
Proof.
  assert (merged_of Sample.second_device =
          [FeedItem.set__id (Some "a") (Sample.item "a" 5);
           FeedItem.set__id (Some "b") (Sample.item "b" 6)]) as Hmerged
    by (vm_compute; reflexivity).
  destruct (syncFromRemote_merges_the_feed_mirrors Sample.second_device
              eq_refl eq_refl) as (Hok & _ & _ & Hin & Hout).
  { rewrite Hmerged. repeat constructor; by eexists. }
  assert (quiet (listeners Sample.second_device)) as Hq by constructor.
  specialize (Hok Hq). specialize (Hin Hq).
  rewrite Hmerged in Hin, Hout.
  split; [exact Hok|]. split; [|split; [|split]].
  - apply Hin; [apply list_elem_of_here|reflexivity|].
    intros j Hj Hk. apply elem_of_cons in Hj as [->|Hj]; [reflexivity|].
    apply list_elem_of_singleton in Hj as ->. discriminate Hk.
  - apply Hin; [apply list_elem_of_further, list_elem_of_here|reflexivity|].
    intros j Hj Hk. apply elem_of_cons in Hj as [->|Hj]; [discriminate Hk|].
    by apply list_elem_of_singleton in Hj as ->.
  - rewrite Hout; [reflexivity|].
    intros i Hi. apply elem_of_cons in Hi as [->|Hi]; [discriminate|].
    apply list_elem_of_singleton in Hi as ->. discriminate.
  - rewrite Hout; [reflexivity|].
    intros i Hi. apply elem_of_cons in Hi as [->|Hi]; [discriminate|].
    apply list_elem_of_singleton in Hi as ->. discriminate.
Defined.

(** ** Where the code departs from its own intent *)

Section EventLoop.
Context `{!Json FeedItem.t} `{!Json Settings} `{!Base64}.

Lemma deref_preserves {X} (f : World → X) l : preserves f (deref l).
Proof. intros w. unfold deref. by destruct (heap w !! l). Qed.

Lemma run_preserves_pending t : preserves pending (run t).
Proof.
  destruct t as [feedItem|item]; simpl.
  - unfold background_push. frame; apply deref_preserves.
  - unfold retry_push. frame.
Qed.

Lemma run_preserves_listeners t : preserves listeners (run t).
Proof.
  destruct t as [feedItem|item]; simpl.
  - unfold background_push. frame; apply deref_preserves.
  - unfold retry_push. frame.
Qed.

Lemma turn_listeners w : listeners (turn w) = listeners w.
Proof.
  unfold turn. destruct (pending w) as [|t rest]; [done|].
  by rewrite run_preserves_listeners.
Qed.

Lemma turn_pending w : pending (turn w) = tail (pending w).
Proof.
  unfold turn. destruct (pending w) as [|t rest] eqn:Hp; [by rewrite Hp|].
  by rewrite run_preserves_pending.
Qed.

(** After [drain] nothing is pending. *)
Lemma drain_pending w : pending (drain w) = [].
Proof.
  unfold drain. remember (length (pending w)) as n eqn:Hn.
  revert w Hn. induction n as [|n IH]; intros w Hn; simpl.
  - by apply nil_length_inv.
  - apply IH. rewrite turn_pending.
    destruct (pending w); simpl in *; congruence.
Qed.

(** The push that [write] leaves pending does not touch the Feed table,
    whatever happens to it. *)
Lemma background_push_leaves_the_table feedItem w :
  FeedTable (background_push feedItem w).2 = FeedTable w.
Proof. by destruct (background_push_run feedItem w) as (lg & docs & calls & ->). Qed.

(** The retry of a pass flags the row as synced, whatever happened to the
    push. *)
Lemma retry_push_flags_the_row item k row w :
  quiet (listeners w) →
  db_ok w = true → FeedItem.id item = Some k → FeedTable w !! k = Some row →
  FeedTable (retry_push item w).2 !! k = Some (FeedItem.set_sync (Some true) row).
Proof.
  intros Hq Hdb Hk Hrow. unfold retry_push. rewrite bind_run.
  destruct (_encrypt_run item w) as (res & lg & docs & calls & ->).
  unfold unawaited.
  destruct (update_set_sync_run (FeedItem.id item) true
              (set_remote_calls calls (set_encrypted_feed docs (set_logs lg w))))
    as (lg' & dl & ->); [done|].
  simpl. by rewrite Hk, Hdb, Hrow, lookup_insert_eq.
Qed.
End EventLoop.


(** C1 on the code, at a push that fails.  A caller writes the item [a]
    while the remote store does not answer, or with a key whose encryption
    fails.  [write] returns normally and the failure is in the log, but it
    is [_encrypt] that caught and logged it: the handler that [write]
    attaches with [catch] never runs, the row keeps its [sync] field unset
    and no row is flagged [sync = false] for the next pass. *)
Theorem write_push_failure_leaves_sync_unset :
  let remote_down := set_remote_ok false (Sample.holding (Sample.item "a" 5)) in
  let bad_key := set_privateKey Sample.broken_key (Sample.holding (Sample.item "a" 5)) in
  ((write 0%nat remote_down).1 = Ok tt ∧
   pending (write 0%nat remote_down).2 = [push_from_write 0%nat] ∧
   let w' := drain (write 0%nat remote_down).2 in
   encrypted_feed w' = ∅ ∧
   logs w' = [(debug, "notifyChange"); (error, "error _encrypt feedItem:")] ∧
   FeedItem.sync <$> FeedTable w' !! "a" = Some None ∧
   (Local.find_sync_false w').1 = Ok []) ∧
  ((write 0%nat bad_key).1 = Ok tt ∧
   let w' := drain (write 0%nat bad_key).2 in
   encrypted_feed w' = ∅ ∧
   logs w' = [(debug, "notifyChange"); (error, "error _encrypt feedItem:")] ∧
   FeedItem.sync <$> FeedTable w' !! "a" = Some None ∧
   (Local.find_sync_false w').1 = Ok []).
Proof. repeat split; by vm_compute. Qed.

(** C2 on the code, at a re-push that fails.  The local store holds the row
    [a] flagged [sync = false].  A pass runs with a key whose encryption
    fails, or the remote store stops answering once the pass has made its
    query.  The push is re-attempted and fails, no mirror exists, and the
    row is flagged [sync = true] all the same: the next pass finds nothing
    to retry. *)
Theorem failed_retry_is_flagged_as_synced :
  let bad_key := set_privateKey Sample.broken_key Sample.with_unsynced in
  ((_syncFromRemote bad_key).1 = Ok tt ∧
   pending (_syncFromRemote bad_key).2 = [push_from_sync Sample.unsynced_a] ∧
   let w' := drain (_syncFromRemote bad_key).2 in
   encrypted_feed w' = ∅ ∧
   (error, "error _encrypt feedItem:") ∈ logs w' ∧
   FeedItem.sync <$> FeedTable w' !! "a" = Some (Some true) ∧
   pending (_syncFromRemote w').2 = []) ∧
  ((_syncFromRemote Sample.with_unsynced).1 = Ok tt ∧
   let w' := drain (set_remote_ok false (_syncFromRemote Sample.with_unsynced).2) in
   encrypted_feed w' = ∅ ∧
   (error, "error _encrypt feedItem:") ∈ logs w' ∧
   FeedItem.sync <$> FeedTable w' !! "a" = Some (Some true) ∧
   pending (_syncFromRemote (set_remote_ok true w')).2 = []).
Proof.
  repeat split; try by vm_compute.
  - vm_compute. do 3 apply list_elem_of_further. apply list_elem_of_here.
  - vm_compute. do 3 apply list_elem_of_further. apply list_elem_of_here.
Qed.

(** * Further properties *)

(** ** Listeners *)

Lemma reached_subseteq data ls l : l ∈ reached data ls → l ∈ ls.
Proof.
  induction ls as [|x ls IH]; simpl; [done|].
  destruct (cb x data).
  - intros [->|Hin]%elem_of_cons; [left|right; by apply IH].
  - intros ->%list_elem_of_singleton. left.
Qed.

(** X1.  After [off(f)] the callback [f] is registered no more, however
    often it had been registered, and no notification calls it; the other
    listeners stay registered, in their order. *)
Theorem off_unregisters_for_good f data w :
  let w' := (off f w).2 in
  (∀ l, l ∈ listeners w' → lid l ≠ lid f) ∧
  listeners w' = filter (λ l, lid l ≠ lid f) (listeners w) ∧
  (∀ d, (lid f, d) ∈ delivered (_notifyChange data w').2 → (lid f, d) ∈ delivered w).
Proof.
  simpl. split; [|split; [done|]].
  - intros l Hl. by apply list_elem_of_filter in Hl as [Hne _].
  - intros d. rewrite _notifyChange_run. simpl.
    intros [Hold|Hnew]%elem_of_app; [done|].
    apply list_elem_of_fmap in Hnew as (l & [= Hlid _] & Hl).
    apply reached_subseteq, list_elem_of_filter in Hl as [Hne _].
    by destruct Hne.
Qed.

(** ** Feed pages: bounds and composition *)

Lemma getFeedPage_answer numResults offset w :
  (getFeedPage numResults offset w).1 =
  Ok (if db_ok w then page numResults offset (FeedTable w) else []).
Proof. rewrite getFeedPage_run. by destruct (db_ok w). Qed.

Lemma orderBy_date_length table :
  length (Local.by_date table) = size table.
Proof.
  unfold Local.by_date, size, map_size.
  rewrite length_fmap, merge_sort_Permutation.
  apply length_map_to_list.
Qed.

Lemma page_rows numResults offset table i :
  i ∈ page numResults offset table →
  (∃ k, table !! k = Some i) ∧ shown i = true.
Proof.
  intros Hi. split.
  - apply newest_first_rows.
    eapply elem_of_sublist; [exact Hi|apply page_sublist].
  - unfold page in Hi. apply elem_of_take in Hi as (n & Hn & _).
    by apply list_elem_of_lookup_2, list_elem_of_filter in Hn as [Hs _].
Qed.

(** X2.  At the bounds [getFeedPage] answers a page and never an error:
    the empty page for a [numResults] of zero or less, the page of offset 0
    for a negative [offset], and the empty page for an [offset] at or past
    the number of rows of the feed. *)
Theorem getFeedPage_at_the_bounds numResults offset w :
  (numResults ≤ 0 → (getFeedPage numResults offset w).1 = Ok []) ∧
  (offset ≤ 0 →
     (getFeedPage numResults offset w).1 = (getFeedPage numResults 0 w).1) ∧
  (Z.of_nat (size (FeedTable w)) ≤ offset →
     (getFeedPage numResults offset w).1 = Ok []).
Proof.
  rewrite !getFeedPage_answer. unfold page. repeat split.
  - intros Hn. replace (Z.to_nat numResults) with 0%nat by lia.
    by destruct (db_ok w).
  - intros Ho. by replace (Z.to_nat offset) with (Z.to_nat 0) by lia.
  - intros Ho. rewrite drop_ge; [by rewrite filter_nil, take_nil; destruct (db_ok w)|].
    etrans; [apply sublist_length, from_first_sublist|].
    rewrite length_rev, orderBy_date_length. lia.
Qed.

(** X3.  Asking for more results extends the page: the page of
    [numResults] rows at an offset is the beginning of the page of
    [numResults + more] rows at that offset. *)
Theorem getFeedPage_longer_page_extends numResults more offset w :
  0 ≤ more →
  ∃ p rest,
    (getFeedPage numResults offset w).1 = Ok p ∧
    (getFeedPage (numResults + more) offset w).1 = Ok (p ++ rest).
Proof.
  intros Hmore. rewrite !getFeedPage_answer.
  destruct (db_ok w); [|by exists [], []].
  unfold page.
  set (l := filter _ _).
  exists (take (Z.to_nat numResults) l),
         (take (Z.to_nat (numResults + more) - Z.to_nat numResults)
               (drop (Z.to_nat numResults) l)).
  split; [done|]. f_equal.
  rewrite <- (take_drop (Z.to_nat numResults) (take (Z.to_nat (numResults + more)) l)).
  rewrite take_take, skipn_firstn_comm. f_equal. f_equal. lia.
Qed.

(** The sample feed, asked for one row and then for two. *)
Lemma getFeedPage_longer_page_extends_witness :
  ∃ p rest,
    (getFeedPage 1 0 Sample.with_feed).1 = Ok p ∧
    (getFeedPage (1 + 1) 0 Sample.with_feed).1 = Ok (p ++ rest).
Proof. apply (getFeedPage_longer_page_extends 1 1 0 Sample.with_feed). lia. Defined.

(** X4.  When no row of the feed is excluded, successive pages tile the
    feed: the page of [n] rows at offset [o] followed by the page of [m]
    rows at offset [o + n] is the page of [n + m] rows at offset [o]. *)
Theorem getFeedPage_pages_tile_a_feed_without_excluded_rows n m o w :
  0 ≤ n → 0 ≤ m → 0 ≤ o → db_ok w = true →
  (∀ k i, FeedTable w !! k = Some i → shown i = true) →
  ∃ p1 p2,
    (getFeedPage n o w).1 = Ok p1 ∧
    (getFeedPage m (o + n) w).1 = Ok p2 ∧
    (getFeedPage (n + m) o w).1 = Ok (p1 ++ p2).
Proof.
  intros Hn Hm Ho Hdb Hshown. rewrite !getFeedPage_answer, Hdb.
  eexists _, _. split; [done|]. split; [done|]. f_equal.
  unfold page.
  assert (∀ l : list FeedItem.t,
            (∀ i, i ∈ l → shown i = true) →
            filter (λ i, shown i = true) l = l) as Hall.
  { intros l Hl. induction l as [|x l IH]; [done|].
    rewrite filter_cons_True by (apply Hl; left).
    f_equal. apply IH. intros i Hi. apply Hl. by right. }
  assert (∀ j, filter (λ i, shown i = true)
                 (drop j (rev (Local.by_date (FeedTable w)))) =
               drop j (rev (Local.by_date (FeedTable w)))) as Hdrop.
  { intros j. apply Hall. intros i Hi.
    assert (i ∈ rev (Local.by_date (FeedTable w))) as Hin
      by (eapply elem_of_sublist; [exact Hi|apply sublist_drop]).
    apply newest_first_rows in Hin as [k Hk]. by apply (Hshown k). }
  rewrite from_first_all; cycle 1.
  { apply Forall_forall. intros i [k Hk]%newest_first_rows. by apply (Hshown k). }
  rewrite !Hdrop.
  replace (Z.to_nat (o + n)) with (Z.to_nat o + Z.to_nat n)%nat by lia.
  replace (Z.to_nat (n + m)) with (Z.to_nat n + Z.to_nat m)%nat by lia.
  rewrite <- drop_drop.
  set (l := drop (Z.to_nat o) _).
  rewrite <- (take_drop (Z.to_nat n) (take (Z.to_nat n + Z.to_nat m) l)).
  rewrite take_take, skipn_firstn_comm. f_equal; f_equal; lia.
Qed.

(** A feed of live rows only, read as two pages of one row. *)
Lemma getFeedPage_pages_tile_a_feed_without_excluded_rows_witness :
  ∃ p1 p2,
    (getFeedPage 1 0 Sample2.live_feed).1 = Ok p1 ∧
    (getFeedPage 1 (0 + 1) Sample2.live_feed).1 = Ok p2 ∧
    (getFeedPage (1 + 1) 0 Sample2.live_feed).1 = Ok (p1 ++ p2).
Proof.
  apply (getFeedPage_pages_tile_a_feed_without_excluded_rows 1 1 0 Sample2.live_feed);
    [lia|lia|lia|reflexivity|].
  intros k i Hk.
  apply (map_Forall_lookup_1 (λ _ i, shown i = true) (FeedTable Sample2.live_feed) k i);
    [|exact Hk].
  apply map_Forall_insert_2; [reflexivity|].
  apply map_Forall_insert_2; [reflexivity|].
  apply map_Forall_empty.
Defined.

(** X5.  A first page long enough for the whole feed holds the rows that
    are not excluded, all of them and no other. *)
Theorem getFeedPage_first_page_is_complete numResults w :
  db_ok w = true →
  Z.of_nat (size (FeedTable w)) ≤ numResults →
  ∃ p, (getFeedPage numResults 0 w).1 = Ok p ∧
       ∀ i, i ∈ p ↔ (∃ k, FeedTable w !! k = Some i) ∧ shown i = true.
Proof.
  intros Hdb Hsize. rewrite getFeedPage_answer, Hdb.
  eexists. split; [done|]. intros i. split; [apply page_rows|].
  intros [Hrow Hshown]. unfold page.
  rewrite take_ge.
  - change (Z.to_nat 0) with 0%nat. rewrite drop_0, (filter_from_first shown).
    apply list_elem_of_filter. split; [done|]. by apply newest_first_rows.
  - etrans; [apply length_filter|].
    change (Z.to_nat 0) with 0%nat. rewrite drop_0.
    etrans; [apply sublist_length, from_first_sublist|].
    rewrite length_rev, orderBy_date_length. lia.
Qed.

(** The sample feed, asked for ten rows. *)
Lemma getFeedPage_first_page_is_complete_witness :
  ∃ p, (getFeedPage 10 0 Sample.with_feed).1 = Ok p ∧
       ∀ i, i ∈ p ↔ (∃ k, FeedTable Sample.with_feed !! k = Some i) ∧ shown i = true.
Proof.
  apply (getFeedPage_first_page_is_complete 10 Sample.with_feed);
    [reflexivity|by vm_compute].
Defined.

(** ** Rows under their own key *)

Lemma keeps_unawaited {A} P (m : M A) : keeps P m → keeps P (unawaited m).
Proof. intros Hm w Hw. specialize (Hm w Hw). unfold unawaited. by destruct (m w). Qed.

Lemma keeps_bind {A B} P (m : M A) (k : A → M B) :
  keeps P m → (∀ a, keeps P (k a)) → keeps P (m ≫= k).
Proof.
  intros Hm Hk w Hw. rewrite bind_run. specialize (Hm w Hw).
  destruct (m w) as [[a|e] w']; simpl in *; [|done]. by apply Hk.
Qed.

Lemma keeps_table {A} (m : M A) :
  preserves FeedTable m → keeps (λ w, well_keyed (FeedTable w)) m.
Proof. intros Hm w Hw. simpl. by rewrite Hm. Qed.

Lemma well_keyed_merge_rows table rows :
  well_keyed table →
  (∀ k i, (k, i) ∈ rows → FeedItem._id i = Some k) →
  well_keyed (merge_rows table rows).
Proof.
  revert table. induction rows as [|[k' j] rows IH]; intros table Ht Hrows; [done|].
  simpl. apply IH.
  - intros k i [[<- <-]|[_ Hk]]%lookup_insert_Some; [|by apply Ht].
    apply Hrows. left.
  - intros k i Hi. apply Hrows. by right.
Qed.

Lemma save_keeps_well_keyed items :
  keeps (λ w, well_keyed (FeedTable w)) (Local.save items).
Proof.
  intros w Hw. unfold Local.save. destruct (db_ok w); [|done].
  destruct (mapM Local.keyed items) as [rows|] eqn:Hrows; [|done].
  destruct (bulkPut_shape rows w) as (lg & dl & ->). simpl.
  destruct (announced _ _ rows); [|done].
  apply well_keyed_merge_rows; [done|].
  intros k i Hi. by apply (keyed_rows _ _ Hrows) in Hi as [_ Hk].
Qed.

Lemma update_set_sync_keeps_well_keyed key v :
  keeps (λ w, well_keyed (FeedTable w)) (Local.update_set_sync key v).
Proof.
  intros w Hw.
  destruct (update_set_sync_shape key v w) as (lg & dl & r & t & -> & [->| ->]);
    simpl; [done|].
  unfold flagged. destruct key as [k|]; [|done].
  destruct (FeedTable w !! k) as [row|] eqn:Hrow; [|done].
  intros k' i [[<- <-]|[_ Hk]]%lookup_insert_Some; [|by apply Hw].
  simpl. by apply Hw.
Qed.

(** Splits a goal on the rows' keys along the computation. *)
Ltac keyed_step :=
  match goal with
  | |- keeps _ (Local.save _) => apply save_keeps_well_keyed
  | |- keeps _ (Local.update_set_sync _ _) => apply update_set_sync_keeps_well_keyed
  | |- keeps _ (unawaited _) => apply keeps_unawaited
  | |- keeps _ (mbind _ _) => apply keeps_bind; [|intros ?]
  | |- keeps _ (if ?b then _ else _) => destruct b
  | |- keeps _ (deref _) => apply keeps_table, deref_preserves
  | |- keeps _ _ => apply keeps_table; solve [frame | unfold assign; frame]
  end.

Section WellKeyed.
Context `{!Json FeedItem.t} `{!Json Settings} `{!Base64}.

Lemma write_keeps_well_keyed feedItem :
  keeps (λ w, well_keyed (FeedTable w)) (write feedItem).
Proof. unfold write. repeat keyed_step. Qed.

Lemma syncFromRemote_keeps_well_keyed :
  keeps (λ w, well_keyed (FeedTable w)) _syncFromRemote.
Proof. unfold _syncFromRemote. repeat keyed_step. Qed.

Lemma run_keeps_well_keyed t :
  keeps (λ w, well_keyed (FeedTable w)) (run t).
Proof.
  destruct t as [feedItem|item]; simpl.
  - intros w Hw. by rewrite background_push_leaves_the_table.
  - unfold retry_push. repeat keyed_step.
Qed.

(** X6.  The local feed keeps every row under the row's own [_id]: when it
    is so before [write], before a reconciliation pass or before a turn of
    a pending push, it is so after, whether the call returned or threw. *)
Theorem rows_stay_under_their_own_key feedItem w :
  well_keyed (FeedTable w) →
  well_keyed (FeedTable (write feedItem w).2) ∧
  well_keyed (FeedTable (_syncFromRemote w).2) ∧
  well_keyed (FeedTable (turn w)) ∧
  well_keyed (FeedTable (drain w)).
Proof.
  intros Hw. split; [by apply write_keeps_well_keyed|].
  split; [by apply syncFromRemote_keeps_well_keyed|].
  assert (∀ w0, well_keyed (FeedTable w0) → well_keyed (FeedTable (turn w0))) as Hturn.
  { intros w0 Hw0. unfold turn. destruct (pending w0) as [|t rest]; [done|].
    by apply run_keeps_well_keyed. }
  split; [by apply Hturn|].
  unfold drain. generalize (length (pending w)). intros n.
  revert w Hw. induction n as [|n IH]; intros w Hw; simpl; [done|].
  by apply IH, Hturn.
Qed.
End WellKeyed.

(** The first device of the sample, once it has written [a] and its push
    has run. *)
Lemma rows_stay_under_their_own_key_witness :
  ∃ i, FeedTable (drain (write 0%nat (Sample.holding (Sample.item "a" 5))).2) !! "a"
         = Some i ∧
       FeedItem._id i = Some "a".
Proof.
  assert (well_keyed (FeedTable (Sample.holding (Sample.item "a" 5)))) as H0
    by (intros k i Hk; change ((∅ : gmap string FeedItem.t) !! k = Some i) in Hk;
        by rewrite lookup_empty in Hk).
  pose proof (rows_stay_under_their_own_key 0%nat _ H0) as (Hwrite & _).
  pose proof (rows_stay_under_their_own_key 0%nat _ Hwrite) as (_ & _ & _ & Hdrain).
  exists (FeedItem.set__id (Some "a") (Sample.item "a" 5)).
  assert (FeedTable (drain (write 0%nat (Sample.holding (Sample.item "a" 5))).2) !! "a"
          = Some (FeedItem.set__id (Some "a") (Sample.item "a" 5))) as Hrow
    by (by vm_compute).
  split; [exact Hrow|exact (Hdrain _ _ Hrow)].
Defined.

(** X7.  In a feed that keeps its rows under their own [_id], a page never
    shows a row twice. *)
Theorem getFeedPage_shows_no_row_twice numResults offset w :
  well_keyed (FeedTable w) →
  ∃ p, (getFeedPage numResults offset w).1 = Ok p ∧ NoDup p.
Proof.
  intros Hw. rewrite getFeedPage_answer.
  destruct (db_ok w); [|exists []; split; [done|constructor]].
  eexists. split; [done|].
  eapply sublist_NoDup; [|apply page_sublist].
  apply NoDup_ListNoDup, List.NoDup_rev, NoDup_ListNoDup.
  unfold Local.by_date. apply NoDup_fmap_2_strong.
  - intros [k1 i1] [k2 i2] H1 H2 Heq. simpl in Heq. subst i2.
    rewrite merge_sort_Permutation in H1, H2.
    apply elem_of_map_to_list in H1, H2.
    apply Hw in H1, H2. congruence.
  - rewrite merge_sort_Permutation. apply NoDup_map_to_list.
Qed.

Lemma getFeedPage_shows_no_row_twice_witness :
  ∃ p, (getFeedPage 10 0 Sample.with_feed).1 = Ok p ∧ NoDup p.
Proof.
  apply (getFeedPage_shows_no_row_twice 10 0 Sample.with_feed).
  unfold Sample.with_feed. simpl.
  intros k i [[<- <-]|[_ Hk]]%lookup_insert_Some; [reflexivity|].
  apply lookup_insert_Some in Hk as [[<- <-]|[_ Hk]]; [reflexivity|].
  by rewrite lookup_empty in Hk.
Defined.

(** ** The push of a feed item *)

Section Push.
Context `{!Json FeedItem.t} `{!Json Settings} `{!Base64}.

(** [_encrypt], step by step. *)
Lemma _encrypt_exact feedItem w :
  _encrypt feedItem w =
  match public_encrypt (privateKey w) (message feedItem) with
  | Ok c =>
      let _id := mirror_key feedItem (user w) in
      let doc := mirror feedItem (user w) c in
      let up := upsert _id (user w) doc (remote_ok w) (encrypted_feed w) in
      let w1 := set_encrypted_feed up.2
                  (set_remote_calls
                     (remote_calls w ++ [call_updateOne _id (user w) doc]) w) in
      match up.1 with
      | Ok res => (Ok (Some res),
                   set_logs (logs w ++ [(debug, "_encrypt result:")]) w1)
      | Throw _ => (Ok None,
                    set_logs (logs w ++ [(error, "error _encrypt feedItem:")]) w1)
      end
  | Throw _ =>
      (Ok None, set_logs (logs w ++ [(error, "error _encrypt feedItem:")]) w)
  end.
Proof.
  unfold _encrypt, message, mirror, mirror_key. exec.
  destruct (public_encrypt (privateKey w) _) as [c|e]; simpl; [|done].
  rewrite updateOne_run. simpl.
  by destruct (upsert _ _ _ _ _) as [[res|e] docs].
Qed.

Lemma upsert_other _id user_id doc up docs k :
  k ≠ _id → (upsert _id user_id doc up docs).2 !! k = docs !! k.
Proof.
  intros Hk. unfold upsert. destruct up; [|done].
  destruct (docs !! _id) as [old|]; [case_bool_decide|]; simpl;
    by rewrite ?lookup_insert_ne.
Qed.

Lemma upsert_stored _id user_id doc up docs res :
  (upsert _id user_id doc up docs).1 = Ok res →
  (upsert _id user_id doc up docs).2 = <[_id := doc]> docs.
Proof.
  unfold upsert. destruct up; [|done].
  by destruct (docs !! _id) as [old|]; [case_bool_decide|].
Qed.

Lemma upsert_refused _id user_id doc up docs e :
  (upsert _id user_id doc up docs).1 = Throw e →
  (upsert _id user_id doc up docs).2 = docs.
Proof.
  unfold upsert. destruct up; [|done].
  by destruct (docs !! _id) as [old|]; [case_bool_decide|].
Qed.

Lemma upsert_answers _id user_id doc docs :
  (∀ old, docs !! _id = Some old → EncryptedRecord.user_id old = user_id) →
  ∃ res, (upsert _id user_id doc true docs).1 = Ok res.
Proof.
  intros Hown. unfold upsert.
  destruct (docs !! _id) as [old|] eqn:Hold; [|by eexists].
  rewrite bool_decide_true by by apply Hown. by eexists.
Qed.

(** X8.  [_encrypt] writes at most one remote document, the mirror of the
    item under the key made of the item's id and the user's id.  Every
    other document is as it was.  It answers a result exactly when the
    mirror has been stored, which it is whenever the encryption succeeds
    and the remote store answers and holds under that key nothing of
    another user; when it answers nothing the collection is as it was.
    When the encryption fails, the remote store is not called at all;
    otherwise it is called once. *)
Theorem _encrypt_stores_one_mirror feedItem w :
  let w' := (_encrypt feedItem w).2 in
  let _id := mirror_key feedItem (user w) in
  (∀ k, k ≠ _id → encrypted_feed w' !! k = encrypted_feed w !! k) ∧
  (∀ res, (_encrypt feedItem w).1 = Ok (Some res) →
     ∃ c, public_encrypt (privateKey w) (message feedItem) = Ok c ∧
          encrypted_feed w' = <[_id := mirror feedItem (user w) c]> (encrypted_feed w)) ∧
  ((_encrypt feedItem w).1 = Ok None → encrypted_feed w' = encrypted_feed w) ∧
  (∀ c, public_encrypt (privateKey w) (message feedItem) = Ok c →
     remote_ok w = true →
     (∀ old, encrypted_feed w !! _id = Some old →
             EncryptedRecord.user_id old = user w) →
     ∃ res, (_encrypt feedItem w).1 = Ok (Some res)) ∧
  (∀ e, public_encrypt (privateKey w) (message feedItem) = Throw e →
     remote_calls w' = remote_calls w) ∧
  (∀ c, public_encrypt (privateKey w) (message feedItem) = Ok c →
     remote_calls w' =
       remote_calls w ++ [call_updateOne _id (user w) (mirror feedItem (user w) c)]).
Proof.
  simpl. rewrite _encrypt_exact.
  destruct (public_encrypt (privateKey w) (message feedItem)) as [c|e] eqn:Hc; simpl.
  - destruct (upsert _ _ _ _ _).1 as [res|e] eqn:Hup; simpl.
    + repeat split; try done.
      * intros k Hk. by apply upsert_other.
      * intros res' _. exists c. split; [done|]. by eapply upsert_stored.
      * intros _ _ _ _. by eexists.
      * by intros c' [= <-].
    + repeat split; try done.
      * intros k Hk. by apply upsert_other.
      * intros _. by eapply upsert_refused.
      * intros c' [= <-] Hok Hown. rewrite Hok in Hup.
        destruct (upsert_answers (mirror_key feedItem (user w)) (user w)
                    (mirror feedItem (user w) c) (encrypted_feed w) Hown) as [res Hres].
        congruence.
      * by intros c' [= <-].
  - repeat split; try done.
Qed.

(** X9.  A second push of an item adds no document: the keys of the remote
    collection after pushing an item twice are its keys after pushing it
    once, whatever the two encryptions gave. *)
Theorem _encrypt_again_adds_no_document feedItem w w1 :
  user w1 = user w →
  encrypted_feed w1 = encrypted_feed (_encrypt feedItem w).2 →
  (∃ res, (_encrypt feedItem w).1 = Ok (Some res)) →
  dom (encrypted_feed (_encrypt feedItem w1).2) = dom (encrypted_feed w1).
Proof.
  intros Hu Hdocs [res Hres].
  assert (mirror_key feedItem (user w) ∈ dom (encrypted_feed w1)) as Hin.
  { rewrite Hdocs. rewrite _encrypt_exact in Hres |- *.
    destruct (public_encrypt (privateKey w) (message feedItem)) as [c|e]; [|done].
    simpl in *. destruct (upsert _ _ _ _ _).1 as [r|e] eqn:Hup; [|done].
    simpl. rewrite (upsert_stored _ _ _ _ _ _ Hup), dom_insert_L.
    apply elem_of_union_l, elem_of_singleton. reflexivity. }
  rewrite (_encrypt_exact feedItem w1), Hu.
  destruct (public_encrypt (privateKey w1) (message feedItem)) as [c|e]; [|done].
  simpl. destruct (upsert _ _ _ _ _).1 as [r|e] eqn:Hup; simpl.
  - rewrite (upsert_stored _ _ _ _ _ _ Hup), dom_insert_L.
    by apply subseteq_union_1_L, singleton_subseteq_l.
  - by rewrite (upsert_refused _ _ _ _ _ _ Hup).
Qed.

Lemma plain_mirror key feedItem user_id c :
  key_round_trips key → base64_round_trips → serializable feedItem →
  public_encrypt key (message feedItem) = Ok c →
  plain key (mirror feedItem user_id c) = Some feedItem.
Proof.
  intros Hkey Hb64 Hser Hc. unfold plain, mirror. simpl.
  destruct (Hb64 c) as [-> _]. destruct (Hkey _ _ Hc) as [_ ->].
  unfold message. by rewrite text_round_trip, Hser.
Qed.

(** X10.  What [_encrypt] stores, [_decrypt] gives back: for a key pair
    that decrypts what it encrypts and an item that parses back from its
    serialisation, after a push that answered a result the remote
    collection holds under the mirror's key a document that [_decrypt]
    turns into the item, on every instance that holds the same key
    pair. *)
Theorem _decrypt_after__encrypt feedItem res w :
  key_round_trips (privateKey w) → base64_round_trips → serializable feedItem →
  (_encrypt feedItem w).1 = Ok (Some res) →
  ∃ r, encrypted_feed (_encrypt feedItem w).2 !! mirror_key feedItem (user w) = Some r ∧
       EncryptedRecord.user_id r = user w ∧
       EncryptedRecord.txHash r = FeedItem.id feedItem ∧
       EncryptedRecord.date r = Some (FeedItem.date feedItem) ∧
       ∀ w2, privateKey w2 = privateKey w → (_decrypt r w2).1 = Ok (Some feedItem).
Proof.
  intros Hkey Hb64 Hser Hres. rewrite _encrypt_exact in Hres |- *.
  destruct (public_encrypt (privateKey w) (message feedItem)) as [c|e] eqn:Hc; [|done].
  simpl in *. destruct (upsert _ _ _ _ _).1 as [r|e] eqn:Hup; [|done].
  simpl. rewrite (upsert_stored _ _ _ _ _ _ Hup), lookup_insert_eq.
  eexists. split; [done|]. repeat split.
  intros w2 Hw2. destruct (_decrypt_run (mirror feedItem (user w) c) w2) as [lg ->].
  simpl. rewrite Hw2. f_equal. by apply plain_mirror.
Qed.
End Push.

Lemma _encrypt_again_adds_no_document_witness :
  let w := Sample.holding (Sample.item "a" 5) in
  dom (encrypted_feed (_encrypt (Sample.item "a" 5) (_encrypt (Sample.item "a" 5) w).2).2)
  = dom (encrypted_feed (_encrypt (Sample.item "a" 5) w).2).
Proof.
  apply (_encrypt_again_adds_no_document (Sample.item "a" 5)
           (Sample.holding (Sample.item "a" 5))
           (_encrypt (Sample.item "a" 5) (Sample.holding (Sample.item "a" 5))).2);
    [reflexivity|reflexivity|].
  eexists. vm_compute. reflexivity.
Defined.

Lemma _decrypt_after__encrypt_witness :
  let i := Sample.item "a" 5 in
  ∃ r, encrypted_feed (_encrypt i Sample.world).2 !! "a_u1" = Some r ∧
       (_decrypt r Sample.world).1 = Ok (Some i).
Proof.
  destruct (_decrypt_after__encrypt (Sample.item "a" 5)
              {| matchedCount := 0; upsertedId := Some "a_u1" |}
              Sample.world
              Sample_key_round_trips Sample_base64_round_trips
              (Sample_serializable _) eq_refl)
    as (r & Hr & _ & _ & _ & Hback).
  exists r. split; [exact Hr|]. by apply Hback.
Defined.

(** ** From one device to another *)

Section Devices.
Context `{!Json FeedItem.t} `{!Json Settings} `{!Base64}.

Lemma newItems_of_spec w r :
  r ∈ newItems_of w ↔
  (∃ k, encrypted_feed w !! k = Some r) ∧
  Remote.matches (user w) (lastSync_of (FeedTable w)) r = true.
Proof.
  unfold newItems_of. rewrite list_elem_of_filter, list_elem_of_fmap. split.
  - intros [Hm ([k r'] & -> & Hr%elem_of_map_to_list)]. split; [by exists k|done].
  - intros [[k Hr] Hm]. split; [done|].
    exists (k, r). split; [done|]. by apply elem_of_map_to_list.
Qed.

Lemma mirror_is_feed_mirror feedItem user_id c :
  is_feed_mirror (mirror feedItem user_id c) = true ↔
  truthy (FeedItem.id feedItem) = true ∧
  String_includes "settings" (mirror_key feedItem user_id) = false.
Proof.
  unfold is_feed_mirror, mirror. simpl.
  rewrite andb_true_iff, negb_true_iff. tauto.
Qed.

(** X11.  An item pushed from one device reaches the local store of
    another.  The second device holds the key pair of the first and stands
    before a remote collection that holds the mirror [_encrypt] made of the
    item.  When the item has a non-empty id, the mirror's key does not
    contain [settings], and the item is dated after every row the second
    device holds, the item is among those a pass of the second device
    merges, and when no listener of that device throws the pass returns and
    puts the item into its local store under the item's [_id], provided no
    other document of that pass decrypts to an item of the same [_id]. *)
Theorem pushed_item_reaches_another_device feedItem k c w2 :
  db_ok w2 = true → remote_ok w2 = true →
  key_round_trips (privateKey w2) → base64_round_trips → serializable feedItem →
  public_encrypt (privateKey w2) (message feedItem) = Ok c →
  encrypted_feed w2 !! mirror_key feedItem (user w2) =
    Some (mirror feedItem (user w2) c) →
  truthy (FeedItem.id feedItem) = true →
  String_includes "settings" (mirror_key feedItem (user w2)) = false →
  lastSync_of (FeedTable w2) < FeedItem.date feedItem →
  FeedItem._id feedItem = Some k →
  Forall (λ i, is_Some (FeedItem._id i)) (merged_of w2) →
  (∀ j, j ∈ merged_of w2 → FeedItem._id j = Some k → j = feedItem) →
  feedItem ∈ merged_of w2 ∧
  (quiet (listeners w2) →
   (_syncFromRemote w2).1 = Ok tt ∧
   FeedTable (_syncFromRemote w2).2 !! k = Some feedItem).
Proof.
  intros Hdb Hup Hkey Hb64 Hser Hc Hdoc Hid Hset Hdate Hk Hkeyed Huniq.
  assert (feedItem ∈ merged_of w2) as Hin.
  { unfold merged_of. apply list_elem_of_omap.
    exists (mirror feedItem (user w2) c). split; [|by apply plain_mirror].
    apply list_elem_of_filter. split; [by apply mirror_is_feed_mirror|].
    apply newItems_of_spec. split; [by eexists|].
    unfold Remote.matches, mirror. simpl.
    rewrite !bool_decide_true; [done|lia|done]. }
  split; [done|]. intros Hq.
  destruct (mapM Local.keyed (merged_of w2)) as [rows|] eqn:Hrows.
  - destruct (syncFromRemote_run w2 rows Hq Hdb Hup Hrows) as (lg & dl & ->). simpl.
    split; [done|]. apply merge_rows_unique.
    + by apply (keyed_rows _ _ Hrows).
    + intros j [Hj Hjk]%(keyed_rows _ _ Hrows). by apply Huniq.
  - apply mapM_None_1 in Hrows. apply Exists_exists in Hrows as (i & Hi & Hnone).
    rewrite Forall_forall in Hkeyed. destruct (Hkeyed i Hi) as [k' Hk'].
    unfold Local.keyed in Hnone. rewrite Hk' in Hnone. discriminate Hnone.
Qed.
End Devices.

(** The item [a] written and pushed on one device, pulled by another. *)
Lemma pushed_item_reaches_another_device_witness :
  FeedTable (_syncFromRemote Sample2.reader).2 !! "a" =
    Some (FeedItem.set__id (Some "a") (Sample.item "a" 5)).
Proof.
  assert (merged_of Sample2.reader =
          [FeedItem.set__id (Some "a") (Sample.item "a" 5)]) as Hmerged
    by (vm_compute; reflexivity).
  unfold Sample.FeedItem_json in Hmerged.
  destruct (pushed_item_reaches_another_device
              (FeedItem.set__id (Some "a") (Sample.item "a" 5)) "a"
              (Byte.x01 :: message (FeedItem.set__id (Some "a") (Sample.item "a" 5)))
              Sample2.reader eq_refl eq_refl
              Sample_key_round_trips Sample_base64_round_trips
              (Sample_serializable _) eq_refl)
    as (_ & Hpass).
  - by vm_compute.
  - by vm_compute.
  - by vm_compute.
  - by vm_compute.
  - reflexivity.
  - rewrite Hmerged. repeat constructor. by eexists.
  - rewrite Hmerged. by intros j ->%list_elem_of_singleton _.
  - apply Hpass. constructor.
Defined.

(** ** The retries of a pass *)

Section Retries.
Context `{!Json FeedItem.t} `{!Json Settings} `{!Base64}.

Lemma retry_push_table item w :
  quiet (listeners w) →
  db_ok (retry_push item w).2 = db_ok w ∧
  FeedTable (retry_push item w).2 =
    match FeedItem.id item with
    | Some k =>
        if db_ok w then
          match FeedTable w !! k with
          | Some row => <[k := FeedItem.set_sync (Some true) row]> (FeedTable w)
          | None => FeedTable w
          end
        else FeedTable w
    | None => FeedTable w
    end.
Proof.
  intros Hq. unfold retry_push. rewrite bind_run.
  destruct (_encrypt_run item w) as (res & lg & docs & calls & ->).
  unfold unawaited.
  destruct (update_set_sync_run (FeedItem.id item) true
              (set_remote_calls calls (set_encrypted_feed docs (set_logs lg w))))
    as (lg' & dl & ->); [done|].
  done.
Qed.

Lemma run_db_ok t w : db_ok (run t w).2 = db_ok w.
Proof.
  destruct t as [feedItem|item]; simpl.
  - by destruct (background_push_run feedItem w) as (lg & docs & calls & ->).
  - revert w. change (preserves db_ok (retry_push item)).
    unfold retry_push. frame.
Qed.

Lemma turn_awaits_retry t rest w :
  quiet (listeners w) →
  db_ok w = true → pending w = t :: rest →
  awaits_retry (t :: rest) (FeedTable w) →
  awaits_retry rest (FeedTable (turn w)).
Proof.
  intros Hq Hdb Hp Hw. unfold turn. rewrite Hp.
  destruct t as [feedItem|item]; simpl.
  - rewrite background_push_leaves_the_table. simpl.
    intros k i Hi Hs. destruct (Hw k i Hi Hs) as (item & Hin & Hid).
    exists item. split; [|done].
    by apply elem_of_cons in Hin as [?|?].
  - destruct (retry_push_table item (set_pending rest w) Hq) as [_ ->]. simpl.
    rewrite Hdb. intros k i Hi Hs.
    assert (FeedItem.id item ≠ Some k ∧ FeedTable w !! k = Some i) as [Hne Hrow].
    { destruct (FeedItem.id item) as [k0|] eqn:Hk0; [|done].
      destruct (FeedTable w !! k0) as [row|] eqn:Hrow0.
      - apply lookup_insert_Some in Hi as [[<- <-]|[Hne Hi]]; [done|].
        split; [congruence|done].
      - split; [|done]. intros [= ->]. congruence. }
    destruct (Hw k i Hrow Hs) as (item' & Hin & Hid).
    exists item'. split; [|done].
    apply elem_of_cons in Hin as [[= ->]|?]; [congruence|done].
Qed.

Lemma turns_flag_every_row n w :
  quiet (listeners w) →
  db_ok w = true → length (pending w) = n →
  awaits_retry (pending w) (FeedTable w) →
  ∀ k i, FeedTable (turns n w) !! k = Some i → FeedItem.sync i ≠ Some false.
Proof.
  revert w. induction n as [|n IH]; intros w Hq Hdb Hn Hw k i Hi Hs; simpl in Hi.
  - apply nil_length_inv in Hn. rewrite Hn in Hw.
    destruct (Hw k i Hi Hs) as (item & Hin & _). by apply elem_of_nil in Hin.
  - destruct (pending w) as [|t rest] eqn:Hp; [done|].
    apply (IH (turn w)) in Hi; [done| | | |].
    + by rewrite turn_listeners.
    + unfold turn. rewrite Hp. by rewrite run_db_ok.
    + rewrite turn_pending, Hp. simpl in *. lia.
    + rewrite turn_pending, Hp. simpl. by eapply turn_awaits_retry.
Qed.

(** X12.  Once the retries a pass left pending have run to their end, no
    row of the local feed is flagged [sync = false], whatever became of the
    pushes: the key pair and the remote store may have failed in the
    meantime.  The pass is one that found both stores answering, on an
    instance with nothing pending, the rows carry their key as [id], and
    no listener throws, neither during the pass nor during the retries: a
    listener's throw ends the update of a retry and leaves the row as it
    was. *)
Theorem retries_flag_every_row w w1 :
  quiet (listeners w) → quiet (listeners w1) →
  db_ok w = true → remote_ok w = true → pending w = [] →
  Forall (λ i, is_Some (FeedItem._id i)) (merged_of w) →
  (∀ k i, FeedTable (_syncFromRemote w).2 !! k = Some i → FeedItem.id i = Some k) →
  FeedTable w1 = FeedTable (_syncFromRemote w).2 →
  pending w1 = pending (_syncFromRemote w).2 →
  db_ok w1 = true →
  (Local.find_sync_false (drain w1)).1 = Ok [] ∧
  ∀ k i, FeedTable (drain w1) !! k = Some i → FeedItem.sync i ≠ Some false.
Proof.
  intros Hq Hq1 Hdb Hup Hp Hkeyed Hid Ht1 Hp1 Hdb1.
  assert (∀ k i, FeedTable (drain w1) !! k = Some i → FeedItem.sync i ≠ Some false)
    as Hflag.
  { apply turns_flag_every_row; [done|done|done|].
    rewrite Hp1, Ht1.
    destruct (mapM Local.keyed (merged_of w)) as [rows|] eqn:Hrows.
    - destruct (syncFromRemote_run w rows Hq Hdb Hup Hrows) as (lg & dl & Hrun).
      rewrite Hrun in Hid |- *. simpl in *. rewrite Hp. simpl.
      intros k i Hi Hs. exists i. split; [|by eapply Hid].
      apply list_elem_of_fmap. exists i. split; [done|].
      apply list_elem_of_filter. split; [done|].
      apply list_elem_of_fmap. exists (k, i). split; [done|].
      by apply elem_of_map_to_list.
    - apply mapM_None_1, Exists_exists in Hrows as (i & Hi & Hnone).
      rewrite Forall_forall in Hkeyed. destruct (Hkeyed i Hi) as [k' Hk'].
      unfold Local.keyed in Hnone. rewrite Hk' in Hnone. discriminate Hnone. }
  split; [|done].
  unfold Local.find_sync_false.
  assert (db_ok (drain w1) = true) as ->.
  { unfold drain. generalize (length (pending w1)). intros n.
    clear Ht1 Hp1 Hflag Hq1. revert w1 Hdb1. induction n as [|n IH]; intros w1 Hdb1; [done|].
    simpl. apply IH. unfold turn. destruct (pending w1); [done|].
    by rewrite run_db_ok. }
  simpl. f_equal. apply elem_of_nil_inv. intros i.
  rewrite list_elem_of_filter, list_elem_of_fmap.
  intros [Hs ([k i'] & -> & Hi%elem_of_map_to_list)]. by eapply Hflag.
Qed.
End Retries.

(** The row [a] is flagged [sync = false]; the remote store stops answering
    once the pass has returned, and the retry finds it so. *)
Lemma retries_flag_every_row_witness :
  (Local.find_sync_false
     (drain (set_remote_ok false (_syncFromRemote Sample.with_unsynced).2))).1 = Ok [] ∧
  encrypted_feed
     (drain (set_remote_ok false (_syncFromRemote Sample.with_unsynced).2)) = ∅.
Proof.
  split; [|by vm_compute].
  assert (FeedTable (_syncFromRemote Sample.with_unsynced).2 =
          <["a" := Sample.unsynced_a]> ∅) as Htable by (vm_compute; reflexivity).
  apply (retries_flag_every_row Sample.with_unsynced
           (set_remote_ok false (_syncFromRemote Sample.with_unsynced).2)).
  - constructor.
  - by vm_compute.
  - reflexivity.
  - reflexivity.
  - reflexivity.
  - by vm_compute.
  - rewrite Htable. intros k i [[<- <-]|[_ Hk]]%lookup_insert_Some; [reflexivity|].
    by rewrite lookup_empty in Hk.
  - reflexivity.
  - reflexivity.
  - by vm_compute.
Defined.

(** ** The settings document *)

Section SettingsDocument.
Context `{!Json FeedItem.t} `{!Json Settings} `{!Base64}.

(** X13.  [decryptSettings] lets every failure through to its caller,
    where [_decrypt] on the same document answers nothing: the error of a
    remote store that does not answer, of a decryption that fails and of a
    text that does not parse.  Only a missing document and a document
    whose [encrypted] field is missing or empty give the empty
    structure. *)
Theorem decryptSettings_surfaces_failures w :
  let _id := user w +:+ "_settings" in
  (remote_ok w = false → (decryptSettings w).1 = Throw Remote.unavailable) ∧
  (remote_ok w = true →
   (encrypted_feed w !! _id = None → (decryptSettings w).1 = Ok ∅) ∧
   ∀ r, encrypted_feed w !! _id = Some r →
     (truthy (EncryptedRecord.encrypted r) = false → (decryptSettings w).1 = Ok ∅) ∧
     ∀ s, EncryptedRecord.encrypted r = Some s → s ≠ "" →
       (∀ e, decrypt (privateKey w) (from_base64 s) = Throw e →
             (decryptSettings w).1 = Throw e ∧ (_decrypt r w).1 = Ok None) ∧
       (∀ b e, decrypt (privateKey w) (from_base64 s) = Ok b →
               JSON_parse (A := Settings) (TextDecoder_decode b) = Throw e →
               (decryptSettings w).1 = Throw e)).
Proof.
  simpl. rewrite decryptSettings_run. simpl. split.
  - by intros ->.
  - intros ->. split; [by intros ->|].
    intros r ->. simpl. split.
    + intros Hr. destruct (EncryptedRecord.encrypted r) as [s|]; [|done].
      simpl in Hr. by rewrite Hr.
    + intros s Henc Hs. rewrite Henc, bool_decide_true by done. split.
      * intros e He. rewrite He. split; [done|].
        destruct (_decrypt_run r w) as [lg ->]. simpl.
        unfold plain. by rewrite Henc, He.
      * intros b e -> He. by rewrite He.
Qed.

(** X14.  [encryptSettings] bears on one remote document, the one under
    the user's id followed by [_settings]: every other document, the local
    feed and the pushes pending are as they were.  When the encryption
    fails the error reaches the caller and nothing at all has happened, not
    even a call of the remote store.  The document it stores carries
    neither [txHash] nor [date], so that no query of a pass answers it and
    no pass takes it for the mirror of a feed item. *)
Theorem encryptSettings_stores_one_document settings w :
  let w' := (encryptSettings settings w).2 in
  let _id := user w +:+ "_settings" in
  (∀ k, k ≠ _id → encrypted_feed w' !! k = encrypted_feed w !! k) ∧
  FeedTable w' = FeedTable w ∧ pending w' = pending w ∧
  (∀ e, public_encrypt (privateKey w)
          (TextEncoder_encode (JSON_stringify settings)) = Throw e →
        encryptSettings settings w = (Throw e, w)) ∧
  (∀ res, (encryptSettings settings w).1 = Ok res →
     ∃ r, encrypted_feed w' !! _id = Some r ∧
          EncryptedRecord.user_id r = user w ∧
          is_feed_mirror r = false ∧
          ∀ u d, Remote.matches u d r = false).
Proof.
  simpl. rewrite encryptSettings_run.
  destruct (public_encrypt (privateKey w) _) as [c|e] eqn:Hc; simpl.
  - repeat split; try done.
    + intros k Hk. by apply upsert_other.
    + intros res Hres. rewrite (upsert_stored _ _ _ _ _ _ Hres), lookup_insert_eq.
      eexists. split; [done|]. repeat split.
      * unfold is_feed_mirror. simpl. apply andb_false_r.
      * intros u d. unfold Remote.matches. simpl. apply andb_false_r.
  - repeat split; try done. by intros e' [= ->].
Qed.

(** X15.  The push of a feed item leaves the settings alone: unless the
    key of the item's mirror is the key of the settings document,
    [decryptSettings] answers after [_encrypt] what it answered before. *)
Theorem settings_survive_a_push feedItem w :
  mirror_key feedItem (user w) ≠ user w +:+ "_settings" →
  (decryptSettings (_encrypt feedItem w).2).1 = (decryptSettings w).1.
Proof.
  intros Hkey. rewrite !decryptSettings_run.
  assert (user (_encrypt feedItem w).2 = user w ∧
          privateKey (_encrypt feedItem w).2 = privateKey w ∧
          remote_ok (_encrypt feedItem w).2 = remote_ok w ∧
          encrypted_feed (_encrypt feedItem w).2 !! (user w +:+ "_settings") =
            encrypted_feed w !! (user w +:+ "_settings")) as (-> & -> & -> & ->).
  { rewrite _encrypt_exact.
    destruct (public_encrypt (privateKey w) (message feedItem)) as [c|e]; [|done].
    simpl. destruct (upsert _ _ _ _ _).1 as [r|e] eqn:Hup; simpl;
      repeat split; by apply upsert_other. }
  simpl. destruct (remote_ok w); [|done].
  destruct (encrypted_feed w !! (user w +:+ "_settings") ≫= EncryptedRecord.encrypted)
    as [s|]; [|done].
  case_bool_decide; [|done].
  destruct (decrypt (privateKey w) (from_base64 s)) as [b|e]; [|done].
  by destruct (JSON_parse (TextDecoder_decode b)).
Qed.
End SettingsDocument.

(** The settings of the sample user, stored and then read back after the
    item [a] has been pushed. *)
Lemma settings_survive_a_push_witness :
  (decryptSettings
     (_encrypt (Sample.item "a" 5)
        (encryptSettings {["theme" := "dark"]} Sample.world).2).2).1 =
  Ok {["theme" := "dark"]}.
Proof.
  rewrite (settings_survive_a_push (Sample.item "a" 5)
             (encryptSettings {["theme" := "dark"]} Sample.world).2);
    [by vm_compute|by vm_compute].
Defined.

(** ** Account deletion *)

Lemma deleteAccount_run w :
  deleteAccount w =
  (match db_ok w, remote_ok w with
   | true, true =>
       Ok (tt, size (filter (λ kr, EncryptedRecord.user_id kr.2 = user w)
                            (encrypted_feed w)))
   | false, _ => Throw Local.unavailable
   | true, false => Throw Remote.unavailable
   end,
   set_encrypted_feed
     (if remote_ok w
      then filter (λ kr, EncryptedRecord.user_id kr.2 ≠ user w) (encrypted_feed w)
      else encrypted_feed w)
     (set_FeedTable (if db_ok w then ∅ else FeedTable w) w)).
Proof.
  unfold deleteAccount, Promise_all2, Local_delete, Remote_deleteMany, Remote.answers.
  destruct w as [pk u ls ft dbok ef rok hp lg dl rc pd]. exec.
  by destruct dbok, rok.
Qed.

Section AccountDeletion.
Context `{!Json FeedItem.t} `{!Json Settings} `{!Base64}.

(** X16.  [deleteAccount] attempts both deletions, each whatever becomes of
    the other.  When the local store answers, the local feed is empty
    afterwards, also when the remote store failed; when the remote store
    answers, it holds afterwards the documents of the other users and none
    of this user, also when the local store failed.  The call returns only
    when both succeeded.  After a remote deletion a pass of any device of
    the user finds no candidate, and the user's settings read as the empty
    structure. *)
Theorem deleteAccount_attempts_both_deletions w :
  let w' := (deleteAccount w).2 in
  (db_ok w = true → FeedTable w' = ∅) ∧
  (db_ok w = false → FeedTable w' = FeedTable w) ∧
  (remote_ok w = false → encrypted_feed w' = encrypted_feed w) ∧
  ((∃ res, (deleteAccount w).1 = Ok res) ↔ db_ok w = true ∧ remote_ok w = true) ∧
  (remote_ok w = true →
     (∀ k r, encrypted_feed w' !! k = Some r ↔
             encrypted_feed w !! k = Some r ∧ EncryptedRecord.user_id r ≠ user w) ∧
     (∀ w2, encrypted_feed w2 = encrypted_feed w' → user w2 = user w →
            newItems_of w2 = []) ∧
     ((∀ r, encrypted_feed w !! (user w +:+ "_settings") = Some r →
            EncryptedRecord.user_id r = user w) →
      (decryptSettings w').1 = Ok ∅)).
Proof.
  simpl. rewrite deleteAccount_run. simpl.
  split; [by intros ->|]. split; [by intros ->|]. split; [by intros ->|].
  split.
  - destruct (db_ok w), (remote_ok w); split; try done;
      try (by intros [? ?]); by eexists.
  - intros Hrok. rewrite Hrok.
    assert (∀ k r,
      filter (λ kr, EncryptedRecord.user_id kr.2 ≠ user w) (encrypted_feed w) !! k
        = Some r ↔
      encrypted_feed w !! k = Some r ∧ EncryptedRecord.user_id r ≠ user w) as Hleft.
    { intros k r. by rewrite map_lookup_filter_Some. }
    split; [done|]. split.
    + intros w2 Hdocs Hu. apply elem_of_nil_inv. intros r.
      rewrite newItems_of_spec, Hdocs, Hu.
      intros [[k [_ Hr]%Hleft] Hm]. unfold Remote.matches in Hm.
      apply andb_true_iff in Hm as [Hm%bool_decide_eq_true _]. done.
    + intros Hown. rewrite decryptSettings_run. simpl. rewrite Hrok.
      destruct (filter _ (encrypted_feed w) !! (user w +:+ "_settings"))
        as [r|] eqn:Hr; [|done].
      apply Hleft in Hr as [Hr Hne]. by apply Hown in Hr.
Qed.
End AccountDeletion.

(** ** The write path, from the call to the mirror *)

Section WriteToMirror.
Context `{!Json FeedItem.t} `{!Json Settings} `{!Base64}.


Lemma background_push_exact feedItem item w :
  heap w !! feedItem = Some item →
  background_push feedItem w = (Ok tt, (_encrypt item w).2).
Proof.
  intros Hitem. unfold background_push, deref. rewrite bind_run, Hitem.
  unfold try_catch. rewrite bind_run.
  by destruct (_encrypt_run item w) as (res & lg & docs & calls & ->).
Qed.

Lemma _encrypt_stored feedItem c w :
  public_encrypt (privateKey w) (message feedItem) = Ok c →
  remote_ok w = true →
  (∀ old, encrypted_feed w !! mirror_key feedItem (user w) = Some old →
          EncryptedRecord.user_id old = user w) →
  encrypted_feed (_encrypt feedItem w).2 =
    <[mirror_key feedItem (user w) := mirror feedItem (user w) c]> (encrypted_feed w).
Proof.
  intros Hc Hup Hown. rewrite _encrypt_exact, Hc, Hup.
  destruct (upsert_answers _ (user w) (mirror feedItem (user w) c)
              (encrypted_feed w) Hown) as [res Hres].
  pose proof (upsert_stored _ _ _ _ _ _ Hres) as Hdocs.
  cbv zeta. destruct (upsert _ _ _ _ _) as [o docs]. simpl in *. by subst.
Qed.

(** X18.  A written item is mirrored as the caller's object stands after
    [write], with its [_id].  On an instance with nothing pending and both
    stores answering, when the encryption succeeds, the remote store
    holds under the mirror's key nothing of another user and no listener
    throws, then once the push has run the remote collection is the one
    before the call with the mirror of that object added under its key.  The row of the local feed
    is still that object: the write path records the success nowhere, the
    [sync] field is as the caller set it. *)
Theorem written_item_is_mirrored feedItem item c w :
  heap w !! feedItem = Some item →
  truthy (FeedItem.id item) = true →
  db_ok w = true → remote_ok w = true → pending w = [] →
  let item' := FeedItem.set__id (FeedItem.id item) item in
  let _id := mirror_key item' (user w) in
  public_encrypt (privateKey w) (message item') = Ok c →
  (∀ old, encrypted_feed w !! _id = Some old → EncryptedRecord.user_id old = user w) →
  quiet (listeners w) →
  let w' := drain (write feedItem w).2 in
  encrypted_feed w' = <[_id := mirror item' (user w) c]> (encrypted_feed w) ∧
  FeedTable w' !! interpolate (FeedItem.id item) = Some item' ∧
  FeedItem.sync item' = FeedItem.sync item ∧
  pending w' = [].
Proof.
  intros Hitem Hid Hdb Hup Hp. simpl. intros Hc Hown Hq.
  pose proof (write_accepted feedItem item w Hq Hitem Hid) as Hw. simpl in Hw.
  rewrite Hdb in Hw. destruct Hw as (lg & dl & ->). simpl.
  unfold drain. simpl. rewrite Hp. simpl. unfold turn. simpl.
  rewrite (background_push_exact feedItem
             (FeedItem.set__id (FeedItem.id item) item));
    [|simpl; by rewrite lookup_insert_eq].
  simpl. rewrite (_encrypt_stored _ c); [|done|done|done].
  repeat split.
  - by rewrite _encrypt_preserves by ignores; simpl; rewrite lookup_insert_eq.
  - by rewrite _encrypt_preserves by ignores.
Qed.

(** X27.  A listener that throws makes [write] fail.  The local store
    answers and the item has an id; the row is announced to the listeners in
    their order, and the first of them to throw ends the call with what it
    threw.  Nothing has been stored then: the local feed is as it was, no
    push is pending and the remote store has not been called.  The caller's
    object has its [_id] all the same, which is set before the row is
    saved. *)
Theorem write_fails_when_a_listener_throws feedItem item pre l e rest w :
  heap w !! feedItem = Some item →
  truthy (FeedItem.id item) = true →
  db_ok w = true →
  let item' := FeedItem.set__id (FeedItem.id item) item in
  let data := Local.change (FeedTable w) (interpolate (FeedItem.id item), item') in
  listeners w = pre ++ l :: rest →
  Forall (λ l, cb l data = Ok tt) pre → cb l data = Throw e →
  let w1 := (write feedItem w).2 in
  (write feedItem w).1 = Throw e ∧
  FeedTable w1 = FeedTable w ∧
  pending w1 = pending w ∧
  encrypted_feed w1 = encrypted_feed w ∧
  remote_calls w1 = remote_calls w ∧
  heap w1 = <[feedItem := item']> (heap w).
Proof.
  intros Hitem Hid Hdb. simpl. intros Hls Hpre Hl.
  destruct (write_shape feedItem item w Hitem Hid) as (lg & dl & ->). simpl.
  rewrite Hdb, Hls.
  destruct (reached_first_throw _ pre l e rest Hpre Hl) as [_ ->].
  done.
Qed.
End WriteToMirror.

(** The item [a] written while a listener that throws is registered. *)
Lemma write_fails_when_a_listener_throws_witness :
  let w := (on (Sample.faulty 0) (Sample.holding (Sample.item "a" 5))).2 in
  (write 0%nat w).1 = Throw (Error "listener failed") ∧
  FeedTable (write 0%nat w).2 = ∅ ∧
  pending (write 0%nat w).2 = [].
Proof.
  destruct (write_fails_when_a_listener_throws 0%nat (Sample.item "a" 5)
              [] (Sample.faulty 0) (Error "listener failed") []
              (on (Sample.faulty 0) (Sample.holding (Sample.item "a" 5))).2
              eq_refl eq_refl eq_refl eq_refl (Forall_nil_2 _) eq_refl)
    as (Hres & Htable & Hpending & _).
  exact (conj Hres (conj Htable Hpending)).
Defined.


Lemma written_item_is_mirrored_witness :
  let item' := FeedItem.set__id (Some "a") (Sample.item "a" 5) in
  encrypted_feed (drain (write 0%nat (Sample.holding (Sample.item "a" 5))).2) =
    <["a_u1" := mirror item' "u1" (Byte.x01 :: message item')]> ∅.
Proof.
  destruct (written_item_is_mirrored 0%nat (Sample.item "a" 5)
              (Byte.x01 :: message (FeedItem.set__id (Some "a") (Sample.item "a" 5)))
              (Sample.holding (Sample.item "a" 5))
              eq_refl eq_refl eq_refl eq_refl eq_refl eq_refl)
    as (Hdocs & _).
  - intros old Hold. vm_compute in Hold. discriminate Hold.
  - constructor.
  - exact Hdocs.
Defined.

(** ** A pass after a pass *)

Lemma merge_rows_lookup table rows k i :
  merge_rows table rows !! k = Some i → (k, i) ∈ rows ∨ table !! k = Some i.
Proof.
  revert table. induction rows as [|[k' j] rows IH]; intros table Hi; [by right|].
  simpl in Hi. apply IH in Hi as [Hi|Hi]; [left; by right|].
  apply lookup_insert_Some in Hi as [[<- <-]|[_ Hi]]; [left; left|by right].
Qed.

Lemma merge_rows_keeps_keys table rows k :
  is_Some (table !! k) → is_Some (merge_rows table rows !! k).
Proof.
  revert table. induction rows as [|[k' j] rows IH]; intros table Hk; [done|].
  simpl. apply IH. destruct (decide (k' = k)) as [->|Hne].
  - rewrite lookup_insert_eq. by eexists.
  - by rewrite lookup_insert_ne.
Qed.

(** The watermark does not move back when every merged row is dated after
    it. *)
Lemma lastSync_of_merge_rows table rows :
  (∀ k i, (k, i) ∈ rows → lastSync_of table < FeedItem.date i) →
  lastSync_of table ≤ lastSync_of (merge_rows table rows).
Proof.
  intros Hnew.
  destruct (decide (table = ∅)) as [->|Hne].
  - destruct (decide (merge_rows ∅ rows = ∅)) as [->|Hne']; [done|].
    destruct (lastSync_of_attained _ Hne') as (k & i & Hi & <-).
    apply merge_rows_lookup in Hi as [Hi|Hi]; [|by rewrite lookup_empty in Hi].
    apply Hnew in Hi. lia.
  - destruct (lastSync_of_attained _ Hne) as (k & i & Hi & Hdate).
    destruct (merge_rows table rows !! k) as [j|] eqn:Hj.
    + pose proof (lastSync_of_upper _ _ _ Hj) as Hupper.
      apply merge_rows_lookup in Hj as [Hj|Hj].
      * apply Hnew in Hj. lia.
      * assert (j = i) as -> by congruence. lia.
    + destruct (merge_rows_keeps_keys table rows k) as [j Hj']; [by eexists|].
      congruence.
Qed.

Section PassAfterPass.
Context `{!Json FeedItem.t} `{!Json Settings} `{!Base64}.

(** X19.  A pass that follows a pass merges nothing.  Both stores answer;
    the documents that the first pass merges carry the date of the item
    they decrypt to, as the mirrors that [_encrypt] writes do, and no two
    of them decrypt to items of the same [_id].  Then the watermark after
    the first pass is not below the one before it, no candidate of a second
    pass is the mirror of an item, and the second pass leaves the local
    feed as the first one left it.  No listener throws: a throw would end
    the first pass with its rows unmerged. *)
Theorem second_pass_merges_nothing w :
  quiet (listeners w) →
  db_ok w = true → remote_ok w = true →
  Forall (λ i, is_Some (FeedItem._id i)) (merged_of w) →
  (∀ r i, r ∈ newItems_of w → is_feed_mirror r = true →
          plain (privateKey w) r = Some i →
          EncryptedRecord.date r = Some (FeedItem.date i)) →
  (∀ i j, i ∈ merged_of w → j ∈ merged_of w →
          FeedItem._id i = FeedItem._id j → i = j) →
  let w1 := (_syncFromRemote w).2 in
  lastSync_of (FeedTable w) ≤ lastSync_of (FeedTable w1) ∧
  merged_of w1 = [] ∧
  (_syncFromRemote w1).1 = Ok tt ∧
  FeedTable (_syncFromRemote w1).2 = FeedTable w1.
Proof.
  intros Hq Hdb Hup Hkeyed Hdates Huniq. simpl.
  destruct (mapM Local.keyed (merged_of w)) as [rows|] eqn:Hrows; cycle 1.
  { apply mapM_None_1, Exists_exists in Hrows as (i & Hi & Hnone).
    rewrite Forall_forall in Hkeyed. destruct (Hkeyed i Hi) as [k' Hk'].
    unfold Local.keyed in Hnone. rewrite Hk' in Hnone. discriminate Hnone. }
  destruct (syncFromRemote_run w rows Hq Hdb Hup Hrows) as (lg & dl & Hrun).
  set (w1 := (_syncFromRemote w).2) in *.
  assert (FeedTable w1 = merge_rows (FeedTable w) rows ∧ db_ok w1 = true ∧
          remote_ok w1 = true ∧ encrypted_feed w1 = encrypted_feed w ∧
          user w1 = user w ∧ privateKey w1 = privateKey w ∧
          listeners w1 = listeners w)
    as (Ht1 & Hdb1 & Hup1 & Hdocs1 & Hu1 & Hkey1 & Hls1).
  { unfold w1. rewrite Hrun. done. }
  rewrite <- Hls1 in Hq.
  assert (∀ i, i ∈ merged_of w → lastSync_of (FeedTable w) < FeedItem.date i) as Hafter.
  { intros i (r & [Hmirror Hr]%list_elem_of_filter & Hplain)%list_elem_of_omap.
    pose proof (Hdates r i Hr Hmirror Hplain) as Hd.
    apply newItems_of_spec in Hr as [_ Hm]. unfold Remote.matches in Hm.
    rewrite Hd in Hm. apply andb_true_iff in Hm as [_ Hm%bool_decide_eq_true]. done. }
  assert (lastSync_of (FeedTable w) ≤ lastSync_of (FeedTable w1)) as Hmono.
  { rewrite Ht1. apply lastSync_of_merge_rows.
    intros k i [Hi _]%(keyed_rows _ _ Hrows). by apply Hafter. }
  assert (merged_of w1 = []) as Hnone.
  { apply elem_of_nil_inv. intros i.
    intros (r & [Hmirror Hr]%list_elem_of_filter & Hplain)%list_elem_of_omap.
    rewrite Hkey1 in Hplain.
    apply newItems_of_spec in Hr as [Hdoc Hm]. rewrite Hdocs1 in Hdoc. rewrite Hu1 in Hm.
    assert (r ∈ newItems_of w) as Hr0.
    { apply newItems_of_spec. split; [done|].
      unfold Remote.matches in *. apply andb_true_iff in Hm as [Hm1 Hm2].
      rewrite Hm1. simpl. destruct (EncryptedRecord.date r) as [d|]; [|done].
      apply bool_decide_eq_true in Hm2. apply bool_decide_eq_true. lia. }
    assert (i ∈ merged_of w) as Hi.
    { apply list_elem_of_omap. exists r. split; [|done].
      by apply list_elem_of_filter. }
    rewrite Forall_forall in Hkeyed. destruct (Hkeyed i Hi) as [k Hk].
    assert (FeedTable w1 !! k = Some i) as Hrow.
    { rewrite Ht1. apply merge_rows_unique.
      - by apply (keyed_rows _ _ Hrows).
      - intros j [Hj Hjk]%(keyed_rows _ _ Hrows). apply Huniq; [done|done|congruence]. }
    apply lastSync_of_upper in Hrow.
    pose proof (Hdates r i Hr0 Hmirror Hplain) as Hd.
    unfold Remote.matches in Hm. rewrite Hd in Hm.
    apply andb_true_iff in Hm as [_ Hm%bool_decide_eq_true]. lia. }
  split; [done|]. split; [done|].
  destruct (syncFromRemote_run w1 [] Hq Hdb1 Hup1) as (lg' & dl' & ->);
    [by rewrite Hnone|done].
Qed.

(** X20.  A pass stops at the first store that does not answer.  When the
    local store fails, the pass fails before anything has happened.  When
    the remote store fails, the pass fails with its one query made: the
    local feed is as it was and no retry has been started, so the rows
    flagged [sync = false] wait for a later pass. *)
Theorem syncFromRemote_stops_at_the_first_failure w :
  (db_ok w = false → _syncFromRemote w = (Throw Local.unavailable, w)) ∧
  (db_ok w = true → remote_ok w = false →
   _syncFromRemote w =
     (Throw Remote.unavailable,
      set_remote_calls
        (remote_calls w ++ [call_find (user w) (lastSync_of (FeedTable w))]) w)).
Proof.
  split.
  - intros Hdb. unfold _syncFromRemote. rewrite !bind_run, toArray_newest, Hdb. done.
  - intros Hdb Hup. unfold _syncFromRemote. rewrite !bind_run, toArray_newest, Hdb.
    exec. rewrite find_run. simpl. by rewrite Hup.
Qed.
End PassAfterPass.

(** The second device of the sample, after its first pass. *)
Lemma second_pass_merges_nothing_witness :
  let w1 := (_syncFromRemote Sample2.reader).2 in
  FeedTable (_syncFromRemote w1).2 = FeedTable w1.
Proof.
  assert (newItems_of Sample2.reader =
          [mirror (FeedItem.set__id (Some "a") (Sample.item "a" 5)) "u1"
             (Byte.x01 :: message (FeedItem.set__id (Some "a") (Sample.item "a" 5)))])
    as Hnew by (vm_compute; reflexivity).
  assert (merged_of Sample2.reader =
          [FeedItem.set__id (Some "a") (Sample.item "a" 5)]) as Hmerged
    by (vm_compute; reflexivity).
  destruct (second_pass_merges_nothing Sample2.reader) as (_ & _ & _ & Hsame).
  - constructor.
  - reflexivity.
  - reflexivity.
  - rewrite Hmerged. repeat constructor. by eexists.
  - rewrite Hnew. intros r i ->%list_elem_of_singleton _ Hplain.
    vm_compute in Hplain. injection Hplain as <-. reflexivity.
  - rewrite Hmerged. by intros i j ->%list_elem_of_singleton ->%list_elem_of_singleton _.
  - exact Hsame.
Defined.

(** ** Initialisation *)

(** Unfolds [init] down to what its surroundings answer. *)
Ltac boot :=
  cbv [Init.init Init._initRealmDB Init.try_catch Init.call Init.log Init.modify
       Init.resolve Init.reject Init.throw mbind mret Init.I_bind Init.I_ret].

(** X21.  [init] never throws, and leaves the gate settled.  It takes the
    key before anything can fail.  A gate that is settled stays as it is,
    so that an instance whose [init] failed once keeps a rejected gate even
    when a later [init] succeeds and sets [isReady]; and [isReady], once
    set, is never cleared.  When the local store opens, the token is read
    and the remote store takes it, [isReady] is set and one more pass has
    been started without being awaited. *)
Theorem init_settles_the_gate_once E key s :
  let s' := (Init.init E key s).2 in
  (Init.init E key s).1 = Ok tt ∧
  Init.privateKey s' = Some key ∧
  Init.ready s' ≠ Init.pending ∧
  (Init.ready s ≠ Init.pending → Init.ready s' = Init.ready s) ∧
  (Init.isReady s = true → Init.isReady s' = true) ∧
  (∀ table jwt u,
     Init.open E key = Ok table → Init.getItem_JWT E = Ok jwt →
     Init.logIn E jwt = Ok u →
     Init.isReady s' = true ∧ Init.passes s' = S (Init.passes s) ∧
     Init.db s' = Some table ∧ Init.user s' = Some u ∧
     Init.database s' = Some (Init._databaseName (Init.Config_env E))).
Proof.
  boot.
  destruct (Init.open E key) as [table|e] eqn:Ht; simpl;
    [destruct (Init.getItem_JWT E) as [jwt|e] eqn:Hj; simpl;
       [destruct (Init.logIn E jwt) as [u|e] eqn:Hu; simpl|]|];
    split_and!; try done; try (by destruct (Init.ready s)).
  - intros table' jwt' u' [= <-] [= <-] Hu'. rewrite Hu in Hu'.
    by injection Hu' as <-.
  - intros table' jwt' u' [= <-] [= <-] Hu'. congruence.
Qed.

(** X22.  On a fresh instance the gate is resolved exactly when the local
    store opens, the token is read and the remote store takes it, and
    [isReady] says as much.  Otherwise the gate is rejected with the
    failure, and [init] has stopped there: when the local store does not
    open, the token is not read and the remote store is not called; when
    the token cannot be read, the remote store is not called; and when the
    remote store refuses, the failure is logged twice, no user is set and
    no pass is started. *)
Theorem init_of_a_fresh_instance E key :
  let s' := (Init.init E key Init.constructor).2 in
  (Init.ready s' = Init.resolved ↔
   ∃ table jwt u, Init.open E key = Ok table ∧ Init.getItem_JWT E = Ok jwt ∧
                  Init.logIn E jwt = Ok u) ∧
  (Init.isReady s' = true ↔ Init.ready s' = Init.resolved) ∧
  (∀ table jwt u,
     Init.open E key = Ok table → Init.getItem_JWT E = Ok jwt →
     Init.logIn E jwt = Ok u →
     Init.calls s' = [Init.ThreadDB_open; Init.AsyncStorage_getItem "JWT";
                      Init.app_logIn jwt] ∧
     Init.hooks s' = ["updating"; "creating"] ∧
     Init.passes s' = 1%nat) ∧
  (∀ e, Init.open E key = Throw e →
     Init.ready s' = Init.rejected e ∧
     Init.calls s' = [Init.ThreadDB_open] ∧
     Init.logs s' = [(error, "failed initializing")]) ∧
  (∀ table e, Init.open E key = Ok table → Init.getItem_JWT E = Throw e →
     Init.ready s' = Init.rejected e ∧
     Init.calls s' = [Init.ThreadDB_open; Init.AsyncStorage_getItem "JWT"] ∧
     Init.logs s' = [(error, "failed initializing")]) ∧
  (∀ table jwt e, Init.open E key = Ok table → Init.getItem_JWT E = Ok jwt →
     Init.logIn E jwt = Throw e →
     Init.ready s' = Init.rejected e ∧
     Init.user s' = None ∧ Init.passes s' = 0%nat ∧
     Init.logs s' = [(debug, "initRealmDB"); (error, "Failed to log in");
                     (error, "failed initializing")]).
Proof.
  boot.
  destruct (Init.open E key) as [table|e] eqn:Ht; simpl;
    [destruct (Init.getItem_JWT E) as [jwt|e] eqn:Hj; simpl;
       [destruct (Init.logIn E jwt) as [u|e] eqn:Hu; simpl|]|];
    split_and!; try done.
  - split; [|done]. intros _. by exists table, jwt, u.
  - by intros table' jwt' u' [= <-] [= <-] _.
  - intros table' jwt' e' [= <-] [= <-] He. congruence.
  - split; [done|]. intros (table' & jwt' & u' & [= <-] & [= <-] & Hu'). congruence.
  - intros table' jwt' u' [= <-] [= <-] Hu'. congruence.
  - by intros table' jwt' e' [= <-] [= <-] [= <-]%(eq_trans (eq_sym Hu)).
  - split; [done|]. by intros (table' & jwt' & u' & _ & [=] & _).
  - by intros table' e' _ [= <-].
  - split; [done|]. by intros (table' & jwt' & u' & [=] & _).
  - by intros e' [= <-].
Qed.

(** ** The profile of the user *)

Module ProfilesFacts.
Import Profiles.

Lemma satisfies_user u d :
  satisfies {["user_id" := u]} d = true ↔ d !! "user_id" = Some u.
Proof.
  unfold satisfies. rewrite bool_decide_eq_true. apply map_singleton_subseteq_l.
Qed.

Lemma satisfies_user_false u d :
  satisfies {["user_id" := u]} d = false ↔ d !! "user_id" ≠ Some u.
Proof. rewrite <- satisfies_user. by destruct (satisfies _ d). Qed.

(** Where the first document of a query stands, and what the three
    traversals make of it. *)
Lemma first_split q docs :
  (first q docs = None ∧ Forall (λ d, satisfies q d = false) docs ∧
   (∀ f, update_first q f docs = None) ∧ delete_first q docs = None) ∨
  (∃ pre d post,
     docs = pre ++ d :: post ∧ Forall (λ d, satisfies q d = false) pre ∧
     satisfies q d = true ∧ first q docs = Some d ∧
     (∀ f, update_first q f docs = Some (pre ++ f d :: post)) ∧
     delete_first q docs = Some (pre ++ post)).
Proof.
  induction docs as [|d docs IH]; simpl; [by left|].
  destruct (satisfies q d) eqn:Hd.
  - right. by exists [], d, docs.
  - destruct IH as [(Hf & Hall & Hu & Hdel)|(pre & d' & post & -> & Hall & Hd' & Hf & Hu & Hdel)].
    + left. repeat split; [done|by constructor| |by rewrite Hdel].
      intros f. by rewrite Hu.
    + right. exists (d :: pre), d', post.
      repeat split; [by constructor|done|done| |by rewrite Hdel].
      intros f. by rewrite Hu.
Qed.

Lemma owned_none u docs :
  Forall (λ d, satisfies {["user_id" := u]} d = false) docs → owned u docs = [].
Proof.
  intros Hall. apply elem_of_nil_inv. intros d [Hd Hin]%list_elem_of_filter.
  rewrite Forall_forall in Hall. apply Hall, satisfies_user_false in Hin. done.
Qed.

Lemma owned_app u l1 l2 : owned u (l1 ++ l2) = owned u l1 ++ owned u l2.
Proof. unfold owned. by rewrite filter_app. Qed.

Lemma owned_cons u d l :
  owned u (d :: l) =
  if decide (d !! "user_id" = Some u) then d :: owned u l else owned u l.
Proof. unfold owned. by rewrite filter_cons. Qed.

Lemma first_owned u docs : first {["user_id" := u]} docs = head (owned u docs).
Proof.
  induction docs as [|d docs IH]; [done|]. simpl. rewrite owned_cons.
  destruct (satisfies _ d) eqn:Hd.
  - apply satisfies_user in Hd. by rewrite decide_True.
  - apply satisfies_user_false in Hd. by rewrite decide_False.
Qed.

(** The documents of a user around the first document of [u]. *)
Lemma owned_at u w pre (x : Profile) post :
  Forall (λ d, satisfies {["user_id" := u]} d = false) pre →
  owned w (pre ++ x :: post) =
    (if decide (w = u) then [] else owned w pre) ++
    (if decide (x !! "user_id" = Some w) then [x] else []) ++ owned w post.
Proof.
  intros Hpre. rewrite owned_app, owned_cons.
  destruct (decide (w = u)) as [->|Hne].
  - rewrite (owned_none u pre Hpre). by destruct (decide _).
  - by destruct (decide _).
Qed.

End ProfilesFacts.

(** X23.  [setProfile] merges the given fields into the document of the
    user, or makes that document when there is none.  The fields carry no
    [user_id], or the user's own, and the remote store answers.  Then
    [getProfile] answers afterwards a document in which every given field
    has its given value, [user_id] is the user's, and every other field is
    what [getProfile] answered before.  The user has as many documents as
    before, or one when there was none, and the documents of the other
    users are as they were.  [setProfileFields] is the same call. *)
Theorem setProfile_merges_into_the_users_document profile s :
  Profiles.remote_ok s = true →
  profile !! "user_id" = None ∨ profile !! "user_id" = Some (Profiles.user s) →
  let u := Profiles.user s in
  let docs := Profiles.user_profiles s in
  let old := head (Profiles.owned u docs) in
  let s' := (Profiles.setProfile profile s).2 in
  Profiles.setProfileFields profile s = Profiles.setProfile profile s ∧
  Profiles.user s' = u ∧
  (∃ doc,
     (Profiles.getProfile s').1 = Ok (Some doc) ∧
     Profiles.owned u (Profiles.user_profiles s') = doc :: tail (Profiles.owned u docs) ∧
     (∀ f v, profile !! f = Some v → doc !! f = Some v) ∧
     doc !! "user_id" = Some u ∧
     (∀ f, profile !! f = None → f ≠ "user_id" → doc !! f = old ≫= (.!! f))) ∧
  (∀ w, w ≠ u →
     Profiles.owned w (Profiles.user_profiles s') = Profiles.owned w docs).
Proof.
  intros Hup Hprofile. simpl. split; [done|].
  unfold Profiles.setProfile, Profiles.getProfile, Profiles.updateOne,
    Profiles.findOne, Profiles.answering.
  rewrite Hup.
  assert (∀ base : Profiles.Profile,
            base !! "user_id" = Some (Profiles.user s) →
            let doc := (profile ∪ {["user_id" := Profiles.user s]}) ∪ base in
            (∀ f v, profile !! f = Some v → doc !! f = Some v) ∧
            doc !! "user_id" = Some (Profiles.user s) ∧
            (∀ f, profile !! f = None → f ≠ "user_id" → doc !! f = base !! f))
    as Hmerge.
  { intros base Hbase. simpl. repeat split.
    - intros f v Hf. apply lookup_union_Some_l, lookup_union_Some_l, Hf.
    - destruct Hprofile as [Hnone|Hsome].
      + apply lookup_union_Some_l. rewrite lookup_union_r by done.
        apply lookup_singleton_eq.
      + by apply lookup_union_Some_l, lookup_union_Some_l.
    - intros f Hf Hne. rewrite lookup_union_r; [done|].
      rewrite lookup_union_r by done. by apply lookup_singleton_ne. }
  destruct (ProfilesFacts.first_split {["user_id" := Profiles.user s]}
              (Profiles.user_profiles s))
    as [(Hf & Hall & Hu & Hdel)|(pre & d & post & Hdocs & Hall & Hd & Hf & Hu & Hdel)].
  - rewrite Hu. simpl. rewrite ?Hup.
    rewrite ProfilesFacts.first_owned in Hf |- *.
    destruct (Hmerge {["user_id" := Profiles.user s]} (lookup_singleton_eq _ _))
      as (Hgiven & Hid & Hkept).
    assert (Profiles.owned (Profiles.user s) (Profiles.user_profiles s) = []) as Hnone
      by by apply ProfilesFacts.owned_none.
    split; [done|]. split.
    + eexists.
      rewrite ProfilesFacts.owned_app, ProfilesFacts.owned_cons, Hnone.
      rewrite (decide_True (P := _ !! "user_id" = Some (Profiles.user s))) by exact Hid.
      split; [done|]. split; [done|]. split; [exact Hgiven|]. split; [exact Hid|].
      intros f Hf' Hne. rewrite (Hkept f Hf' Hne). by rewrite lookup_singleton_ne.
    + intros w Hw. rewrite ProfilesFacts.owned_app, ProfilesFacts.owned_cons.
      rewrite (decide_False (P := _ !! "user_id" = Some w)); [by rewrite app_nil_r|].
      rewrite Hid. by intros [= <-].
  - rewrite Hu. simpl. rewrite ?Hup. apply ProfilesFacts.satisfies_user in Hd.
    destruct (Hmerge d Hd) as (Hgiven & Hid & Hkept).
    rewrite ProfilesFacts.first_owned, Hdocs.
    rewrite !(ProfilesFacts.owned_at (Profiles.user s) (Profiles.user s)) by done.
    rewrite !(decide_True (P := Profiles.user s = Profiles.user s)) by done.
    rewrite (decide_True (P := _ !! "user_id" = Some (Profiles.user s))) by exact Hid.
    rewrite (decide_True (P := d !! "user_id" = Some (Profiles.user s))) by exact Hd.
    split; [done|]. split.
    + eexists. split; [done|]. split; [done|]. split; [exact Hgiven|].
      split; [exact Hid|exact Hkept].
    + intros w Hw.
      rewrite !(ProfilesFacts.owned_at (Profiles.user s) w) by done.
      rewrite !(decide_False (P := w = Profiles.user s)) by done.
      rewrite (decide_False (P := d !! "user_id" = Some w))
        by (rewrite Hd; by intros [= <-]).
      rewrite (decide_False (P := _ !! "user_id" = Some w)); [done|].
      rewrite Hid. by intros [= <-].
Qed.

(** The user of the sample changes her name; her address is kept. *)
Lemma setProfile_merges_into_the_users_document_witness :
  (Profiles.getProfile
     (Profiles.setProfile {["name" := "anna"]} Sample2.profiles).2).1 =
  Ok (Some {["user_id" := "u1"; "name" := "anna"; "email" := "ann@example.org"]}).
Proof.
  destruct (setProfile_merges_into_the_users_document {["name" := "anna"]}
              Sample2.profiles eq_refl)
    as (_ & _ & (doc & Hdoc & Howned & _) & _); [left; by vm_compute|].
  rewrite Hdoc. f_equal. f_equal.
  vm_compute in Howned. injection Howned as <-. by vm_compute.
Defined.

(** X24.  [removeField] takes one field out of the document of the user
    and keeps the document: when the remote store answers and the field is
    not [user_id], [getProfile] answers afterwards what it answered before
    without that field.  Nothing is created when the user has no document,
    the collection keeps its length and the documents of the other users
    are as they were.  Removing [user_id] itself leaves the document in
    the collection with no owner: it is no longer among the user's. *)
Theorem removeField_keeps_the_document field s :
  Profiles.remote_ok s = true →
  let u := Profiles.user s in
  let docs := Profiles.user_profiles s in
  let s' := (Profiles.removeField field s).2 in
  length (Profiles.user_profiles s') = length docs ∧
  (∀ w, w ≠ u →
     Profiles.owned w (Profiles.user_profiles s') = Profiles.owned w docs) ∧
  (field ≠ "user_id" →
     (Profiles.getProfile s').1 = Ok (delete field <$> head (Profiles.owned u docs)) ∧
     Profiles.owned u (Profiles.user_profiles s') =
       match Profiles.owned u docs with
       | [] => []
       | d :: rest => delete field d :: rest
       end) ∧
  (field = "user_id" →
     Profiles.owned u (Profiles.user_profiles s') = tail (Profiles.owned u docs)).
Proof.
  intros Hup. simpl.
  unfold Profiles.removeField, Profiles.getProfile, Profiles.updateOne,
    Profiles.findOne, Profiles.answering.
  rewrite Hup.
  destruct (ProfilesFacts.first_split {["user_id" := Profiles.user s]}
              (Profiles.user_profiles s))
    as [(Hf & Hall & Hu & Hdel)|(pre & d & post & Hdocs & Hall & Hd & Hf & Hu & Hdel)].
  - rewrite Hu. simpl. rewrite ?Hup, ProfilesFacts.first_owned.
    by rewrite (ProfilesFacts.owned_none _ _ Hall).
  - rewrite Hu. simpl. rewrite ?Hup. apply ProfilesFacts.satisfies_user in Hd.
    rewrite ProfilesFacts.first_owned, Hdocs.
    rewrite !(ProfilesFacts.owned_at (Profiles.user s) (Profiles.user s)) by done.
    rewrite !(decide_True (P := Profiles.user s = Profiles.user s)) by done.
    rewrite (decide_True (P := d !! "user_id" = Some (Profiles.user s))) by exact Hd.
    simpl.
    split; [by rewrite !length_app|]. split; [|split].
    + intros w Hw.
      rewrite !(ProfilesFacts.owned_at (Profiles.user s) w) by done.
      rewrite !(decide_False (P := w = Profiles.user s)) by done.
      rewrite (decide_False (P := d !! "user_id" = Some w))
        by (rewrite Hd; by intros [= <-]).
      rewrite (decide_False (P := _ !! "user_id" = Some w)); [done|].
      destruct (decide (field = "user_id")) as [->|Hne].
      * by rewrite lookup_delete_eq.
      * rewrite lookup_delete_ne by done. rewrite Hd. by intros [= <-].
    + intros Hne.
      rewrite (decide_True (P := _ !! "user_id" = Some (Profiles.user s)));
        [done|by rewrite lookup_delete_ne].
    + intros ->.
      rewrite (decide_False (P := _ !! "user_id" = Some (Profiles.user s)));
        [done|by rewrite lookup_delete_eq].
Qed.

Lemma removeField_keeps_the_document_witness :
  (Profiles.getProfile (Profiles.removeField "email" Sample2.profiles).2).1 =
  Ok (Some {["user_id" := "u1"; "name" := "ann"]}).
Proof.
  destruct (removeField_keeps_the_document "email" Sample2.profiles eq_refl)
    as (_ & _ & Hfield & _).
  destruct Hfield as [Hdoc _]; [discriminate|].
  rewrite Hdoc. by vm_compute.
Defined.

(** X25.  [setProfile] with a [user_id] of another user among the fields
    gives the document away: the field comes after the user's own in the
    update and stays.  When the remote store answers, the first document of
    the user, or the one made for the call, has afterwards the other
    [user_id]: the user has one document less than before, or none as
    before, and the other user has one more. *)
Theorem setProfile_with_another_user_id_gives_the_document_away profile v s :
  Profiles.remote_ok s = true →
  profile !! "user_id" = Some v → v ≠ Profiles.user s →
  let u := Profiles.user s in
  let docs := Profiles.user_profiles s in
  let s' := (Profiles.setProfile profile s).2 in
  Profiles.owned u (Profiles.user_profiles s') = tail (Profiles.owned u docs) ∧
  length (Profiles.owned v (Profiles.user_profiles s')) =
    S (length (Profiles.owned v docs)) ∧
  ((length (Profiles.owned u docs) ≤ 1)%nat → (Profiles.getProfile s').1 = Ok None).
Proof.
  intros Hup Hv Hne. simpl.
  unfold Profiles.setProfile, Profiles.getProfile, Profiles.updateOne,
    Profiles.findOne, Profiles.answering.
  rewrite Hup.
  assert (∀ base : Profiles.Profile,
            ((profile ∪ {["user_id" := Profiles.user s]}) ∪ base) !! "user_id" = Some v)
    as Hid by (intros base; by apply lookup_union_Some_l, lookup_union_Some_l).
  destruct (ProfilesFacts.first_split {["user_id" := Profiles.user s]}
              (Profiles.user_profiles s))
    as [(Hf & Hall & Hu & Hdel)|(pre & d & post & Hdocs & Hall & Hd & Hf & Hu & Hdel)].
  - rewrite Hu. simpl. rewrite ?Hup, ProfilesFacts.first_owned.
    rewrite !ProfilesFacts.owned_app, !ProfilesFacts.owned_cons.
    rewrite (ProfilesFacts.owned_none _ _ Hall). simpl.
    rewrite (decide_False (P := _ !! "user_id" = Some (Profiles.user s)))
      by (rewrite Hid; congruence).
    rewrite (decide_True (P := _ !! "user_id" = Some v)) by apply Hid.
    split; [done|]. split; [|done]. rewrite length_app. simpl. lia.
  - rewrite Hu. simpl. rewrite ?Hup. apply ProfilesFacts.satisfies_user in Hd.
    rewrite ProfilesFacts.first_owned, Hdocs.
    rewrite !(ProfilesFacts.owned_at (Profiles.user s) (Profiles.user s)) by done.
    rewrite !(ProfilesFacts.owned_at (Profiles.user s) v) by done.
    rewrite !(decide_True (P := Profiles.user s = Profiles.user s)) by done.
    rewrite !(decide_False (P := v = Profiles.user s)) by done.
    rewrite (decide_True (P := d !! "user_id" = Some (Profiles.user s))) by exact Hd.
    rewrite (decide_False (P := d !! "user_id" = Some v))
      by (rewrite Hd; congruence).
    rewrite (decide_False (P := _ !! "user_id" = Some (Profiles.user s)))
      by (rewrite Hid; congruence).
    rewrite (decide_True (P := _ !! "user_id" = Some v)) by apply Hid.
    simpl.
    split; [done|]. split; [rewrite !length_app; simpl; lia|].
    intros Hone. destruct (Profiles.owned (Profiles.user s) post); [done|simpl in Hone; lia].
Qed.

Lemma setProfile_with_another_user_id_gives_the_document_away_witness :
  (Profiles.getProfile
     (Profiles.setProfile {["user_id" := "u2"]} Sample2.profiles).2).1 = Ok None.
Proof.
  destruct (setProfile_with_another_user_id_gives_the_document_away
              {["user_id" := "u2"]} "u2" Sample2.profiles eq_refl)
    as (_ & _ & Hnone); [by vm_compute|discriminate|].
  apply Hnone. vm_compute. lia.
Defined.

(** X26.  [deleteProfile] removes one document, the first of the user: the
    user has one document less, the others have theirs, and the call
    answers how many it removed.  For a user with at most one document
    [getProfile] answers nothing afterwards.  When the remote store does
    not answer, the profile methods fail and the collection is as it
    was. *)
Theorem deleteProfile_removes_the_users_document s :
  let u := Profiles.user s in
  let docs := Profiles.user_profiles s in
  let s' := (Profiles.deleteProfile s).2 in
  (Profiles.remote_ok s = true →
     (Profiles.deleteProfile s).1 =
       Ok (if Profiles.owned u docs is [] then 0 else 1) ∧
     Profiles.owned u (Profiles.user_profiles s') = tail (Profiles.owned u docs) ∧
     (∀ w, w ≠ u →
        Profiles.owned w (Profiles.user_profiles s') = Profiles.owned w docs) ∧
     ((length (Profiles.owned u docs) ≤ 1)%nat →
        (Profiles.getProfile s').1 = Ok None)) ∧
  (Profiles.remote_ok s = false →
     Profiles.deleteProfile s = (Throw Remote.unavailable, s) ∧
     Profiles.getProfile s = (Throw Remote.unavailable, s) ∧
     (∀ profile, Profiles.setProfile profile s = (Throw Remote.unavailable, s)) ∧
     (∀ field, Profiles.removeField field s = (Throw Remote.unavailable, s)) ∧
     (∀ query, Profiles.getProfileBy query s = (Throw Remote.unavailable, s)) ∧
     (∀ query, Profiles.getProfilesBy query s = (Throw Remote.unavailable, s))).
Proof.
  simpl. split.
  - intros Hup.
    unfold Profiles.deleteProfile, Profiles.getProfile, Profiles.deleteOne,
      Profiles.findOne, Profiles.answering.
    rewrite Hup.
    destruct (ProfilesFacts.first_split {["user_id" := Profiles.user s]}
                (Profiles.user_profiles s))
      as [(Hf & Hall & Hu & Hdel)|(pre & d & post & Hdocs & Hall & Hd & Hf & Hu & Hdel)].
    + rewrite Hdel. simpl. rewrite ?Hup, ProfilesFacts.first_owned.
      by rewrite (ProfilesFacts.owned_none _ _ Hall).
    + rewrite Hdel. simpl. rewrite ?Hup. apply ProfilesFacts.satisfies_user in Hd.
      rewrite ProfilesFacts.first_owned, Hdocs.
      rewrite !(ProfilesFacts.owned_at (Profiles.user s) (Profiles.user s)) by done.
      rewrite !(decide_True (P := Profiles.user s = Profiles.user s)) by done.
      rewrite (decide_True (P := d !! "user_id" = Some (Profiles.user s))) by exact Hd.
      rewrite !ProfilesFacts.owned_app, (ProfilesFacts.owned_none _ _ Hall). simpl.
      split; [done|]. split; [done|]. split.
      * intros w Hw. rewrite (ProfilesFacts.owned_at (Profiles.user s) w) by done.
        rewrite (decide_False (P := w = Profiles.user s)) by done.
        rewrite (decide_False (P := d !! "user_id" = Some w));
          [by rewrite ProfilesFacts.owned_app|].
        rewrite Hd. by intros [= <-].
      * intros Hone.
        destruct (Profiles.owned (Profiles.user s) post); [done|simpl in Hone; lia].
  - intros Hup.
    unfold Profiles.deleteProfile, Profiles.getProfile, Profiles.setProfile,
      Profiles.removeField, Profiles.getProfileBy, Profiles.getProfilesBy,
      Profiles.deleteOne, Profiles.findOne, Profiles.find, Profiles.updateOne,
      Profiles.answering.
    by rewrite Hup.
Qed.
